(** * The transfer engine of S3-App (src/main/aws/transfer-engine.ts)

    A shallow embedding of the engine's module state and of its operations,
    followed by the properties that the design document states about them.

    Modelling conventions.
    - JavaScript numbers that hold byte counts, counters and millisecond
      timestamps are integers ([Z]); [speed], the only quotient, is a rational.
    - Job objects are shared and mutated in place (the queue, the running
      executors and the caller of [enqueueUpload] all hold the same object),
      so jobs live in a store [heap] and are referred to by their location.
    - An executor ([executeUpload] / [executeDownload]) is an asynchronous
      function: it is a [Task] that advances by events of the object store
      and of the file system, interleaved with the calls of the public API.
    - [Date.now()] reads the field [clock]; time passes between events. *)

From stdpp Require Import gmap strings list fin_maps pretty.
From Stdlib Require Import ZArith QArith Lia Ascii.

Open Scope Z_scope.

(** ** Shared types (src/shared/types.ts) *)

Inductive TransferStatus :=
  pending | active | paused | completed | failed | cancelled.

Inductive TransferDirection := upload | download.

Global Instance TransferStatus_eq_dec : EqDecision TransferStatus.
Proof. solve_decision. Defined.

Global Instance TransferDirection_eq_dec : EqDecision TransferDirection.
Proof. solve_decision. Defined.

Record TransferJob := mkJob {
  id : string;
  direction : TransferDirection;
  localPath : string;
  bucket : string;
  key : string;
  fileSize : Z;
  transferred : Z;
  speed : Q;
  status : TransferStatus;
  error : option string;
  startedAt : option Z;
  completedAt : option Z
}.

Record TransferSettings := mkSettings {
  partSizeMB : Z;
  concurrentThreads : Z;
  maxBandwidthKBps : Z;
  verifyChecksum : bool
}.

(** [Partial<TransferSettings>]: every field may be missing. *)
Record PartialSettings := mkPartial {
  p_partSizeMB : option Z;
  p_concurrentThreads : option Z;
  p_maxBandwidthKBps : option Z;
  p_verifyChecksum : option bool
}.

(** Field assignments [job.f = v]. *)
Definition with_status (st : TransferStatus) (j : TransferJob) : TransferJob :=
  mkJob (id j) (direction j) (localPath j) (bucket j) (key j) (fileSize j)
        (transferred j) (speed j) st (error j) (startedAt j) (completedAt j).

Definition with_transferred (n : Z) (j : TransferJob) : TransferJob :=
  mkJob (id j) (direction j) (localPath j) (bucket j) (key j) (fileSize j)
        n (speed j) (status j) (error j) (startedAt j) (completedAt j).

Definition with_speed (v : Q) (j : TransferJob) : TransferJob :=
  mkJob (id j) (direction j) (localPath j) (bucket j) (key j) (fileSize j)
        (transferred j) v (status j) (error j) (startedAt j) (completedAt j).

Definition with_error (e : string) (j : TransferJob) : TransferJob :=
  mkJob (id j) (direction j) (localPath j) (bucket j) (key j) (fileSize j)
        (transferred j) (speed j) (status j) (Some e) (startedAt j) (completedAt j).

Definition with_startedAt (t : Z) (j : TransferJob) : TransferJob :=
  mkJob (id j) (direction j) (localPath j) (bucket j) (key j) (fileSize j)
        (transferred j) (speed j) (status j) (error j) (Some t) (completedAt j).

Definition with_completedAt (t : Z) (j : TransferJob) : TransferJob :=
  mkJob (id j) (direction j) (localPath j) (bucket j) (key j) (fileSize j)
        (transferred j) (speed j) (status j) (error j) (startedAt j) (Some t).

(** ** Executors in flight *)

(** Where an executor is suspended.
    - [Starting]: at [await getBucketRegion(job.bucket)], no abort controller
      registered yet;
    - [Requested]: (download) controller registered, at [await client.send];
    - [Streaming]: at [await upload.done()], or at the promise around the
      body stream of a download;
    - [Settled]: the executor's body and its [finally] block have run, the
      [.finally(...)] callback attached by [processQueue] has not;
    - [Finished]: that callback has run. *)
Inductive Phase := Starting | Requested | Streaming | Settled | Finished.

Global Instance Phase_eq_dec : EqDecision Phase.
Proof. solve_decision. Defined.

Record Task := mkTask {
  tjob : nat;            (* the job object the executor was called with *)
  phase : Phase;
  downloaded : Z;        (* local variable of executeDownload *)
  aborted : bool         (* state of the signal of its AbortController *)
}.

Definition with_phase (p : Phase) (t : Task) : Task :=
  mkTask (tjob t) p (downloaded t) (aborted t).

Definition with_downloaded (n : Z) (t : Task) : Task :=
  mkTask (tjob t) (phase t) n (aborted t).

Definition with_aborted (t : Task) : Task :=
  mkTask (tjob t) (phase t) (downloaded t) true.

(** ** Module state *)

(** One delivery to the subscriber: the time of the call and the snapshot
    [{ ...job }] that was passed. *)
Definition Emission : Type := Z * TransferJob.

Record Engine := mkEngine {
  settings : TransferSettings;
  heap : list TransferJob;                (* job objects, by location *)
  queue : list nat;                       (* const queue: TransferJob[] *)
  activeCount : Z;
  abortControllers : gmap string nat;     (* job id -> task owning the controller *)
  lastEmitTime : gmap string Z;
  progressCallback : bool;                (* false: null *)
  jobIdCounter : Z;
  tasks : list Task;
  delivered : list Emission;              (* calls of progressCallback, oldest first *)
  clock : Z                               (* Date.now() *)
}.

Definition set_settings (x : TransferSettings) (s : Engine) : Engine :=
  mkEngine x (heap s) (queue s) (activeCount s) (abortControllers s)
           (lastEmitTime s) (progressCallback s) (jobIdCounter s) (tasks s)
           (delivered s) (clock s).

Definition set_heap (x : list TransferJob) (s : Engine) : Engine :=
  mkEngine (settings s) x (queue s) (activeCount s) (abortControllers s)
           (lastEmitTime s) (progressCallback s) (jobIdCounter s) (tasks s)
           (delivered s) (clock s).

Definition set_queue (x : list nat) (s : Engine) : Engine :=
  mkEngine (settings s) (heap s) x (activeCount s) (abortControllers s)
           (lastEmitTime s) (progressCallback s) (jobIdCounter s) (tasks s)
           (delivered s) (clock s).

Definition set_activeCount (x : Z) (s : Engine) : Engine :=
  mkEngine (settings s) (heap s) (queue s) x (abortControllers s)
           (lastEmitTime s) (progressCallback s) (jobIdCounter s) (tasks s)
           (delivered s) (clock s).

Definition set_abortControllers (x : gmap string nat) (s : Engine) : Engine :=
  mkEngine (settings s) (heap s) (queue s) (activeCount s) x
           (lastEmitTime s) (progressCallback s) (jobIdCounter s) (tasks s)
           (delivered s) (clock s).

Definition set_emit (tbl : gmap string Z) (log : list Emission) (s : Engine) : Engine :=
  mkEngine (settings s) (heap s) (queue s) (activeCount s) (abortControllers s)
           tbl (progressCallback s) (jobIdCounter s) (tasks s) log (clock s).

Definition set_progressCallback (x : bool) (s : Engine) : Engine :=
  mkEngine (settings s) (heap s) (queue s) (activeCount s) (abortControllers s)
           (lastEmitTime s) x (jobIdCounter s) (tasks s) (delivered s) (clock s).

Definition set_jobIdCounter (x : Z) (s : Engine) : Engine :=
  mkEngine (settings s) (heap s) (queue s) (activeCount s) (abortControllers s)
           (lastEmitTime s) (progressCallback s) x (tasks s) (delivered s) (clock s).

Definition set_tasks (x : list Task) (s : Engine) : Engine :=
  mkEngine (settings s) (heap s) (queue s) (activeCount s) (abortControllers s)
           (lastEmitTime s) (progressCallback s) (jobIdCounter s) x
           (delivered s) (clock s).

Definition set_clock (x : Z) (s : Engine) : Engine :=
  mkEngine (settings s) (heap s) (queue s) (activeCount s) (abortControllers s)
           (lastEmitTime s) (progressCallback s) (jobIdCounter s) (tasks s)
           (delivered s) x.

(** The values of the module-level [let]/[const] declarations. *)
Definition default_settings : TransferSettings := mkSettings 10 4 0 false.

Definition init (st : TransferSettings) : Engine :=
  mkEngine st [] [] 0 ∅ ∅ false 0 [] [] 0.

Definition MAX_HISTORY_SIZE : nat := 200.

Definition Date_now (s : Engine) : Z := clock s.

(** [job.f = v] on the object at location [l]. *)
Definition update_job (l : nat) (f : TransferJob → TransferJob) (s : Engine) : Engine :=
  set_heap (alter f l (heap s)) s.

Definition update_task (t : nat) (f : Task → Task) (s : Engine) : Engine :=
  set_tasks (alter f t (tasks s)) s.

(** ** generateId *)

Definition generateId (s : Engine) : string * Engine :=
  let n := jobIdCounter s + 1 in
  ("transfer-" +:+ pretty (Date_now s) +:+ "-" +:+ pretty n,
   set_jobIdCounter n s).

(** ** Terminal statuses and pruneQueue *)

Definition isTerminal (st : TransferStatus) : bool :=
  match st with
  | completed | failed | cancelled => true
  | _ => false
  end.

Definition status_at (h : list TransferJob) (l : nat) : option TransferStatus :=
  status <$> h !! l.

Definition terminal_at (h : list TransferJob) (l : nat) : bool :=
  match status_at h l with
  | Some st => isTerminal st
  | None => false
  end.

(** The [for] loop of [pruneQueue]: scan from the front; a terminal entry is
    spliced out (and the same index is inspected again, [i--] then [i++]),
    any other entry is stepped over; stop once [toRemove] entries are gone
    or the end is reached. *)
Fixpoint prune_scan (h : list TransferJob) (toRemove : nat) (q : list nat) : list nat :=
  match toRemove, q with
  | O, _ => q
  | _, [] => []
  | S n, l :: q' =>
      if terminal_at h l then prune_scan h n q'
      else l :: prune_scan h toRemove q'
  end.

Definition terminal_jobs (s : Engine) : list nat :=
  filter (λ l, terminal_at (heap s) l) (queue s).

Definition pruneQueue (s : Engine) : Engine :=
  let terminal := terminal_jobs s in
  if Nat.ltb MAX_HISTORY_SIZE (length terminal) then
    let toRemove := (length terminal - MAX_HISTORY_SIZE)%nat in
    set_queue (prune_scan (heap s) toRemove (queue s)) s
  else s.

(** ** Settings and subscription *)

Definition setTransferSettings (p : PartialSettings) (s : Engine) : Engine :=
  let o := settings s in
  set_settings
    (mkSettings (default (partSizeMB o) (p_partSizeMB p))
                (default (concurrentThreads o) (p_concurrentThreads p))
                (default (maxBandwidthKBps o) (p_maxBandwidthKBps p))
                (default (verifyChecksum o) (p_verifyChecksum p))) s.

Definition getTransferSettings (s : Engine) : TransferSettings := settings s.

Definition setProgressCallback (s : Engine) : Engine := set_progressCallback true s.

(** [getQueue]: copies of the queued jobs, in queue order. *)
Definition getQueue (s : Engine) : list TransferJob :=
  omap (λ l, heap s !! l) (queue s).

(** ** emitProgress *)

Definition emitProgress (job : TransferJob) (s : Engine) : Engine :=
  if negb (progressCallback s) then s
  else
    let now := Date_now s in
    if negb (isTerminal (status job)) then
      let last := default 0 (lastEmitTime s !! id job) in
      if now - last <? 100 then s
      else set_emit (<[id job := now]> (lastEmitTime s))
                    (delivered s ++ [(now, job)]) s
    else
      set_emit (<[id job := now]> (delete (id job) (lastEmitTime s)))
               (delivered s ++ [(now, job)]) s.

(** [emitProgress(job)] for the object at location [l]. *)
Definition emitProgressAt (l : nat) (s : Engine) : Engine :=
  match heap s !! l with
  | Some j => emitProgress j s
  | None => s
  end.

(** ** JavaScript idioms *)

(** [job.startedAt || Date.now()]: a missing or zero timestamp is falsy. *)
Definition startedAt_or (now : Z) (j : TransferJob) : Z :=
  match startedAt j with
  | Some t => if t =? 0 then now else t
  | None => now
  end.

(** [err.message || dflt]: a missing or empty message is falsy. *)
Definition message_or (msg : option string) (dflt : string) : string :=
  match msg with
  | Some m => if String.eqb m "" then dflt else m
  | None => dflt
  end.

(** [elapsed > 0 ? n / elapsed : 0] with
    [elapsed = (Date.now() - (job.startedAt || Date.now())) / 1000]. *)
Definition throughput (now : Z) (j : TransferJob) (n : Z) : Q :=
  let elapsed := Qdiv (inject_Z (now - startedAt_or now j)) (inject_Z 1000) in
  if negb (Qle_bool elapsed (inject_Z 0)) then Qdiv (inject_Z n) elapsed
  else inject_Z 0.

(** ** Lookups in the queue *)

(** [queue.find(j => j.status === 'pending')] *)
Definition find_pending (s : Engine) : option nat :=
  List.find (λ l, bool_decide (status_at (heap s) l = Some pending)) (queue s).

(** [queue.find(j => j.id === jobId)] *)
Definition find_job (s : Engine) (jobId : string) : option nat :=
  List.find (λ l, bool_decide (id <$> heap s !! l = Some jobId)) (queue s).

(** ** processQueue *)

(** Calling [executeUpload(next)] or [executeDownload(next)]: the call runs
    up to its first [await] and returns a promise; nothing of the module
    state is touched before that. *)
Definition launch (l : nat) (s : Engine) : Engine :=
  set_tasks (tasks s ++ [mkTask l Starting 0 false]) s.

(** [next.status = 'active'; next.startedAt = Date.now()] *)
Definition promote (now : Z) (j : TransferJob) : TransferJob :=
  with_startedAt now (with_status active j).

(** One iteration of the [while] loop, [None] when the loop exits. *)
Definition dispatch_one (s : Engine) : option Engine :=
  if activeCount s <? concurrentThreads (settings s) then
    match find_pending s with
    | None => None
    | Some next =>
        let s1 := update_job next (promote (Date_now s)) s in
        let s2 := set_activeCount (activeCount s1 + 1) s1 in
        let s3 := emitProgressAt next s2 in
        Some (launch next s3)
    end
  else None.

Fixpoint processQueue_loop (fuel : nat) (s : Engine) : Engine :=
  match fuel with
  | O => s
  | S fuel' =>
      match dispatch_one s with
      | Some s' => processQueue_loop fuel' s'
      | None => s
      end
  end.

(** Every iteration turns a pending entry of the queue into an active one,
    so the loop runs at most [length queue] times (see [processQueue_exit]). *)
Definition processQueue (s : Engine) : Engine :=
  processQueue_loop (length (queue s)) s.

(** ** Control operations *)

(** [controller.abort(); abortControllers.delete(jobId)] when a controller is
    registered under [jobId]. *)
Definition abort_controller (jobId : string) (s : Engine) : Engine :=
  match abortControllers s !! jobId with
  | Some t =>
      set_abortControllers (delete jobId (abortControllers s))
                           (update_task t with_aborted s)
  | None => s
  end.

Definition cancelTransfer (jobId : string) (s : Engine) : Engine :=
  match find_job s jobId with
  | None => s
  | Some l =>
      let s1 := update_job l (with_status cancelled) s in
      let s2 := abort_controller jobId s1 in
      emitProgressAt l s2
  end.

Definition pauseTransfer (jobId : string) (s : Engine) : Engine :=
  match find_job s jobId with
  | None => s
  | Some l =>
      if bool_decide (status_at (heap s) l = Some active) then
        let s1 := update_job l (with_status paused) s in
        let s2 := abort_controller jobId s1 in
        let s3 := set_activeCount (activeCount s2 - 1) s2 in
        emitProgressAt l s3
      else s
  end.

Definition resumeTransfer (jobId : string) (s : Engine) : Engine :=
  match find_job s jobId with
  | None => s
  | Some l =>
      if bool_decide (status_at (heap s) l = Some paused) then
        let s1 := update_job l (λ j, with_transferred 0 (with_status pending j)) s in
        let s2 := emitProgressAt l s1 in
        processQueue s2
      else s
  end.

(** The backwards loop splices out every terminal entry. *)
Definition clearCompleted (s : Engine) : Engine :=
  set_queue (filter (λ l, ¬ terminal_at (heap s) l) (queue s)) s.

(** ** Enqueueing *)

(** [queue.push(job); emitProgress(job); processQueue(); return job] for a
    freshly created object. *)
Definition enqueue (job : TransferJob) (s : Engine) : nat * Engine :=
  let l := length (heap s) in
  let s1 := set_queue (queue s ++ [l]) (set_heap (heap s ++ [job]) s) in
  let s2 := emitProgress job s1 in
  (l, processQueue s2).

Definition enqueueDownload (bucket key localPath : string) (fileSize : Z)
    (s : Engine) : nat * Engine :=
  let '(jid, s1) := generateId s in
  let job := mkJob jid download localPath bucket key fileSize 0 (inject_Z 0)
                   pending None None None in
  enqueue job s1.

(** ** Executors *)

(** The [catch] block. *)
Definition exec_catch (dflt : string) (message : option string) (l : nat)
    (s : Engine) : Engine :=
  if bool_decide (status_at (heap s) l = Some cancelled) then s
  else
    let s1 := update_job l
                (λ j, with_error (message_or message dflt) (with_status failed j)) s in
    emitProgressAt l s1.

(** The [finally] block; the returned promise settles after it. *)
Definition exec_finally (t : nat) (job : TransferJob) (s : Engine) : Engine :=
  update_task t (with_phase Settled)
    (set_abortControllers (delete (id job) (abortControllers s)) s).

Definition default_message (d : TransferDirection) : string :=
  match d with
  | upload => "Upload failed"
  | download => "Download failed"
  end.

(** [getBucketRegion] resolved: the controller is created and registered. *)
Definition exec_registered (t : nat) (s : Engine) : option Engine :=
  tk ← tasks s !! t;
  job ← heap s !! tjob tk;
  if bool_decide (phase tk = Starting) then
    let next := match direction job with
                | upload => Streaming
                | download => Requested
                end in
    Some (update_task t (with_phase next)
            (set_abortControllers (<[id job := t]> (abortControllers s)) s))
  else None.

(** [client.send(new GetObjectCommand ...)] resolved (download). *)
Definition exec_responded (t : nat) (hasBody : bool) (s : Engine) : option Engine :=
  tk ← tasks s !! t;
  job ← heap s !! tjob tk;
  if bool_decide (phase tk = Requested) then
    if hasBody then
      Some (update_task t (λ k, with_downloaded 0 (with_phase Streaming k)) s)
    else
      Some (exec_finally t job
              (exec_catch "Download failed" (Some "Empty response body") (tjob tk) s))
  else None.

(** The ['httpUploadProgress'] handler. *)
Definition exec_progress (t : nat) (loaded : option Z) (s : Engine) : option Engine :=
  tk ← tasks s !! t;
  job ← heap s !! tjob tk;
  if bool_decide (phase tk = Streaming ∧ direction job = upload) then
    if bool_decide (status job = cancelled) then Some s
    else
      let n := default 0 loaded in
      let v := throughput (Date_now s) job n in
      let s1 := update_job (tjob tk) (λ j, with_speed v (with_transferred n j)) s in
      Some (emitProgressAt (tjob tk) s1)
  else None.

(** The ['data'] handler of the body stream. *)
Definition exec_data (t : nat) (len : N) (s : Engine) : option Engine :=
  tk ← tasks s !! t;
  job ← heap s !! tjob tk;
  if bool_decide (phase tk = Streaming ∧ direction job = download) then
    if bool_decide (status job = cancelled) then Some s
    else
      let n := downloaded tk + Z.of_N len in
      let v := throughput (Date_now s) job n in
      let s1 := update_task t (with_downloaded n) s in
      let s2 := update_job (tjob tk) (λ j, with_speed v (with_transferred n j)) s1 in
      Some (emitProgressAt (tjob tk) s2)
  else None.

(** [await upload.done()] resolved, or the write stream finished. *)
Definition exec_done (t : nat) (s : Engine) : option Engine :=
  tk ← tasks s !! t;
  job ← heap s !! tjob tk;
  if bool_decide (phase tk = Streaming) then
    let s1 :=
      if bool_decide (status job = cancelled) then s
      else
        let f := match direction job with
                 | upload => λ j, with_completedAt (Date_now s)
                               (with_transferred (fileSize j) (with_status completed j))
                 | download => λ j, with_completedAt (Date_now s)
                               (with_status completed j)
                 end in
        emitProgressAt (tjob tk) (update_job (tjob tk) f s) in
    Some (exec_finally t job s1)
  else None.

(** Any of the awaited promises rejected with an error carrying [message]. *)
Definition exec_failed (t : nat) (message : option string) (s : Engine) : option Engine :=
  tk ← tasks s !! t;
  job ← heap s !! tjob tk;
  if bool_decide (phase tk = Starting ∨ phase tk = Requested ∨ phase tk = Streaming) then
    Some (exec_finally t job
            (exec_catch (default_message (direction job)) message (tjob tk) s))
  else None.

(** The callback given to [.finally] in [processQueue]. *)
Definition exec_completion (t : nat) (s : Engine) : option Engine :=
  tk ← tasks s !! t;
  if bool_decide (phase tk = Settled) then
    let s1 := update_task t (with_phase Finished) s in
    let s2 := set_activeCount (activeCount s1 - 1) s1 in
    Some (processQueue (pruneQueue s2))
  else None.

(** ** The engine as a transition system *)

Inductive Event :=
  | EnqueueUpload (localPath bucket prefix : string) (stat : option Z)
  | EnqueueDownload (bucket key localPath : string) (fileSize : Z)
  | CancelTransfer (jobId : string)
  | PauseTransfer (jobId : string)
  | ResumeTransfer (jobId : string)
  | ClearCompleted
  | SetProgressCallback
  | Tick (d : N)
  | Registered (t : nat)
  | Responded (t : nat) (hasBody : bool)
  | Progress (t : nat) (loaded : option Z)
  | Data (t : nat) (len : N)
  | Done (t : nat)
  | Failed (t : nat) (message : option string)
  | Completion (t : nat)
  | SetTransferSettings (p : PartialSettings).

Section WithPath.

(** [basename] of Node's [path] module. *)
Variable basename : string → string.

(** [stat] is the outcome of [statSync(localPath)]: [None] when it throws. *)
Definition enqueueUpload (localPath bucket prefix : string) (stat : option Z)
    (s : Engine) : nat * Engine :=
  let fileName := basename localPath in
  let fileSize := match stat with Some size => size | None => 0 end in
  let key := if String.eqb prefix "" then fileName else prefix +:+ fileName in
  let '(jid, s1) := generateId s in
  let job := mkJob jid upload localPath bucket key fileSize 0 (inject_Z 0)
                   pending None None None in
  enqueue job s1.

Definition step (e : Event) (s : Engine) : option Engine :=
  match e with
  | EnqueueUpload p b x st => Some (enqueueUpload p b x st s).2
  | EnqueueDownload b k p n => Some (enqueueDownload b k p n s).2
  | CancelTransfer i => Some (cancelTransfer i s)
  | PauseTransfer i => Some (pauseTransfer i s)
  | ResumeTransfer i => Some (resumeTransfer i s)
  | ClearCompleted => Some (clearCompleted s)
  | SetProgressCallback => Some (setProgressCallback s)
  | Tick d => Some (set_clock (clock s + Z.of_N d) s)
  | Registered t => exec_registered t s
  | Responded t b => exec_responded t b s
  | Progress t n => exec_progress t n s
  | Data t n => exec_data t n s
  | Done t => exec_done t s
  | Failed t m => exec_failed t m s
  | Completion t => exec_completion t s
  | SetTransferSettings p => Some (setTransferSettings p s)
  end.

Fixpoint run (es : list Event) (s : Engine) : option Engine :=
  match es with
  | [] => Some s
  | e :: es' => s' ← step e s; run es' s'
  end.

(** States reached from the initial state under settings [st]. *)
Definition reachable (st : TransferSettings) (s : Engine) : Prop :=
  ∃ es, run es (init st) = Some s.

End WithPath.

(** A POSIX instance of [basename] for concrete runs: trailing slashes are
    dropped, then everything up to the last slash. *)
Fixpoint last_segment (acc : string) (p : string) : string :=
  match p with
  | EmptyString => acc
  | String c p' =>
      if Ascii.eqb c "/"%char then
        (if String.eqb p' "" then acc else last_segment "" p')
      else last_segment (acc +:+ String c "") p'
  end.

Definition posix_basename (p : string) : string := last_segment "" p.

(** The queued jobs in a given status, in queue order. *)
Definition jobs_in (st : TransferStatus) (s : Engine) : list nat :=
  filter (λ l, status_at (heap s) l = Some st) (queue s).

Definition active_jobs (s : Engine) : list nat := jobs_in active s.

Definition pending_jobs (s : Engine) : list nat := jobs_in pending s.

(** The job object at location [l] is in status [st]. *)
Definition has_status (s : Engine) (l : nat) (st : TransferStatus) : Prop :=
  status_at (heap s) l = Some st.

(** ** The life of one job object *)

(** Every assignment to a job that the engine performs, with the guard under
    which it is performed. *)
Inductive job_step : TransferJob → TransferJob → Prop :=
  | js_promote now j :
      status j = pending → job_step j (promote now j)
  | js_cancel j :
      job_step j (with_status cancelled j)
  | js_pause j :
      status j = active → job_step j (with_status paused j)
  | js_resume j :
      status j = paused → job_step j (with_transferred 0 (with_status pending j))
  | js_progress n v j :
      status j ≠ cancelled → job_step j (with_speed v (with_transferred n j))
  | js_complete_upload now j :
      status j ≠ cancelled → direction j = upload →
      job_step j (with_completedAt now
                    (with_transferred (fileSize j) (with_status completed j)))
  | js_complete_download now j :
      status j ≠ cancelled → direction j = download →
      job_step j (with_completedAt now (with_status completed j))
  | js_fail m j :
      status j ≠ cancelled → m ≠ "" →
      job_step j (with_error m (with_status failed j)).

(** A job as the two [enqueue*] functions create it. *)
Definition fresh_job (j : TransferJob) : Prop :=
  status j = pending ∧ transferred j = 0 ∧ error j = None ∧
  startedAt j = None ∧ completedAt j = None.

(** The store after some assignments: same objects, each one moved along
    [job_step]. *)
Definition heap_evolves (h h' : list TransferJob) : Prop :=
  length h = length h' ∧
  ∀ l j, h !! l = Some j → ∃ j', h' !! l = Some j' ∧ rtc job_step j j'.

(** No object is created, the queue loses entries at most. *)
Definition evolves (s s' : Engine) : Prop :=
  heap_evolves (heap s) (heap s') ∧ sublist (queue s') (queue s).

(** The queue holds each object once, and only objects of the store. *)
Definition queue_wf (s : Engine) : Prop :=
  NoDup (queue s) ∧ ∀ l, l ∈ queue s → (l < length (heap s))%nat.

(** ** Scenarios *)

Definition two_slots : TransferSettings := mkSettings 10 2 0 false.

(** Two uploads fill both slots; the first is paused, its aborted executor
    ends; two more uploads are enqueued. *)
Definition pause_then_enqueue : list Event :=
  [ EnqueueUpload "/data/a.bin" "bucket" "in/" (Some 10);
    EnqueueUpload "/data/b.bin" "bucket" "in/" (Some 10);
    Registered 0;
    PauseTransfer "transfer-0-1";
    Failed 0 (Some "Upload aborted.");
    Completion 0;
    EnqueueUpload "/data/c.bin" "bucket" "in/" (Some 10);
    EnqueueUpload "/data/d.bin" "bucket" "in/" (Some 10) ].

(** An upload that runs to completion. *)
Definition upload_completes : list Event :=
  [ EnqueueUpload "/data/a.bin" "bucket" "in/" (Some 10);
    Registered 0; Done 0; Completion 0 ].

(** An upload that fails on the network. *)
Definition upload_fails : list Event :=
  [ EnqueueUpload "/data/a.bin" "bucket" "in/" (Some 10);
    Registered 0; Failed 0 (Some "socket hang up"); Completion 0 ].

(** An upload that is paused while its transfer is in flight. *)
Definition upload_paused : list Event :=
  [ EnqueueUpload "/data/a.bin" "bucket" "in/" (Some 10);
    Registered 0; PauseTransfer "transfer-0-1" ].

(** A download announced with 1000 bytes whose body carries 400. *)
Definition short_download : list Event :=
  [ EnqueueDownload "bucket" "k" "/tmp/k" 1000;
    Registered 0; Responded 0 true; Data 0 400 ].

(** 205 uploads under the default settings (4 slots), then the 201 pending
    ones are cancelled. *)
Definition cancel_backlog : list Event :=
  map (λ _, EnqueueUpload "/data/a.bin" "bucket" "in/" (Some 10)) (seq 1 205)
  ++ map (λ k, CancelTransfer ("transfer-0-" +:+ pretty (Z.of_nat k))) (seq 5 201).

(** A subscribed upload that completes at time 1500. *)
Definition observed_upload : list Event :=
  [ SetProgressCallback; Tick 1000;
    EnqueueUpload "/data/a.bin" "bucket" "in/" (Some 10);
    Registered 0; Tick 500; Done 0 ].

(** ** What the subscriber observes *)

(** The part of the state the emitter works on. *)
Definition emit_view (s : Engine) : bool * Z * gmap string Z * list Emission :=
  (progressCallback s, clock s, lastEmitTime s, delivered s).

(** Two deliveries for the same id, both at a non-terminal status, are at
    least 100 ms apart. *)
Definition rate_limited (log : list Emission) : Prop :=
  ∀ i k t1 t2 a b,
    (i < k)%nat → log !! i = Some (t1, a) → log !! k = Some (t2, b) →
    id a = id b → isTerminal (status a) = false → isTerminal (status b) = false →
    t1 + 100 ≤ t2.

Definition emit_inv (s : Engine) : Prop :=
  rate_limited (delivered s) ∧
  (∀ t a, (t, a) ∈ delivered s →
     ∃ last, lastEmitTime s !! id a = Some last ∧ t ≤ last) ∧
  (∀ i last, lastEmitTime s !! i = Some last → last ≤ clock s).

(** ** Slots *)

(** An executor that has not reached the end of its body. *)
Definition unsettled (tk : Task) : Prop :=
  phase tk = Starting ∨ phase tk = Requested ∨ phase tk = Streaming.

(** An executor whose [.finally] callback has not run: it holds a slot. *)
Definition running (tk : Task) : Prop := phase tk ≠ Finished.

(** The events other than a pause and a change of the settings. *)
Definition keeps_budget (e : Event) : Prop :=
  match e with
  | PauseTransfer _ | SetTransferSettings _ => False
  | _ => True
  end.

(** The bookkeeping that the dispatcher relies on, for a budget of [N]
    slots: [activeCount] counts the executors holding a slot, it stays within
    the budget, and every active job has an executor at work. *)
Definition budget_inv (N : Z) (s : Engine) : Prop :=
  concurrentThreads (settings s) = N ∧
  activeCount s = Z.of_nat (length (filter running (tasks s))) ∧
  activeCount s ≤ N ∧
  ∀ l, has_status s l active →
       ∃ t tk, tasks s !! t = Some tk ∧ tjob tk = l ∧ unsettled tk.

(** * The rest of the engine and its surroundings *)

(** ** The loops of [pruneQueue] and [clearCompleted], index by index *)

(** The [for] loop of [pruneQueue] as it is written, with its index [i], its
    counter [removed] and the array it splices: [queue.splice(i, 1)] is
    [delete i], and [i--] followed by the [i++] of the loop header leaves the
    index where it is. *)
Fixpoint pruneQueue_for (fuel : nat) (h : list TransferJob) (toRemove : nat)
    (i : Z) (removed : nat) (q : list nat) : list nat :=
  match fuel with
  | O => q
  | S fuel' =>
      if (i <? Z.of_nat (length q)) && (removed <? toRemove)%nat then
        match q !! Z.to_nat i with
        | Some l =>
            if terminal_at h l then
              pruneQueue_for fuel' h toRemove ((i - 1) + 1) (S removed)
                             (delete (Z.to_nat i) q)
            else pruneQueue_for fuel' h toRemove (i + 1) removed q
        | None => q
        end
      else q
  end.

(** The loop of [clearCompleted]: [n] is [i + 1], the index runs from
    [queue.length - 1] down to [0]. *)
Fixpoint clearCompleted_for (h : list TransferJob) (n : nat) (q : list nat) : list nat :=
  match n with
  | O => q
  | S i =>
      clearCompleted_for h i
        (match q !! i with
         | Some l => if terminal_at h l then delete i q else q
         | None => q
         end)
  end.

(** ** Scenarios for the further properties *)

Definition pending_upload (n : Z) : TransferJob :=
  mkJob ("transfer-0-" +:+ pretty n) upload "/data/a.bin" "bucket" "in/a.bin"
        10 0 (inject_Z 0) pending None None None.

(** Three pending uploads queued in front of two free slots. *)
Definition three_pending : Engine :=
  set_queue [0%nat; 1%nat; 2%nat]
    (set_heap [pending_upload 1; pending_upload 2; pending_upload 3]
       (init two_slots)).

(** ** The elementary changes of the module state *)

(** Every write that the engine makes to its state: an assignment to a job
    (along [job_step]), to an executor, to [activeCount], to one of the two
    maps, to the settings or to the subscription; the removal of terminal
    entries from the queue; the passing of time; and the creation of a job,
    which takes the next id and goes to the end of the queue. *)
Inductive prim : Engine → Engine → Prop :=
  | prim_job s l f :
      (∀ j, heap s !! l = Some j → job_step j (f j)) →
      prim s (update_job l f s)
  | prim_tasks s ts : prim s (set_tasks ts s)
  | prim_count s n : prim s (set_activeCount n s)
  | prim_controllers s m : prim s (set_abortControllers m s)
  | prim_emit s tbl log : prim s (set_emit tbl log s)
  | prim_settings s x : prim s (set_settings x s)
  | prim_subscribe s : prim s (set_progressCallback true s)
  | prim_tick s d : prim s (set_clock (clock s + Z.of_N d) s)
  | prim_queue s q :
      sublist q (queue s) →
      (∀ l, l ∈ queue s → l ∈ q ∨ terminal_at (heap s) l) →
      prim s (set_queue q s)
  | prim_new s job :
      fresh_job job → id job = (generateId s).1 →
      prim s (set_queue (queue s ++ [length (heap s)])
                (set_heap (heap s ++ [job]) (generateId s).2)).

(** What never changes in a job. *)
Definition same_identity (j j' : TransferJob) : Prop :=
  id j' = id j ∧ direction j' = direction j ∧ localPath j' = localPath j ∧
  bucket j' = bucket j ∧ key j' = key j ∧ fileSize j' = fileSize j.

(** The ids are those that [generateId] makes, numbered in the order of
    creation. *)
Definition ids_inv (s : Engine) : Prop :=
  jobIdCounter s = Z.of_nat (length (heap s)) ∧
  ∀ l j, heap s !! l = Some j →
         ∃ t : Z, id j = "transfer-" +:+ pretty t +:+ "-" +:+ pretty (Z.of_nat l + 1).

Fixpoint nodash (s : string) : Prop :=
  match s with
  | EmptyString => True
  | String c s' => c ≠ "-"%char ∧ nodash s'
  end.

(** The state after a run of events under POSIX paths (the state itself if
    the run is not possible). *)
Definition after (es : list Event) (s : Engine) : Engine :=
  default s (run posix_basename es s).

(** An upload is dispatched, registers its controller and is cancelled. *)
Definition cancelled_upload : Engine :=
  after [ EnqueueUpload "/data/a.bin" "bucket" "in/" (Some 10);
          Registered 0; CancelTransfer "transfer-0-1" ] (init default_settings).

(** Two uploads under a subscriber, with progress events over two seconds. *)
Definition observed_progress : list Event :=
  [ SetProgressCallback; Tick 1000;
    EnqueueUpload "/data/a.bin" "bucket" "in/" (Some 1000);
    EnqueueUpload "/data/b.bin" "bucket" "in/" (Some 1000);
    Registered 0; Registered 1;
    Tick 50; Progress 0 (Some 100); Tick 50; Progress 0 (Some 200);
    Tick 150; Progress 1 (Some 500); Progress 0 (Some 300);
    Tick 1000; Done 0; Completion 0 ].

(** Two uploads enqueued under the default settings. *)
Definition two_uploads : list Event :=
  [ EnqueueUpload "/data/a.bin" "bucket" "in/" (Some 10);
    EnqueueUpload "/data/b.bin" "bucket" "in/" (Some 10) ].

(** Three uploads on two slots; the second is cancelled, the first
    completes. *)
Definition three_on_two_slots : list Event :=
  [ EnqueueUpload "/data/a.bin" "bucket" "in/" (Some 10);
    EnqueueUpload "/data/b.bin" "bucket" "in/" (Some 10);
    EnqueueUpload "/data/c.bin" "bucket" "in/" (Some 10);
    Registered 0; CancelTransfer "transfer-0-2"; Done 0; Completion 0 ].

(** * The callers of the engine *)

(** ** The IPC handlers (src/main/ipc-handlers.ts)

    A handler runs in the main process on the engine's module state. What
    [ipcMain.handle] sends back is the value the handler returns, or the
    message of the error it throws. The arguments are typed as the handler's
    signature declares them, so the [typeof] and [Array.isArray] tests on
    them pass. Job objects are returned by location, as the engine returns
    them. *)

Inductive Reply (A : Type) :=
  | Resolved (value : A)
  | Rejected (message : string).

Arguments Resolved {A} value.
Arguments Rejected {A} message.

(** [{ bucket: string; key: string; size: number }] *)
Record DownloadItem := mkItem {
  item_bucket : string;
  item_key : string;
  item_size : Z
}.

Section IpcHandlers.

(** [basename], [join] and [resolve] of Node's [path] module, and
    [String.prototype.trim]. *)
Variable basename : string → string.
Variable join : string → string → string.
Variable resolve : string → string.
Variable trim : string → string.



(** The callback of [items.map] in [DOWNLOAD_FILES]: where the item goes, or
    the message of the error thrown for it. *)
Definition download_target (resolvedDir : string) (item : DownloadItem) : string + string :=
  let fileName := basename (item_key item) in
  if String.eqb fileName "" || String.eqb fileName "." || String.eqb fileName ".." then
    inl ("Invalid object key: " +:+ item_key item)
  else
    let localPath := join resolvedDir fileName in
    if negb (String.prefix resolvedDir localPath) then inl "Path traversal detected"
    else inr localPath.

(** [items.map(...)]: a [throw] in the callback ends the handler; the calls
    of [enqueueDownload] made for the earlier items have taken place. *)
Fixpoint map_enqueueDownload (resolvedDir : string) (items : list DownloadItem)
    (s : Engine) : Reply (list nat) * Engine :=
  match items with
  | [] => (Resolved [], s)
  | item :: rest =>
      match download_target resolvedDir item with
      | inl message => (Rejected message, s)
      | inr localPath =>
          let '(job, s1) :=
            enqueueDownload (item_bucket item) (item_key item) localPath
                            (item_size item) s in
          match map_enqueueDownload resolvedDir rest s1 with
          | (Resolved jobs, s2) => (Resolved (job :: jobs), s2)
          | (Rejected message, s2) => (Rejected message, s2)
          end
      end
  end.

Definition DOWNLOAD_FILES (items : list DownloadItem) (localDir : string)
    (s : Engine) : Reply (list nat) * Engine :=
  if String.eqb (trim localDir) "" then (Rejected "Download directory is required.", s)
  else map_enqueueDownload (resolve localDir) items s.

(** The calls of [enqueueDownload] that [DOWNLOAD_FILES] makes for items
    that pass its tests. *)
Definition download_event (resolvedDir : string) (item : DownloadItem) : Event :=
  EnqueueDownload (item_bucket item) (item_key item)
                  (join resolvedDir (basename (item_key item))) (item_size item).

End IpcHandlers.



(** Instances of the library functions for concrete calls: [join] and
    [resolve] on absolute paths without [.] and [..] segments, [trim] on
    ASCII white space. *)
Definition posix_join (dir name : string) : string := dir +:+ "/" +:+ name.

Definition resolve_absolute (dir : string) : string := dir.

Definition is_space (c : ascii) : bool :=
  let n := nat_of_ascii c in
  (n =? 32)%nat || ((9 <=? n)%nat && (n <=? 13)%nat).

Fixpoint trimStart (x : string) : string :=
  match x with
  | String c x' => if is_space c then trimStart x' else x
  | EmptyString => EmptyString
  end.

Fixpoint trimEnd (x : string) : string :=
  match x with
  | String c x' =>
      let r := trimEnd x' in
      if is_space c && String.eqb r "" then "" else String c r
  | EmptyString => EmptyString
  end.

Definition ascii_trim (x : string) : string := trimEnd (trimStart x).

(** ** The subscriber of the renderer (src/renderer/App.tsx)

    [setTransfers((prev) => ...)]: the snapshot replaces the entry with its
    id, or is appended. *)
Fixpoint findIndex {A} (f : A → bool) (l : list A) : option nat :=
  match l with
  | [] => None
  | x :: l' => if f x then Some 0%nat else S <$> findIndex f l'
  end.

Definition onTransferProgress (job : TransferJob) (prev : list TransferJob) :
    list TransferJob :=
  match findIndex (λ t, String.eqb (id t) (id job)) prev with
  | Some idx => <[idx := job]> prev
  | None => prev ++ [job]
  end.

(** The list shown after the snapshots [jobs] have arrived, oldest first. *)
Definition transfers_after (jobs : list TransferJob) : list TransferJob :=
  foldl (λ prev job, onTransferProgress job prev) [] jobs.


Definition three_items : list DownloadItem :=
  [mkItem "bucket" "in/a.bin" 10; mkItem "bucket" "in/sub/.." 20;
   mkItem "bucket" "in/c.bin" 30].

(** * What the executors call first

    [executeUpload] and [executeDownload] start with
    [getBucketRegion(job.bucket)] (src/main/aws/s3-service.ts) and
    [createRegionalS3Client(region)] (src/main/aws/auth.ts). Both work on
    module state: the active profile, the default client, the cache of
    regional clients and the cache of bucket regions. *)

(** ** Profiles and clients (auth.ts) *)

Inductive ProfileSource := from_credentials | from_config.

Record AwsProfile := mkProfile {
  name : string;
  accessKeyId : option string;
  secretAccessKey : option string;
  sessionToken : option string;
  region : option string;
  source : option ProfileSource
}.

(** The configuration handed to [new S3Client]; [forcePathStyle] is always
    [false]. *)
Record Credentials := mkCredentials {
  cred_accessKeyId : string;
  cred_secretAccessKey : string;
  cred_sessionToken : option string
}.

Record S3Client := mkClient {
  client_region : string;
  client_credentials : option Credentials
}.

(** An optional string used as a condition: [undefined] and [''] are falsy. *)
Definition truthy (x : option string) : bool :=
  match x with
  | Some v => negb (String.eqb v "")
  | None => false
  end.

(** [profile.accessKeyId && profile.secretAccessKey ? {...} : undefined] *)
Definition profile_credentials (profile : AwsProfile) : option Credentials :=
  if truthy (accessKeyId profile) && truthy (secretAccessKey profile) then
    Some (mkCredentials (default "" (accessKeyId profile))
                        (default "" (secretAccessKey profile))
                        (sessionToken profile))
  else None.

(** [regionOverride || profile.region || 'us-east-1'] *)
Definition createS3Client (profile : AwsProfile) (regionOverride : option string) :
    S3Client :=
  let region' :=
    if truthy regionOverride then default "" regionOverride
    else if truthy (region profile) then default "" (region profile)
    else "us-east-1" in
  mkClient region' (profile_credentials profile).

Record Aws := mkAws {
  activeProfile : option AwsProfile;
  s3Client : option S3Client;
  clientCache : gmap string S3Client;
  regionCache : gmap string string
}.

Definition aws_init : Aws := mkAws None None ∅ ∅.

Definition setActiveProfile (profile : AwsProfile) (a : Aws) : Aws :=
  mkAws (Some profile) (Some (createS3Client profile None)) ∅ (regionCache a).

Definition getActiveProfile (a : Aws) : option AwsProfile := activeProfile a.

(** A [throw] is the left summand, with the message of the error. *)
Definition getS3Client (a : Aws) : string + S3Client :=
  match s3Client a with
  | None => inl "No active AWS profile. Please select a profile first."
  | Some client => inr client
  end.

Definition createRegionalS3Client (region' : string) (a : Aws) :
    (string + S3Client) * Aws :=
  match activeProfile a with
  | None => (inl "No active AWS profile.", a)
  | Some profile =>
      match clientCache a !! region' with
      | Some cached => (inr cached, a)
      | None =>
          let client := createS3Client profile (Some region') in
          (inr client,
           mkAws (activeProfile a) (s3Client a) (<[region' := client]> (clientCache a))
                 (regionCache a))
      end
  end.

(** ** Bucket regions (s3-service.ts) *)

(** [toUpperCase] on the letters a-z. No other character has [E] or [U] as
    its upper case, so the comparison with ['EU'] below comes out as in
    JavaScript on every string. *)
Definition upper_ascii (c : ascii) : ascii :=
  let n := nat_of_ascii c in
  if (97 <=? n)%nat && (n <=? 122)%nat then ascii_of_nat (n - 32) else c.

Fixpoint toUpperCase (x : string) : string :=
  match x with
  | EmptyString => EmptyString
  | String c x' => String (upper_ascii c) (toUpperCase x')
  end.

Definition normalizeRegion (locationConstraint : option string) : string :=
  if negb (truthy locationConstraint) then "us-east-1"
  else if String.eqb (toUpperCase (default "" locationConstraint)) "EU" then "eu-west-1"
  else default "" locationConstraint.

(** [getBucketRegion] is asynchronous: it awaits the answer to
    [GetBucketLocation], and other calls may run in between. Its two
    synchronous parts are modelled apart.

    The part before the [await]: the answer when there is one at once (the
    cached region, or ['us-east-1'] when [getS3Client] throws), or else a
    request is sent. Nothing of the state changes. *)
Inductive Lookup :=
  | Answered (region' : string)
  | RequestSent.

Definition getBucketRegion_call (bucket : string) (a : Aws) : Lookup :=
  match regionCache a !! bucket with
  | Some cached => Answered cached
  | None =>
      match getS3Client a with
      | inl _ => Answered "us-east-1"
      | inr _ => RequestSent
      end
  end.

(** The part after the [await]. [resp] is the outcome of the request:
    [None] when it is rejected, else the [LocationConstraint] of the
    response, which may be missing. *)
Definition getBucketRegion_response (bucket : string) (resp : option (option string))
    (a : Aws) : string * Aws :=
  match resp with
  | None => ("us-east-1", a)
  | Some locationConstraint =>
      let region' := normalizeRegion locationConstraint in
      (region',
       mkAws (activeProfile a) (s3Client a) (clientCache a)
             (<[bucket := region']> (regionCache a)))
  end.

(** What happens to this state, in the order in which it happens: a profile
    is selected, the answer to a region request arrives, a regional client
    is asked for. *)
Inductive AwsCall :=
  | SetActiveProfile (profile : AwsProfile)
  | RegionResponse (bucket : string) (resp : option (option string))
  | CreateRegionalS3Client (region' : string).

Definition aws_call (c : AwsCall) (a : Aws) : Aws :=
  match c with
  | SetActiveProfile profile => setActiveProfile profile a
  | RegionResponse bucket resp => (getBucketRegion_response bucket resp a).2
  | CreateRegionalS3Client region' => (createRegionalS3Client region' a).2
  end.

Definition aws_calls (cs : list AwsCall) (a : Aws) : Aws :=
  foldl (λ a c, aws_call c a) a cs.

(** What the caches hold: clients made for the active profile, and region
    names that are not empty. *)
Definition aws_inv (a : Aws) : Prop :=
  match activeProfile a with
  | None => s3Client a = None ∧ clientCache a = ∅
  | Some profile =>
      s3Client a = Some (createS3Client profile None) ∧
      ∀ r c, clientCache a !! r = Some c → c = createS3Client profile (Some r)
  end ∧
  ∀ b r, regionCache a !! b = Some r → r ≠ "".

(** An answer for [bucket] that the cache takes in. *)
Definition answers_for (bucket : string) (c : AwsCall) : Prop :=
  match c with
  | RegionResponse bucket' (Some _) => bucket' = bucket
  | _ => False
  end.

Definition work_profile : AwsProfile :=
  mkProfile "work" (Some "AKIAWORK") (Some "secret-work") None (Some "eu-central-1")
            (Some from_credentials).

Definition home_profile : AwsProfile :=
  mkProfile "home" (Some "AKIAHOME") (Some "secret-home") None None
            (Some from_credentials).

(** * Other operations of the object-store service (s3-service.ts) *)

From Stdlib Require Import Qround.

(** ** deleteObjects: requests of at most 1000 keys *)

(** [keys.slice(start, end)] for [start <= end]. *)
Definition slice {A} (start end' : nat) (l : list A) : list A :=
  take (end' - start) (drop start l).

(** [for (let i = 0; i < keys.length; i += 1000) batches.push(keys.slice(i, i + 1000))];
    [fuel] bounds the number of iterations. *)
Fixpoint deleteObjects_for (fuel : nat) (i : nat) (keys : list string) :
    list (list string) :=
  match fuel with
  | O => []
  | S fuel' =>
      if (i <? length keys)%nat then
        slice i (i + 1000) keys :: deleteObjects_for fuel' (i + 1000) keys
      else []
  end.

(** The loop is left after at most [length keys] iterations (see
    [deleteObjects_fuel]). *)
Definition deleteObjects_batches (keys : list string) : list (list string) :=
  deleteObjects_for (length keys) 0 keys.

(** ** Listing a prefix page by page: listAllKeys and getPrefixSize *)

(** An entry of [resp.Contents] and a response of [ListObjectsV2], with the
    fields that the two functions read; every field may be missing. *)
Record ListedObject := mkObject {
  Key : option string;
  Size : option Z
}.

Record ListPage := mkPage {
  Contents : option (list ListedObject);
  IsTruncated : option bool;
  NextContinuationToken : option string
}.

(** [resp.IsTruncated ? resp.NextContinuationToken : undefined] *)
Definition next_token (resp : ListPage) : option string :=
  if default false (IsTruncated resp) then NextContinuationToken resp else None.

Definition endsWith (x suffix : string) : bool :=
  String.prefix (String.rev suffix) (String.rev x).

(** The body of the [for] loop of [listAllKeys]: folder markers (size 0,
    key ending in a slash) and entries without a key are skipped. *)
Definition listAllKeys_object (acc : list string * Z) (obj : ListedObject) :
    list string * Z :=
  let '(keys, totalSize) := acc in
  if truthy (Key obj)
     && negb (endsWith (default "" (Key obj)) "/" && (default 0 (Size obj) =? 0))
  then (keys ++ [default "" (Key obj)], totalSize + default 0 (Size obj))
  else (keys, totalSize).

(** The [do ... while (continuationToken)] loop on the responses that the
    service gives to the successive requests; [None] when the service has
    not come to a last page within these responses. *)
Fixpoint listAllKeys_pages (pages : list ListPage) (acc : list string * Z) :
    option (list string * Z) :=
  match pages with
  | [] => None
  | resp :: rest =>
      let acc' := foldl listAllKeys_object acc (default [] (Contents resp)) in
      if truthy (next_token resp) then listAllKeys_pages rest acc' else Some acc'
  end.

Definition listAllKeys (pages : list ListPage) : option (list string * Z) :=
  listAllKeys_pages pages ([], 0).

(** The body of the [for] loop of [getPrefixSize]: every entry counts. *)
Definition getPrefixSize_object (acc : Z * Z) (obj : ListedObject) : Z * Z :=
  let '(totalBytes, objectCount) := acc in
  (totalBytes + default 0 (Size obj), objectCount + 1).

Fixpoint getPrefixSize_pages (pages : list ListPage) (acc : Z * Z) : option (Z * Z) :=
  match pages with
  | [] => None
  | resp :: rest =>
      let acc' := foldl getPrefixSize_object acc (default [] (Contents resp)) in
      if truthy (next_token resp) then getPrefixSize_pages rest acc' else Some acc'
  end.

(** The pages that a listing reads: up to the first one without a usable
    continuation token. *)
Fixpoint pages_read (pages : list ListPage) : list ListPage :=
  match pages with
  | [] => []
  | resp :: rest => resp :: (if truthy (next_token resp) then pages_read rest else [])
  end.

Definition objects_read (pages : list ListPage) : list ListedObject :=
  concat ((λ resp, default [] (Contents resp)) <$> pages_read pages).

Definition is_folder_marker (obj : ListedObject) : bool :=
  endsWith (default "" (Key obj)) "/" && (default 0 (Size obj) =? 0).

(** ** getPresignedUrl: the expiry handed to the signer *)

(** A JavaScript number: a rational (every finite double is one), or one of
    the three special values. *)
Inductive JsNumber :=
  | Finite (q : Q)
  | NaN
  | Infinity
  | NegInfinity.

Definition Math_floor (x : JsNumber) : JsNumber :=
  match x with
  | Finite q => Finite (inject_Z (Qfloor q))
  | other => other
  end.

Definition Math_max (x y : JsNumber) : JsNumber :=
  match x, y with
  | NaN, _ | _, NaN => NaN
  | Infinity, _ | _, Infinity => Infinity
  | NegInfinity, other | other, NegInfinity => other
  | Finite a, Finite b => if Qle_bool a b then Finite b else Finite a
  end.

Definition Math_min (x y : JsNumber) : JsNumber :=
  match x, y with
  | NaN, _ | _, NaN => NaN
  | NegInfinity, _ | _, NegInfinity => NegInfinity
  | Infinity, other | other, Infinity => other
  | Finite a, Finite b => if Qle_bool a b then Finite a else Finite b
  end.

(** [expiresIn: number = 3600], then
    [Math.min(Math.max(Math.floor(expiresIn), 60), 43200)]. *)
Definition safeExpiry (expiresIn : option JsNumber) : JsNumber :=
  Math_min (Math_max (Math_floor (default (Finite (inject_Z 3600)) expiresIn))
                     (Finite (inject_Z 60)))
           (Finite (inject_Z 43200)).

(** * The cache of prefix sizes (src/main/aws/metadata-cache.ts) *)

(** [lastCalculated] is an ISO 8601 string with milliseconds;
    [new Date(s).getTime()] gives back the time it was made from, which is
    what the field holds here. *)
Record CachedSizeInfo := mkInfo {
  info_bucket : string;
  info_prefix : string;
  totalBytes : Z;
  objectCount : Z;
  lastCalculated : Z
}.

Definition MAX_AGE_MS : Z := 7 * 24 * 60 * 60 * 1000.

(** The module variable [store] (a [CacheStore], keyed by [cacheKey]) and the
    cache file: [None] when the file does not exist, [Some None] when reading
    or parsing it fails. *)
Record Cache := mkCache {
  store : gmap string CachedSizeInfo;
  cache_file : option (option (gmap string CachedSizeInfo))
}.

Definition cacheKey (bucket prefix : string) : string :=
  bucket +:+ "::" +:+ (if String.eqb prefix "" then "/" else prefix).

(** [now] is what [Date.now()] reads during the call. *)
Definition ensureLoaded (now : Z) (c : Cache) : Cache :=
  if bool_decide (store c = ∅) then
    match cache_file c with
    | None => c
    | Some None => mkCache ∅ (cache_file c)
    | Some (Some parsed) =>
        mkCache (filter (λ kv, now - lastCalculated kv.2 < MAX_AGE_MS) parsed)
                (cache_file c)
    end
  else c.

(** [written] is false when [mkdirSync] or [writeFileSync] throws; the error
    is logged and swallowed. *)
Definition persist (written : bool) (c : Cache) : Cache :=
  if written then mkCache (store c) (Some (Some (store c))) else c.

Definition getCachedSize (bucket prefix : string) (now : Z) (written : bool)
    (c : Cache) : option CachedSizeInfo * Cache :=
  let c1 := ensureLoaded now c in
  let key := cacheKey bucket prefix in
  match store c1 !! key with
  | None => (None, c1)
  | Some entry =>
      if MAX_AGE_MS <? now - lastCalculated entry then
        (None, persist written (mkCache (delete key (store c1)) (cache_file c1)))
      else (Some entry, c1)
  end.

Definition setCachedSize (bucket prefix : string) (totalBytes' objectCount' : Z)
    (now : Z) (written : bool) (c : Cache) : CachedSizeInfo * Cache :=
  let c1 := ensureLoaded now c in
  let info := mkInfo bucket (if String.eqb prefix "" then "/" else prefix)
                     totalBytes' objectCount' now in
  (info,
   persist written
     (mkCache (<[cacheKey bucket prefix := info]> (store c1)) (cache_file c1))).

(** Calls on the cache, in the order in which they happen. *)
Inductive CacheCall :=
  | GetCachedSize (bucket prefix : string) (now : Z) (written : bool)
  | SetCachedSize (bucket prefix : string) (totalBytes' objectCount' : Z)
                  (now : Z) (written : bool).

Definition call_key (call : CacheCall) : string :=
  match call with
  | GetCachedSize bucket prefix _ _ => cacheKey bucket prefix
  | SetCachedSize bucket prefix _ _ _ _ => cacheKey bucket prefix
  end.

Definition cache_call (call : CacheCall) (c : Cache) : Cache :=
  match call with
  | GetCachedSize bucket prefix now written =>
      (getCachedSize bucket prefix now written c).2
  | SetCachedSize bucket prefix totalBytes' objectCount' now written =>
      (setCachedSize bucket prefix totalBytes' objectCount' now written c).2
  end.

Definition cache_calls (calls : list CacheCall) (c : Cache) : Cache :=
  foldl (λ c call, cache_call call c) c calls.

Definition sum_sizes (objs : list ListedObject) : Z :=
  foldr (λ obj total, default 0 (Size obj) + total) 0 objs.

(** The entries that [listAllKeys] reports. *)
Definition is_listed (obj : ListedObject) : bool :=
  truthy (Key obj) && negb (is_folder_marker obj).

(** A listing in three pages; the second page ends with a folder marker. *)
Definition three_pages : list ListPage :=
  [ mkPage (Some [mkObject (Some "in/a.bin") (Some 10);
                  mkObject (Some "in/") (Some 0)])
           (Some true) (Some "token-1");
    mkPage (Some [mkObject (Some "in/b.bin") None;
                  mkObject (Some "in/sub/") None])
           (Some true) (Some "token-2");
    mkPage (Some [mkObject (Some "in/sub/c.bin") (Some 30)])
           (Some false) None ].

(** * Properties *)

(** ** The emitter leaves the rest of the state alone *)

Lemma emitProgress_frame job s :
  settings (emitProgress job s) = settings s ∧
  heap (emitProgress job s) = heap s ∧
  queue (emitProgress job s) = queue s ∧
  activeCount (emitProgress job s) = activeCount s ∧
  abortControllers (emitProgress job s) = abortControllers s ∧
  progressCallback (emitProgress job s) = progressCallback s ∧
  jobIdCounter (emitProgress job s) = jobIdCounter s ∧
  tasks (emitProgress job s) = tasks s ∧
  clock (emitProgress job s) = clock s.
Proof.
  unfold emitProgress. repeat case_match; simpl; auto 10.
Qed.

Lemma emitProgressAt_frame l s :
  settings (emitProgressAt l s) = settings s ∧
  heap (emitProgressAt l s) = heap s ∧
  queue (emitProgressAt l s) = queue s ∧
  activeCount (emitProgressAt l s) = activeCount s ∧
  abortControllers (emitProgressAt l s) = abortControllers s ∧
  progressCallback (emitProgressAt l s) = progressCallback s ∧
  jobIdCounter (emitProgressAt l s) = jobIdCounter s ∧
  tasks (emitProgressAt l s) = tasks s ∧
  clock (emitProgressAt l s) = clock s.
Proof.
  unfold emitProgressAt. destruct (heap s !! l); [apply emitProgress_frame | auto 10].
Qed.

Ltac emit_frame :=
  repeat match goal with
  | |- context [emitProgressAt ?l ?x] =>
      let E := fresh "E" in
      pose proof (emitProgressAt_frame l x) as E;
      destruct E as (?E & ?E & ?E & ?E & ?E & ?E & ?E & ?E & ?E);
      generalize dependent (emitProgressAt l x); intros
  | |- context [emitProgress ?j ?x] =>
      let E := fresh "E" in
      pose proof (emitProgress_frame j x) as E;
      destruct E as (?E & ?E & ?E & ?E & ?E & ?E & ?E & ?E & ?E);
      generalize dependent (emitProgress j x); intros
  end.

(** ** The dispatch loop *)

Lemma find_pending_Some s l :
  find_pending s = Some l → l ∈ queue s ∧ status_at (heap s) l = Some pending.
Proof.
  unfold find_pending. intros H. apply find_some in H as [H1 H2].
  apply bool_decide_eq_true in H2. split; [by apply list_elem_of_In | done].
Qed.

Lemma find_pending_None s l :
  find_pending s = None → l ∈ queue s → status_at (heap s) l ≠ Some pending.
Proof.
  unfold find_pending. intros H Hl.
  apply list_elem_of_In in Hl.
  pose proof (find_none _ _ H _ Hl) as Hn. simpl in Hn.
  by apply bool_decide_eq_false in Hn.
Qed.


Lemma dispatch_one_Some s s' :
  dispatch_one s = Some s' →
  ∃ next, find_pending s = Some next ∧ activeCount s < concurrentThreads (settings s) ∧
    heap s' = alter (promote (clock s)) next (heap s) ∧
    queue s' = queue s ∧ activeCount s' = activeCount s + 1 ∧
    settings s' = settings s ∧ clock s' = clock s ∧
    tasks s' = tasks s ++ [mkTask next Starting 0 false] ∧
    abortControllers s' = abortControllers s ∧
    progressCallback s' = progressCallback s ∧ jobIdCounter s' = jobIdCounter s.
Proof.
  unfold dispatch_one. intros H.
  destruct (activeCount s <? concurrentThreads (settings s)) eqn:Hlt; [|done].
  destruct (find_pending s) as [next|] eqn:Hf; [|done].
  injection H as <-. exists next. split; [done|]. split; [lia|].
  unfold launch. simpl. emit_frame. simpl in *. unfold Date_now in *.
  repeat split; congruence.
Qed.

Lemma dispatch_one_None s :
  dispatch_one s = None →
  concurrentThreads (settings s) ≤ activeCount s ∨ find_pending s = None.
Proof.
  unfold dispatch_one. intros H.
  destruct (activeCount s <? concurrentThreads (settings s)) eqn:Hlt; [|left; lia].
  destruct (find_pending s); [done | by right].
Qed.

Lemma status_at_alter f h l l' :
  status_at (alter f l h) l' =
    if decide (l = l') then status ∘ f <$> h !! l else status_at h l'.
Proof.
  unfold status_at. destruct (decide (l = l')) as [->|Hne].
  - rewrite list_lookup_alter_eq. by destruct (h !! l').
  - by rewrite list_lookup_alter_ne.
Qed.

Lemma dispatch_one_pending s s' :
  dispatch_one s = Some s' →
  (length (pending_jobs s') < length (pending_jobs s))%nat.
Proof.
  intros H. apply dispatch_one_Some in H as (next & Hf & _ & Hh & Hq & _).
  apply find_pending_Some in Hf as [Hin Hst].
  unfold pending_jobs, jobs_in. rewrite Hh, Hq.
  assert (Hnext : ∃ j, heap s !! next = Some j ∧ status j = pending).
  { unfold status_at in Hst. destruct (heap s !! next) as [j|]; [|done].
    exists j. split; [done|]. by injection Hst. }
  destruct Hnext as (j & Hj & Hjs).
  rewrite <- (list_filter_filter_l
    (λ l, status_at (alter (promote (clock s)) next (heap s)) l = Some pending)
    (λ l, status_at (heap s) l = Some pending)).
  2:{ intros l. rewrite status_at_alter. case_decide as Hd; [|done].
      subst l. rewrite Hj. simpl. done. }
  apply length_filter_lt with next.
  - apply list_elem_of_filter. done.
  - rewrite status_at_alter. rewrite decide_True by done. rewrite Hj. simpl. done.
Qed.

Lemma processQueue_loop_exit fuel s :
  (length (pending_jobs s) ≤ fuel)%nat →
  dispatch_one (processQueue_loop fuel s) = None.
Proof.
  revert s. induction fuel as [|fuel IH]; intros s Hlen; simpl.
  - destruct (dispatch_one s) as [s'|] eqn:Hd; [|done].
    apply dispatch_one_pending in Hd. lia.
  - destruct (dispatch_one s) as [s'|] eqn:Hd; [|done].
    apply IH. apply dispatch_one_pending in Hd. lia.
Qed.

Lemma processQueue_loop_more fuel k s :
  (length (pending_jobs s) ≤ fuel)%nat →
  processQueue_loop (fuel + k) s = processQueue_loop fuel s.
Proof.
  revert s. induction fuel as [|fuel IH]; intros s Hlen; simpl.
  - destruct k as [|k]; [done|]. simpl.
    destruct (dispatch_one s) as [s'|] eqn:Hd; [|done].
    apply dispatch_one_pending in Hd. lia.
  - destruct (dispatch_one s) as [s'|] eqn:Hd; [|done].
    apply IH. apply dispatch_one_pending in Hd. lia.
Qed.

Lemma pending_jobs_length s : (length (pending_jobs s) ≤ length (queue s))%nat.
Proof. apply length_filter. Qed.

Theorem processQueue_exit s :
  concurrentThreads (settings (processQueue s)) ≤ activeCount (processQueue s)
  ∨ find_pending (processQueue s) = None.
Proof.
  apply dispatch_one_None, processQueue_loop_exit, pending_jobs_length.
Qed.

Theorem processQueue_fuel s k :
  processQueue_loop (length (queue s) + k) s = processQueue s.
Proof. apply processQueue_loop_more, pending_jobs_length. Qed.

Lemma processQueue_loop_frame fuel s :
  queue (processQueue_loop fuel s) = queue s ∧
  settings (processQueue_loop fuel s) = settings s ∧
  clock (processQueue_loop fuel s) = clock s ∧
  length (heap (processQueue_loop fuel s)) = length (heap s) ∧
  jobIdCounter (processQueue_loop fuel s) = jobIdCounter s ∧
  progressCallback (processQueue_loop fuel s) = progressCallback s ∧
  abortControllers (processQueue_loop fuel s) = abortControllers s.
Proof.
  revert s. induction fuel as [|fuel IH]; intros s; simpl; [done|].
  destruct (dispatch_one s) as [s'|] eqn:Hd; [|done].
  apply dispatch_one_Some in Hd
    as (next & _ & _ & Hh & Hq & _ & Hs & Hc & _ & Ha & Hp & Hj).
  destruct (IH s') as (-> & -> & -> & -> & -> & -> & ->).
  rewrite Hh, length_alter. done.
Qed.

(** The dispatcher touches a job only to promote it from [pending]. *)
Lemma processQueue_loop_job fuel s l j :
  heap s !! l = Some j →
  ∃ j', heap (processQueue_loop fuel s) !! l = Some j' ∧
        (j' = j ∨ (status j = pending ∧ j' = promote (clock s) j)).
Proof.
  revert s j. induction fuel as [|fuel IH]; intros s j Hj; simpl; [eauto|].
  destruct (dispatch_one s) as [s'|] eqn:Hd; [|eauto].
  apply dispatch_one_Some in Hd
    as (next & Hf & _ & Hh & Hq & _ & Hs & Hc & _).
  apply find_pending_Some in Hf as [_ Hst].
  destruct (decide (next = l)) as [->|Hne].
  - destruct (IH s' (promote (clock s) j)) as (j' & Hj' & Hcase).
    { rewrite Hh, list_lookup_alter_eq, Hj. done. }
    exists j'. split; [done|]. right.
    unfold status_at in Hst. rewrite Hj in Hst. simpl in Hst.
    destruct Hcase as [->|[Hp _]]; [split; congruence|].
    simpl in Hp. done.
  - destruct (IH s' j) as (j' & Hj' & Hcase).
    { rewrite Hh, list_lookup_alter_ne by done. done. }
    exists j'. split; [done|]. rewrite Hc in Hcase. done.
Qed.

Lemma processQueue_loop_keeps fuel s l st :
  status_at (heap s) l = Some st → st ≠ pending →
  status_at (heap (processQueue_loop fuel s)) l = Some st.
Proof.
  unfold status_at. intros H Hne.
  destruct (heap s !! l) as [j|] eqn:Hj; [|done]. simpl in H.
  destruct (processQueue_loop_job fuel s l j Hj) as (j' & -> & [->|[Hp _]]); [done|].
  congruence.
Qed.

Lemma find_snoc_last {A} (f : A → bool) (q : list A) (x : A) :
  List.find f (q ++ [x]) = Some x → x ∉ q → ∀ y, y ∈ q → f y = false.
Proof.
  induction q as [|a q IH]; simpl; intros H Hx y Hy; [by apply elem_of_nil in Hy|].
  destruct (f a) eqn:Hfa.
  - injection H as ->. exfalso. apply Hx. left.
  - apply elem_of_cons in Hy as [->|Hy]; [done|].
    apply IH; [done| |done]. intros Hin. apply Hx. by right.
Qed.

Section FilterOne.
Context {A : Type} `{EqDecision A} (P P' : A → Prop)
  `{!∀ x, Decision (P x), !∀ x, Decision (P' x)}.
Variable x : A.
Hypothesis HPP' : ∀ y, P' y ↔ P y ∧ y ≠ x.

Lemma filter_except_absent (q : list A) : x ∉ q → filter P' q = filter P q.
Proof.
  induction q as [|a q IH]; intros Hx; [done|].
  apply not_elem_of_cons in Hx as [Hne Hx].
  destruct (decide (P a)) as [Ha|Ha].
  - rewrite !filter_cons_True; [by rewrite IH | done | apply HPP'; done].
  - rewrite !filter_cons_False; [by rewrite IH | done | rewrite HPP'; tauto].
Qed.

Lemma filter_except_present (q : list A) :
  NoDup q → x ∈ q → P x →
  (length (filter P' q) + 1 = length (filter P q))%nat.
Proof.
  induction q as [|a q IH]; intros Hnd Hx HP; [by apply elem_of_nil in Hx|].
  apply NoDup_cons in Hnd as [Ha Hnd].
  destruct (decide (a = x)) as [->|Hne].
  - rewrite (filter_cons_True P) by done.
    rewrite (filter_cons_False P') by (rewrite HPP'; tauto).
    rewrite filter_except_absent by done. simpl. lia.
  - apply elem_of_cons in Hx as [->|Hx]; [done|].
    destruct (decide (P a)) as [HPa|HPa].
    + rewrite !filter_cons_True; [|done|apply HPP'; done].
      simpl. rewrite <- IH by done. lia.
    + rewrite !filter_cons_False; [|done|rewrite HPP'; tauto].
      by apply IH.
Qed.
End FilterOne.

Lemma dispatch_one_pending_exact s s' :
  NoDup (queue s) →
  dispatch_one s = Some s' →
  (length (pending_jobs s') + 1 = length (pending_jobs s))%nat.
Proof.
  intros Hnd H. apply dispatch_one_Some in H as (next & Hf & _ & Hh & Hq & _).
  apply find_pending_Some in Hf as [Hin Hst].
  unfold pending_jobs, jobs_in. rewrite Hh, Hq.
  apply filter_except_present with next; [|done..].
  intros l. rewrite status_at_alter. case_decide as Hd.
  - subst l. unfold status_at in Hst.
    destruct (heap s !! next); simpl in *; [|done]. split; [done|tauto].
  - split; [intros ?; split; [done|congruence] | tauto].
Qed.

Lemma filter_none {A} (P : A → Prop) `{!∀ x, Decision (P x)} (q : list A) :
  (∀ y, y ∈ q → ¬ P y) → filter P q = [].
Proof.
  induction q as [|a q IH]; intros Hall; [done|].
  rewrite filter_cons_False by (apply Hall; left).
  apply IH. intros y Hy. apply Hall. by right.
Qed.

Lemma last_pending s q0 l :
  queue s = q0 ++ [l] → status_at (heap s) l = Some pending →
  l ∈ pending_jobs s ∧ (1 ≤ length (pending_jobs s))%nat.
Proof.
  intros Hq Hst.
  assert (l ∈ pending_jobs s) as Hin.
  { apply list_elem_of_filter. split; [done|]. rewrite Hq. set_solver. }
  split; [done|].
  destruct (pending_jobs s); [by apply elem_of_nil in Hin | simpl; lia].
Qed.

(** The last entry of the queue, when pending, is promoted by the dispatch
    loop exactly when the free slots cover every pending entry. *)
Lemma processQueue_loop_last fuel s q0 l :
  queue s = q0 ++ [l] → NoDup (queue s) →
  status_at (heap s) l = Some pending →
  (length (pending_jobs s) ≤ fuel)%nat →
  status_at (heap (processQueue_loop fuel s)) l =
    Some (if decide (activeCount s + Z.of_nat (length (pending_jobs s))
                       ≤ concurrentThreads (settings s))
          then active else pending).
Proof.
  revert s. induction fuel as [|fuel IH]; intros s Hq Hnd Hst Hlen;
    destruct (last_pending s q0 l Hq Hst) as [Hin Hpos]; [lia|].
  simpl. destruct (dispatch_one s) as [s'|] eqn:Hd.
  - pose proof (dispatch_one_pending_exact s s' Hnd Hd) as Hcount.
    apply dispatch_one_Some in Hd
      as (next & Hf & Hlt & Hh & Hq' & Hac & Hs & Hc & _).
    destruct (decide (next = l)) as [->|Hne].
    + (* the new entry is the first pending one *)
      assert (pending_jobs s = [l]) as Hp.
      { unfold pending_jobs, jobs_in. rewrite Hq, filter_app.
        rewrite (filter_cons_True _ l []) by done. rewrite filter_nil.
        rewrite filter_none; [done|].
        intros y Hy Hpy. unfold find_pending in Hf. rewrite Hq in Hf.
        rewrite Hq in Hnd. apply NoDup_app in Hnd as (_ & Hdis & _).
        eapply find_snoc_last in Hf; [| |exact Hy].
        - by apply bool_decide_eq_false in Hf.
        - intros Hl. apply (Hdis l Hl). set_solver. }
      rewrite Hp. simpl. rewrite decide_True by lia.
      apply processQueue_loop_keeps; [|done].
      rewrite Hh, status_at_alter, decide_True by done.
      unfold status_at in Hst. destruct (heap s !! l); [done|done].
    + rewrite IH.
      * rewrite Hac, Hs. repeat case_decide; try done; lia.
      * congruence.
      * congruence.
      * rewrite Hh, status_at_alter, decide_False by done. done.
      * lia.
  - apply dispatch_one_None in Hd as [Hfull|Hnone].
    + rewrite decide_False by lia. done.
    + exfalso. eapply find_pending_None; [exact Hnone| |exact Hst].
      rewrite Hq. set_solver.
Qed.

(** ** Every transition moves the job objects along [job_step] *)

Lemma heap_evolves_refl h : heap_evolves h h.
Proof. split; [done|]. intros l j Hj. exists j. split; [done | apply rtc_refl]. Qed.

Lemma heap_evolves_trans h1 h2 h3 :
  heap_evolves h1 h2 → heap_evolves h2 h3 → heap_evolves h1 h3.
Proof.
  intros [Hl1 H1] [Hl2 H2]. split; [congruence|].
  intros l j Hj. destruct (H1 l j Hj) as (j' & Hj' & R1).
  destruct (H2 l j' Hj') as (j'' & Hj'' & R2).
  exists j''. split; [done|]. by etrans.
Qed.

Lemma heap_evolves_alter h l f :
  (∀ j, h !! l = Some j → job_step j (f j)) → heap_evolves h (alter f l h).
Proof.
  intros Hf. split; [by rewrite length_alter|].
  intros l' j Hj. destruct (decide (l = l')) as [->|Hne].
  - exists (f j). rewrite list_lookup_alter_eq, Hj. split; [done|].
    apply rtc_once, Hf, Hj.
  - exists j. rewrite list_lookup_alter_ne by done. split; [done | apply rtc_refl].
Qed.

Lemma evolves_refl s : evolves s s.
Proof. split; [apply heap_evolves_refl | done]. Qed.

Lemma evolves_trans s1 s2 s3 : evolves s1 s2 → evolves s2 s3 → evolves s1 s3.
Proof.
  intros [H1 Q1] [H2 Q2]. split; [by eapply heap_evolves_trans | by etrans].
Qed.

Lemma evolves_same s x x' :
  heap x' = heap x → queue x' = queue x → evolves s x → evolves s x'.
Proof. intros Hh Hq [H1 Q1]. split; [by rewrite Hh | by rewrite Hq]. Qed.

Lemma evolves_frame s s' : heap s' = heap s → queue s' = queue s → evolves s s'.
Proof. intros Hh Hq. apply (evolves_same s s); [done..|apply evolves_refl]. Qed.

Lemma evolves_emitProgressAt s x l : evolves s x → evolves s (emitProgressAt l x).
Proof. apply evolves_same; apply emitProgressAt_frame. Qed.

Lemma evolves_emitProgress s x j : evolves s x → evolves s (emitProgress j x).
Proof. apply evolves_same; apply emitProgress_frame. Qed.

Lemma evolves_update_job s x l f :
  (∀ j, heap x !! l = Some j → job_step j (f j)) →
  evolves s x → evolves s (update_job l f x).
Proof.
  intros Hf Hx. eapply evolves_trans; [exact Hx|].
  split; [by apply heap_evolves_alter | done].
Qed.

Lemma evolves_abort_controller s x i : evolves s x → evolves s (abort_controller i x).
Proof.
  unfold abort_controller. destruct (abortControllers x !! i); [|done].
  by apply evolves_same.
Qed.

Lemma evolves_dispatch_one s x x' :
  dispatch_one x = Some x' → evolves s x → evolves s x'.
Proof.
  intros Hd Hx. eapply evolves_trans; [exact Hx|].
  apply dispatch_one_Some in Hd as (next & Hf & _ & Hh & Hq & _).
  apply find_pending_Some in Hf as [_ Hst].
  split; [|by rewrite Hq]. rewrite Hh. apply heap_evolves_alter.
  intros j Hj. apply js_promote.
  unfold status_at in Hst. rewrite Hj in Hst. by injection Hst.
Qed.

Lemma evolves_processQueue_loop fuel s x :
  evolves s x → evolves s (processQueue_loop fuel x).
Proof.
  revert x. induction fuel as [|fuel IH]; intros x Hx; simpl; [done|].
  destruct (dispatch_one x) as [x'|] eqn:Hd; [|done].
  apply IH. by eapply evolves_dispatch_one.
Qed.

Lemma evolves_processQueue s x : evolves s x → evolves s (processQueue x).
Proof. apply evolves_processQueue_loop. Qed.

Lemma prune_scan_sublist h n q : sublist (prune_scan h n q) q.
Proof.
  revert n. induction q as [|l q IH]; intros [|n]; simpl; try done.
  destruct (terminal_at h l); [by apply sublist_cons | by apply sublist_skip].
Qed.

Lemma evolves_pruneQueue s x : evolves s x → evolves s (pruneQueue x).
Proof.
  intros Hx. eapply evolves_trans; [exact Hx|].
  unfold pruneQueue. case_match; [|apply evolves_refl].
  split; [apply heap_evolves_refl | apply prune_scan_sublist].
Qed.

Lemma evolves_clearCompleted s : evolves s (clearCompleted s).
Proof. split; [apply heap_evolves_refl | apply sublist_filter]. Qed.

Lemma status_at_Some h l st :
  status_at h l = Some st ↔ ∃ j, h !! l = Some j ∧ status j = st.
Proof.
  unfold status_at. destruct (h !! l) as [j|]; simpl; split.
  - intros [= <-]. eauto.
  - intros (j' & [= <-] & <-). done.
  - done.
  - intros (j' & ? & _). done.
Qed.

Lemma evolves_cancelTransfer s i : evolves s (cancelTransfer i s).
Proof.
  unfold cancelTransfer. destruct (find_job s i) as [l|]; [|apply evolves_refl].
  apply evolves_emitProgressAt, evolves_abort_controller, evolves_update_job;
    [|apply evolves_refl].
  intros j _. apply js_cancel.
Qed.

Lemma evolves_pauseTransfer s i : evolves s (pauseTransfer i s).
Proof.
  unfold pauseTransfer. destruct (find_job s i) as [l|]; [|apply evolves_refl].
  case_bool_decide as Hst; [|apply evolves_refl].
  apply evolves_emitProgressAt.
  match goal with |- evolves _ (set_activeCount _ ?x) =>
    apply (evolves_same s x); [done..|] end.
  apply evolves_abort_controller, evolves_update_job; [|apply evolves_refl].
  intros j Hj. apply js_pause.
  apply status_at_Some in Hst as (j' & Hj' & <-). congruence.
Qed.

Lemma evolves_resumeTransfer s i : evolves s (resumeTransfer i s).
Proof.
  unfold resumeTransfer. destruct (find_job s i) as [l|]; [|apply evolves_refl].
  case_bool_decide as Hst; [|apply evolves_refl].
  apply evolves_processQueue, evolves_emitProgressAt, evolves_update_job;
    [|apply evolves_refl].
  intros j Hj. apply js_resume.
  apply status_at_Some in Hst as (j' & Hj' & <-). congruence.
Qed.

Lemma message_or_nonempty m dflt : dflt ≠ "" → message_or m dflt ≠ "".
Proof.
  intros Hd. unfold message_or. destruct m as [m|]; [|done].
  destruct (String.eqb m "") eqn:Hm; [done|]. by apply String.eqb_neq in Hm.
Qed.

Lemma evolves_exec_catch s x dflt m l :
  dflt ≠ "" → evolves s x → evolves s (exec_catch dflt m l x).
Proof.
  intros Hd Hx. unfold exec_catch. case_bool_decide as Hst; [done|].
  apply evolves_emitProgressAt, evolves_update_job; [|done].
  intros j Hj. apply js_fail; [|by apply message_or_nonempty].
  intros Hc. apply Hst, status_at_Some. eauto.
Qed.

Lemma evolves_exec_finally s x t job : evolves s x → evolves s (exec_finally t job x).
Proof. by apply evolves_same. Qed.

(** Opens the common prefix of the executor transitions: the task, the job
    object it holds and the phase test. *)
Ltac exec_open H tk job Htk Hjob Hph :=
  match type of H with
  | context [tasks ?s !! ?t] =>
      destruct (tasks s !! t) as [tk|] eqn:Htk; simpl in H; [|discriminate H];
      try (destruct (heap s !! tjob tk) as [job|] eqn:Hjob; simpl in H;
           [|discriminate H]);
      case_bool_decide as Hph; [|discriminate H]
  end.

Lemma default_message_nonempty d : default_message d ≠ "".
Proof. by destruct d. Qed.

Lemma evolves_exec_registered t s s' : exec_registered t s = Some s' → evolves s s'.
Proof.
  unfold exec_registered. intros H. exec_open H tk job Htk Hjob Hph.
  injection H as <-. by apply evolves_frame.
Qed.

Lemma evolves_exec_responded t b s s' : exec_responded t b s = Some s' → evolves s s'.
Proof.
  unfold exec_responded. intros H. exec_open H tk job Htk Hjob Hph.
  destruct b; injection H as <-.
  - by apply evolves_frame.
  - apply evolves_exec_finally, evolves_exec_catch; [done | apply evolves_refl].
Qed.

Lemma evolves_exec_progress t n s s' : exec_progress t n s = Some s' → evolves s s'.
Proof.
  unfold exec_progress. intros H. exec_open H tk job Htk Hjob Hph.
  case_bool_decide as Hc; injection H as <-; [apply evolves_refl|].
  apply evolves_emitProgressAt, evolves_update_job; [|apply evolves_refl].
  intros j Hj. apply js_progress. congruence.
Qed.

Lemma evolves_exec_data t n s s' : exec_data t n s = Some s' → evolves s s'.
Proof.
  unfold exec_data. intros H. exec_open H tk job Htk Hjob Hph.
  case_bool_decide as Hc; injection H as <-; [apply evolves_refl|].
  apply evolves_emitProgressAt, evolves_update_job.
  - intros j Hj. apply js_progress. simpl in Hj. congruence.
  - by apply evolves_frame.
Qed.

Lemma evolves_exec_done t s s' : exec_done t s = Some s' → evolves s s'.
Proof.
  unfold exec_done. intros H. exec_open H tk job Htk Hjob Hph.
  injection H as <-. apply evolves_exec_finally.
  case_bool_decide as Hc; [apply evolves_refl|].
  apply evolves_emitProgressAt, evolves_update_job; [|apply evolves_refl].
  intros j Hj. assert (j = job) as -> by congruence.
  destruct (direction job) eqn:Hd.
  - by apply js_complete_upload.
  - by apply js_complete_download.
Qed.

Lemma evolves_exec_failed t m s s' : exec_failed t m s = Some s' → evolves s s'.
Proof.
  unfold exec_failed. intros H. exec_open H tk job Htk Hjob Hph.
  injection H as <-. apply evolves_exec_finally, evolves_exec_catch;
    [apply default_message_nonempty | apply evolves_refl].
Qed.

Lemma evolves_exec_completion t s s' : exec_completion t s = Some s' → evolves s s'.
Proof.
  unfold exec_completion. intros H. exec_open H tk job Htk Hjob Hph.
  injection H as <-. apply evolves_processQueue, evolves_pruneQueue.
  by apply evolves_frame.
Qed.

(** Enqueueing adds one fresh object at the end of the store and of the
    queue, then lets the dispatcher run. *)
Lemma enqueue_evolves job s :
  evolves (set_queue (queue s ++ [length (heap s)]) (set_heap (heap s ++ [job]) s))
          (enqueue job s).2.
Proof.
  unfold enqueue. simpl. apply evolves_processQueue, evolves_emitProgress, evolves_refl.
Qed.

Lemma enqueue_queue job s :
  (enqueue job s).1 = length (heap s) ∧
  queue (enqueue job s).2 = queue s ++ [length (heap s)] ∧
  length (heap (enqueue job s).2) = S (length (heap s)).
Proof.
  unfold enqueue, processQueue. simpl.
  match goal with |- context [processQueue_loop ?n ?x] =>
    destruct (processQueue_loop_frame n x) as (-> & _ & _ & -> & _) end.
  emit_frame. rewrite E0, E1. simpl. rewrite length_app. simpl.
  split; [done|]. split; [done | lia].
Qed.

(** ** Invariants of the reachable states *)

Section Reachable.

Variable basename : string → string.

(** What a transition does to the store and to the queue: at most one fresh
    object is appended to both, every object moves along [job_step], and the
    queue may lose entries. *)
Lemma step_evolves e s s' :
  step basename e s = Some s' →
  ∃ new, Forall fresh_job new ∧ (length new ≤ 1)%nat ∧
    heap_evolves (heap s ++ new) (heap s') ∧
    sublist (queue s') (queue s ++ seq (length (heap s)) (length new)).
Proof.
  intros H.
  assert (evolves s s' → ∃ new, Forall fresh_job new ∧ (length new ≤ 1)%nat ∧
    heap_evolves (heap s ++ new) (heap s') ∧
    sublist (queue s') (queue s ++ seq (length (heap s)) (length new))) as Hold.
  { intros [Hh Hq]. exists []. simpl. rewrite !app_nil_r. auto. }
  destruct e as [p b x stat | b k p n | i | i | i | | | d | t | t hb | t n
                 | t n | t | t m | t | ps]; cbn [step] in H.
  1,2: assert (∀ job, s' = (enqueue job (generateId s).2).2 → fresh_job job →
         ∃ new, Forall fresh_job new ∧ (length new ≤ 1)%nat ∧
           heap_evolves (heap s ++ new) (heap s') ∧
           sublist (queue s') (queue s ++ seq (length (heap s)) (length new)))
         as Hnew
         by (intros job -> Hjob; exists [job]; split; [by constructor|];
             split; [done|]; apply (enqueue_evolves job (generateId s).2)).
  1,2: injection H as H; symmetry in H; eapply Hnew; [exact H|];
       repeat split.
  all: try (injection H as <-).
  - apply Hold, evolves_cancelTransfer.
  - apply Hold, evolves_pauseTransfer.
  - apply Hold, evolves_resumeTransfer.
  - apply Hold, evolves_clearCompleted.
  - by apply Hold, evolves_frame.
  - by apply Hold, evolves_frame.
  - apply Hold. eapply evolves_exec_registered, H.
  - apply Hold. eapply evolves_exec_responded, H.
  - apply Hold. eapply evolves_exec_progress, H.
  - apply Hold. eapply evolves_exec_data, H.
  - apply Hold. eapply evolves_exec_done, H.
  - apply Hold. eapply evolves_exec_failed, H.
  - apply Hold. eapply evolves_exec_completion, H.
  - by apply Hold, evolves_frame.
Qed.

Lemma run_invariant (I : Engine → Prop) :
  (∀ e s s', I s → step basename e s = Some s' → I s') →
  ∀ es s s', I s → run basename es s = Some s' → I s'.
Proof.
  intros Hstep es. induction es as [|e es IH]; intros s s' Hs Hrun; simpl in Hrun.
  - by injection Hrun as <-.
  - destruct (step basename e s) as [s1|] eqn:He; simpl in Hrun; [|done].
    eapply IH; [|exact Hrun]. by eapply Hstep.
Qed.

Lemma reachable_invariant (I : Engine → Prop) st :
  I (init st) →
  (∀ e s s', I s → step basename e s = Some s' → I s') →
  ∀ s, reachable basename st s → I s.
Proof. intros Hi Hstep s [es Hes]. by eapply run_invariant. Qed.

Lemma step_queue_wf e s s' :
  queue_wf s → step basename e s = Some s' → queue_wf s'.
Proof.
  intros [Hnd Hlt] H.
  apply step_evolves in H as (new & _ & Hlen & [Hl _] & Hsub).
  rewrite length_app in Hl.
  assert (NoDup (queue s ++ seq (length (heap s)) (length new))) as Hnd'.
  { apply NoDup_app. split; [done|]. split; [|apply NoDup_seq].
    intros l Hin Hin'. apply Hlt in Hin. apply elem_of_seq in Hin'. lia. }
  split.
  - by eapply sublist_NoDup.
  - intros l Hin. eapply elem_of_sublist in Hin; [|exact Hsub].
    apply elem_of_app in Hin as [Hin|Hin].
    + apply Hlt in Hin. lia.
    + apply elem_of_seq in Hin. lia.
Qed.

Lemma reachable_queue_wf st s : reachable basename st s → queue_wf s.
Proof.
  apply (reachable_invariant queue_wf).
  - split; [constructor | intros l Hl; by apply elem_of_nil in Hl].
  - intros e x x'. apply step_queue_wf.
Qed.

(** A property of job objects that holds of fresh jobs and survives every
    assignment holds of every object of every reachable state. *)
Lemma reachable_jobs (P : TransferJob → Prop) st s :
  (∀ j, fresh_job j → P j) →
  (∀ j j', P j → job_step j j' → P j') →
  reachable basename st s → Forall P (heap s).
Proof.
  intros Hfresh Hstep.
  apply (reachable_invariant (λ x, Forall P (heap x))); [constructor|].
  intros e x x' Hx H.
  apply step_evolves in H as (new & Hnew & _ & [Hl Hev] & _).
  apply Forall_lookup. intros l j' Hj'.
  assert (is_Some ((heap x ++ new) !! l)) as [j Hj].
  { apply lookup_lt_is_Some. rewrite Hl. by eapply lookup_lt_Some. }
  destruct (Hev l j Hj) as (j2 & Hj2 & Hrtc).
  assert (j2 = j') as -> by congruence.
  assert (P j) as HPj.
  { apply lookup_app_Some in Hj as [Hj|[_ Hj]].
    - by eapply Forall_lookup_1 in Hx.
    - apply Hfresh. by eapply Forall_lookup_1 in Hnew. }
  clear -Hstep HPj Hrtc. induction Hrtc; eauto.
Qed.

End Reachable.

(** ** Enqueueing *)

Lemma filter_ext_elem {A} (P Q : A → Prop) `{!∀ x, Decision (P x), !∀ x, Decision (Q x)}
    (q : list A) :
  (∀ y, y ∈ q → P y ↔ Q y) → filter P q = filter Q q.
Proof.
  induction q as [|a q IH]; intros Hall; [done|].
  assert (filter P q = filter Q q) as Hq by (apply IH; intros y Hy; apply Hall; by right).
  destruct (decide (P a)) as [Ha|Ha].
  - rewrite !filter_cons_True; [by rewrite Hq | by apply Hall; [left|] | done].
  - rewrite !filter_cons_False; [done | rewrite <- Hall; [done | left] | done].
Qed.

(** What the caller of [enqueue] gets back: the object it created, possibly
    promoted by the dispatcher in the same call. *)
Lemma enqueue_job job s :
  ∃ j, heap (enqueue job s).2 !! (enqueue job s).1 = Some j ∧
       (j = job ∨ (status job = pending ∧ j = promote (clock s) job)).
Proof.
  unfold enqueue, processQueue. cbn [fst snd].
  match goal with |- context [processQueue_loop ?n ?x] =>
    pose proof (processQueue_loop_job n x (length (heap s)) job) as Hloop end.
  emit_frame.
  destruct Hloop as (j & Hj & Hcase).
  - rewrite E0. simpl. by apply list_lookup_middle.
  - exists j. split; [done|]. rewrite E7 in Hcase. done.
Qed.

Lemma enqueue_pending_jobs job s :
  queue_wf s → status job = pending →
  pending_jobs (emitProgress job
    (set_queue (queue s ++ [length (heap s)]) (set_heap (heap s ++ [job]) s)))
  = pending_jobs s ++ [length (heap s)].
Proof.
  intros [Hnd Hlt] Hst. unfold pending_jobs, jobs_in. emit_frame.
  rewrite E0, E1. simpl. rewrite filter_app. f_equal.
  - apply filter_ext_elem. intros l Hl. unfold status_at.
    by rewrite lookup_app_l by (by apply Hlt).
  - rewrite filter_cons_True; [done|].
    unfold status_at. rewrite list_lookup_middle by done. simpl. by rewrite Hst.
Qed.

(** The status of the new job when [enqueue] returns. *)
Lemma enqueue_dispatch job s :
  queue_wf s → status job = pending →
  status_at (heap (enqueue job s).2) (enqueue job s).1 =
    Some (if decide (activeCount s + Z.of_nat (length (pending_jobs s))
                       < concurrentThreads (settings s))
          then active else pending).
Proof.
  intros Hwf Hst. pose proof (enqueue_pending_jobs job s Hwf Hst) as Hp.
  destruct Hwf as [Hnd Hlt].
  unfold enqueue, processQueue. cbn [fst snd].
  emit_frame.
  rewrite (processQueue_loop_last _ e (queue s) (length (heap s))).
  - rewrite Hp, length_app, E, E2. simpl.
    repeat case_decide; try done; lia.
  - by rewrite E1.
  - rewrite E1. simpl. apply NoDup_app. split; [done|].
    split; [|apply NoDup_singleton].
    intros l Hl Hl'. apply Hlt in Hl. apply list_elem_of_singleton in Hl'. lia.
  - rewrite E0. simpl. unfold status_at.
    rewrite list_lookup_middle by done. simpl. by rewrite Hst.
  - apply pending_jobs_length.
Qed.

(** ** Control operations *)

Lemma abort_controller_frame i s :
  heap (abort_controller i s) = heap s ∧ queue (abort_controller i s) = queue s ∧
  activeCount (abort_controller i s) = activeCount s ∧
  settings (abort_controller i s) = settings s.
Proof. unfold abort_controller. by destruct (abortControllers s !! i). Qed.

(** Pausing an active job: the job becomes [paused] and the active counter
    drops by one. *)
Lemma pauseTransfer_active i s l :
  find_job s i = Some l → has_status s l active →
  has_status (pauseTransfer i s) l paused ∧
  activeCount (pauseTransfer i s) = activeCount s - 1.
Proof.
  unfold has_status, pauseTransfer. intros -> Hst.
  rewrite bool_decide_eq_true_2 by done.
  emit_frame. simpl in *.
  match goal with H : heap e = heap (abort_controller ?i ?x) |- _ =>
    destruct (abort_controller_frame i x) as (Hh & _ & Ha & _) end.
  split.
  - rewrite E0, Hh. simpl. rewrite status_at_alter, decide_True by done.
    apply status_at_Some in Hst as (j & -> & _). done.
  - rewrite E2, Ha. done.
Qed.

(** Resuming a paused job: it re-enters the pending pool with [transferred]
    reset to zero; if the dispatcher promotes it in the same call it is
    [active], still with [transferred = 0]. *)
Lemma resumeTransfer_paused i s l :
  find_job s i = Some l → has_status s l paused →
  ∃ j, heap (resumeTransfer i s) !! l = Some j ∧ transferred j = 0 ∧
       (status j = pending ∨ status j = active).
Proof.
  unfold has_status, resumeTransfer. intros -> Hst.
  rewrite bool_decide_eq_true_2 by done.
  apply status_at_Some in Hst as (j0 & Hj0 & _).
  unfold processQueue.
  match goal with |- context [processQueue_loop ?n ?x] =>
    destruct (processQueue_loop_job n x l
                (with_transferred 0 (with_status pending j0))) as (j & Hj & Hcase) end.
  - emit_frame. rewrite E0. simpl. by rewrite list_lookup_alter_eq, Hj0.
  - exists j. split; [done|]. destruct Hcase as [->|[_ ->]]; simpl; auto.
Qed.




(** [cancelTransfer] has no guard on the status: whatever the job was, it is
    [cancelled] afterwards. *)
Lemma cancelTransfer_found i s l :
  find_job s i = Some l → is_Some (heap s !! l) →
  has_status (cancelTransfer i s) l cancelled.
Proof.
  unfold has_status, cancelTransfer. intros -> [j Hj].
  emit_frame.
  match goal with H : heap e = heap (abort_controller ?i ?x) |- _ =>
    destruct (abort_controller_frame i x) as (Hh & _) end.
  rewrite E0, Hh. simpl. by rewrite status_at_alter, decide_True, Hj by done.
Qed.

(** ** Executors *)

(** The upload executor finishing normally on a job that is not cancelled. *)
Lemma exec_done_upload t s s' tk job :
  exec_done t s = Some s' →
  tasks s !! t = Some tk → heap s !! tjob tk = Some job →
  direction job = upload → status job ≠ cancelled →
  ∃ j, heap s' !! tjob tk = Some j ∧ status j = completed ∧
       transferred j = fileSize j ∧ completedAt j = Some (clock s).
Proof.
  unfold exec_done. intros H Htk Hjob Hd Hc. rewrite Htk in H. simpl in H.
  rewrite Hjob in H. simpl in H. case_bool_decide; [|done].
  rewrite bool_decide_eq_false_2 in H by done. rewrite Hd in H.
  injection H as <-. unfold exec_finally. simpl. emit_frame.
  rewrite E0. simpl. rewrite list_lookup_alter_eq, Hjob. simpl. eauto.
Qed.

(** The download executor finishing normally: [completedAt] is stamped, the
    byte count is left as the stream handler last wrote it. *)
Lemma exec_done_download t s s' tk job :
  exec_done t s = Some s' →
  tasks s !! t = Some tk → heap s !! tjob tk = Some job →
  direction job = download → status job ≠ cancelled →
  ∃ j, heap s' !! tjob tk = Some j ∧ status j = completed ∧
       transferred j = transferred job ∧ completedAt j = Some (clock s).
Proof.
  unfold exec_done. intros H Htk Hjob Hd Hc. rewrite Htk in H. simpl in H.
  rewrite Hjob in H. simpl in H. case_bool_decide; [|done].
  rewrite bool_decide_eq_false_2 in H by done. rewrite Hd in H.
  injection H as <-. unfold exec_finally. simpl. emit_frame.
  rewrite E0. simpl. rewrite list_lookup_alter_eq, Hjob. simpl. eauto.
Qed.

(** An error that surfaces after a pause marks the job [failed]: the [catch]
    block only spares cancelled jobs. *)
Lemma exec_failed_paused t m s s' tk :
  exec_failed t m s = Some s' →
  tasks s !! t = Some tk → has_status s (tjob tk) paused →
  has_status s' (tjob tk) failed.
Proof.
  unfold exec_failed, has_status. intros H Htk Hst. rewrite Htk in H. simpl in H.
  apply status_at_Some in Hst as (job & Hjob & Hp). rewrite Hjob in H. simpl in H.
  case_bool_decide; [|done]. injection H as <-.
  unfold exec_finally, exec_catch. simpl.
  rewrite bool_decide_eq_false_2.
  2:{ unfold status_at. rewrite Hjob. simpl. congruence. }
  emit_frame. rewrite E0. simpl.
  by rewrite status_at_alter, decide_True, Hjob by done.
Qed.

(** ** Errors *)

Section Errors.

Variable basename : string → string.

(** In every reachable state a failed job carries a non-empty error. *)
Lemma reachable_failed_has_error st s :
  reachable basename st s →
  Forall (λ j, status j = failed → ∃ m, error j = Some m ∧ m ≠ "") (heap s).
Proof.
  apply reachable_jobs.
  - intros j (Hst & _). congruence.
  - intros j j' HP Hstep. destruct Hstep; simpl; try done; eauto.
    all: intros Hf; try congruence.
    all: try (destruct (HP Hf) as (m' & ? & ?); eauto).
Qed.

(** In every reachable state a job without error is not failed; the error of
    a job is never cleared again. *)
Lemma job_step_error j j' m :
  job_step j j' → error j = Some m → ∃ m', error j' = Some m'.
Proof. intros Hstep He. destruct Hstep; simpl; eauto. Qed.

(** [cancelled] is absorbing. *)
Lemma job_step_cancelled j j' :
  job_step j j' → status j = cancelled → status j' = cancelled.
Proof. intros Hstep Hc. destruct Hstep; simpl; congruence. Qed.

End Errors.

(** ** History pruning *)

Lemma prune_scan_terminal h n q :
  filter (λ l, terminal_at h l) (prune_scan h n q)
  = drop n (filter (λ l, terminal_at h l) q).
Proof.
  revert n. induction q as [|l q IH]; intros [|n]; cbn [prune_scan]; try done.
  destruct (terminal_at h l) eqn:Ht.
  - rewrite (filter_cons_True _ l q) by (rewrite Ht; exact I). cbn [drop]. apply IH.
  - rewrite !filter_cons_False by (rewrite Ht; simpl; tauto). apply (IH (S n)).
Qed.

Lemma prune_scan_nonterminal h n q :
  filter (λ l, ¬ terminal_at h l) (prune_scan h n q)
  = filter (λ l, ¬ terminal_at h l) q.
Proof.
  revert n. induction q as [|l q IH]; intros [|n]; cbn [prune_scan]; try done.
  destruct (terminal_at h l) eqn:Ht.
  - rewrite (filter_cons_False _ l q) by (rewrite Ht; simpl; tauto). apply IH.
  - rewrite !filter_cons_True by (rewrite Ht; simpl; tauto). f_equal. apply (IH (S n)).
Qed.


(** When pruning runs, the terminal jobs that remain are the youngest 200
    (by queue position): the oldest ones are evicted first. *)
Lemma pruneQueue_oldest_first s :
  terminal_jobs (pruneQueue s)
  = drop (length (terminal_jobs s) - MAX_HISTORY_SIZE) (terminal_jobs s).
Proof.
  unfold pruneQueue. destruct (Nat.ltb_spec MAX_HISTORY_SIZE (length (terminal_jobs s)))
    as [Hlt|Hge].
  - unfold terminal_jobs. simpl. apply prune_scan_terminal.
  - replace (length (terminal_jobs s) - MAX_HISTORY_SIZE)%nat with 0%nat by lia. done.
Qed.

(** After a pruning pass at most 200 terminal jobs are queued. *)
Lemma pruneQueue_bound s :
  (length (terminal_jobs (pruneQueue s)) ≤ MAX_HISTORY_SIZE)%nat.
Proof. rewrite pruneQueue_oldest_first, length_drop. lia. Qed.


(** The dispatcher neither creates nor removes terminal jobs. *)
Lemma processQueue_loop_terminal fuel x l :
  terminal_at (heap (processQueue_loop fuel x)) l = terminal_at (heap x) l.
Proof.
  unfold terminal_at, status_at.
  destruct (heap x !! l) as [j|] eqn:Hj.
  - destruct (processQueue_loop_job fuel x l j Hj) as (j' & -> & [->|[Hp ->]]);
      [done|]. simpl. by rewrite Hp.
  - destruct (processQueue_loop_frame fuel x) as (_ & _ & _ & Hlen & _).
    apply lookup_ge_None in Hj. rewrite <- Hlen in Hj.
    apply lookup_ge_None in Hj. by rewrite Hj.
Qed.

(** When the [.finally] callback of an executor has run, at most 200
    terminal jobs are queued. *)
Lemma exec_completion_bound t s s' :
  exec_completion t s = Some s' →
  (length (terminal_jobs s') ≤ MAX_HISTORY_SIZE)%nat.
Proof.
  unfold exec_completion. intros H. exec_open H tk job Htk Hjob Hph.
  injection H as <-.
  match goal with |- context [processQueue ?y] =>
    replace (terminal_jobs (processQueue y)) with (terminal_jobs y);
    [apply pruneQueue_bound|] end.
  unfold terminal_jobs, processQueue.
  match goal with |- context [processQueue_loop ?n ?y] =>
    destruct (processQueue_loop_frame n y) as (-> & _) end.
  apply list_filter_iff. intros l. by rewrite processQueue_loop_terminal.
Qed.

(** ** The emitter *)

(** A terminal snapshot is always delivered, and the time of the delivery is
    recorded under the job id: [lastEmitTime.delete] is followed by
    [lastEmitTime.set]. *)
Lemma emitProgress_terminal job s :
  progressCallback s = true → isTerminal (status job) = true →
  delivered (emitProgress job s) = delivered s ++ [(clock s, job)] ∧
  lastEmitTime (emitProgress job s) !! id job = Some (clock s).
Proof.
  intros Hcb Ht. unfold emitProgress. rewrite Hcb, Ht. simpl.
  split; [done|]. apply lookup_insert_eq.
Qed.

(** A non-terminal snapshot is delivered only if 100 ms have passed since the
    recorded time for the id. *)
Lemma emitProgress_throttled job s :
  isTerminal (status job) = false →
  clock s - default 0 (lastEmitTime s !! id job) < 100 →
  emitProgress job s = s.
Proof.
  intros Ht Hlt. unfold emitProgress. rewrite Ht. simpl.
  destruct (progressCallback s); simpl; [|done].
  unfold Date_now. by rewrite (proj2 (Z.ltb_lt _ _) Hlt).
Qed.

Lemma emit_inv_emitProgress job s : emit_inv s → emit_inv (emitProgress job s).
Proof.
  intros (Hrate & Hlast & Hclock). unfold emitProgress.
  destruct (progressCallback s); simpl; [|done].
  assert (∀ tbl, (tbl !! id job = lastEmitTime s !! id job ∨ tbl !! id job = None) →
            (∀ i, i ≠ id job → tbl !! i = lastEmitTime s !! i) →
            (isTerminal (status job) = false →
               100 ≤ clock s - default 0 (lastEmitTime s !! id job)) →
            emit_inv (set_emit (<[id job := clock s]> tbl)
                               (delivered s ++ [(clock s, job)]) s)) as Hadd.
  { intros tbl _ Hother Hgap. split; [|split]; simpl.
    - intros i k t1 t2 a b Hik Hi Hk Hid Ha Hb.
      apply lookup_app_Some in Hk as [Hk|[Hlen Hk]].
      + apply lookup_lt_Some in Hk as Hklt.
        rewrite lookup_app_l in Hi by lia.
        exact (Hrate i k t1 t2 a b Hik Hi Hk Hid Ha Hb).
      + apply list_lookup_singleton_Some in Hk as [Hk0 Hk].
        injection Hk as <- <-. rewrite lookup_app_l in Hi by lia.
        apply list_elem_of_lookup_2 in Hi.
        destruct (Hlast _ _ Hi) as (last & Hl & Hle).
        specialize (Hgap Hb). rewrite <- Hid, Hl in Hgap. simpl in Hgap. lia.
    - intros t a Hin. apply elem_of_app in Hin as [Hin|Hin].
      + destruct (Hlast _ _ Hin) as (last & Hl & Hle).
        destruct (decide (id a = id job)) as [Heq|Hne].
        * rewrite Heq, lookup_insert_eq. eexists. split; [done|].
          rewrite Heq in Hl. apply Hclock in Hl. lia.
        * rewrite lookup_insert_ne by done. rewrite Hother by done. eauto.
      + apply list_elem_of_singleton in Hin. injection Hin as -> ->.
        rewrite lookup_insert_eq. eexists. split; [done | lia].
    - intros i last Hi. destruct (decide (i = id job)) as [->|Hne].
      + rewrite lookup_insert_eq in Hi. injection Hi as <-. lia.
      + rewrite lookup_insert_ne in Hi by done. rewrite Hother in Hi by done.
        by eapply Hclock. }
  unfold Date_now. destruct (isTerminal (status job)) eqn:Ht; simpl.
  - apply Hadd; [right; apply lookup_delete_eq | | done].
    intros i Hne. by apply lookup_delete_ne.
  - destruct (Z.ltb_spec (clock s - default 0 (lastEmitTime s !! id job)) 100).
    + done.
    + apply Hadd; auto.
Qed.

(** A predicate on what the emitter works on: it survives every transition
    as soon as it survives a call of [emitProgress], a subscription and the
    passing of time. *)
Section EmitterInvariant.

Variable I : Engine → Prop.
Hypothesis I_view : ∀ x x', emit_view x' = emit_view x → I x → I x'.
Hypothesis I_emit : ∀ j x, I x → I (emitProgress j x).
Hypothesis I_subscribe : ∀ x, I x → I (setProgressCallback x).
Hypothesis I_tick : ∀ d x, I x → I (set_clock (clock x + Z.of_N d) x).

Ltac view_peel :=
  match goal with
  | |- I (update_job _ _ ?x) => apply (I_view x); [reflexivity|]
  | |- I (update_task _ _ ?x) => apply (I_view x); [reflexivity|]
  | |- I (set_activeCount _ ?x) => apply (I_view x); [reflexivity|]
  | |- I (set_abortControllers _ ?x) => apply (I_view x); [reflexivity|]
  | |- I (set_queue _ ?x) => apply (I_view x); [reflexivity|]
  | |- I (set_heap _ ?x) => apply (I_view x); [reflexivity|]
  | |- I (set_tasks _ ?x) => apply (I_view x); [reflexivity|]
  | |- I (set_jobIdCounter _ ?x) => apply (I_view x); [reflexivity|]
  | |- I (launch _ ?x) => apply (I_view x); [reflexivity|]
  | |- I (exec_finally _ _ ?x) => apply (I_view x); [reflexivity|]
  | |- I (emitProgress _ _) => apply I_emit
  end.

Lemma I_emitProgressAt l x : I x → I (emitProgressAt l x).
Proof. unfold emitProgressAt. destruct (heap x !! l); [apply I_emit | done]. Qed.

Lemma I_abort_controller i x : I x → I (abort_controller i x).
Proof.
  unfold abort_controller. destruct (abortControllers x !! i); [|done].
  intros Hx. by repeat view_peel.
Qed.

Lemma I_processQueue_loop fuel x : I x → I (processQueue_loop fuel x).
Proof.
  revert x. induction fuel as [|fuel IH]; intros x Hx; simpl; [done|].
  destruct (dispatch_one x) as [x'|] eqn:Hd; [|done].
  apply IH. unfold dispatch_one in Hd. repeat case_match; try done.
  injection Hd as <-. view_peel. apply I_emitProgressAt. by repeat view_peel.
Qed.

Lemma I_pruneQueue x : I x → I (pruneQueue x).
Proof. unfold pruneQueue. case_match; [|done]. intros Hx. by view_peel. Qed.

Lemma I_exec_catch dflt m l x : I x → I (exec_catch dflt m l x).
Proof.
  unfold exec_catch. case_bool_decide; [done|]. intros Hx.
  apply I_emitProgressAt. by view_peel.
Qed.

Lemma I_enqueue job x : I x → I (enqueue job x).2.
Proof.
  intros Hx. unfold enqueue. cbn [snd]. apply I_processQueue_loop.
  by repeat view_peel.
Qed.

Lemma step_emitter_invariant basename e s s' :
  I s → step basename e s = Some s' → I s'.
Proof.
  intros Hs H.
  destruct e as [p b x stat | b k p n | i | i | i | | | d | t | t hb | t n
                 | t n | t | t m | t | ps]; cbn [step] in H.
  - apply (inj Some) in H. subst s'.
    unfold enqueueUpload, generateId. cbn beta iota zeta.
    apply I_enqueue. by view_peel.
  - apply (inj Some) in H. subst s'.
    unfold enqueueDownload, generateId. cbn beta iota zeta.
    apply I_enqueue. by view_peel.
  - injection H as <-. unfold cancelTransfer. case_match; [|done].
    apply I_emitProgressAt, I_abort_controller. by view_peel.
  - injection H as <-. unfold pauseTransfer. repeat case_match; try done.
    apply I_emitProgressAt. view_peel. apply I_abort_controller. by view_peel.
  - injection H as <-. unfold resumeTransfer. repeat case_match; try done.
    apply I_processQueue_loop, I_emitProgressAt. by view_peel.
  - injection H as <-. unfold clearCompleted. by view_peel.
  - injection H as <-. by apply I_subscribe.
  - injection H as <-. by apply I_tick.
  - unfold exec_registered in H. exec_open H tk job Htk Hjob Hph.
    injection H as <-. by repeat view_peel.
  - unfold exec_responded in H. exec_open H tk job Htk Hjob Hph.
    destruct hb; injection H as <-; [by repeat view_peel|].
    view_peel. by apply I_exec_catch.
  - unfold exec_progress in H. exec_open H tk job Htk Hjob Hph.
    case_bool_decide; injection H as <-; [done|].
    apply I_emitProgressAt. by view_peel.
  - unfold exec_data in H. exec_open H tk job Htk Hjob Hph.
    case_bool_decide; injection H as <-; [done|].
    apply I_emitProgressAt. by repeat view_peel.
  - unfold exec_done in H. exec_open H tk job Htk Hjob Hph.
    injection H as <-. view_peel. case_bool_decide; [done|].
    apply I_emitProgressAt. by view_peel.
  - unfold exec_failed in H. exec_open H tk job Htk Hjob Hph.
    injection H as <-. view_peel. by apply I_exec_catch.
  - unfold exec_completion in H. exec_open H tk job Htk Hjob Hph.
    injection H as <-. apply I_processQueue_loop, I_pruneQueue. by repeat view_peel.
  - injection H as <-. by apply (I_view s).
Qed.

End EmitterInvariant.

Lemma emit_inv_view x x' : emit_view x' = emit_view x → emit_inv x → emit_inv x'.
Proof.
  unfold emit_view, emit_inv. intros [= _ Hc Ht Hd]. by rewrite Hc, Ht, Hd.
Qed.

Lemma emit_inv_tick d x : emit_inv x → emit_inv (set_clock (clock x + Z.of_N d) x).
Proof.
  intros (Hrate & Hlast & Hclock). split; [done|]. split; [done|]. simpl.
  intros i last Hi. apply Hclock in Hi. lia.
Qed.

Lemma reachable_emit_inv basename st s : reachable basename st s → emit_inv s.
Proof.
  apply (reachable_invariant basename emit_inv st).
  - split; [|split]; simpl.
    + intros i k t1 t2 a b _ Hi. done.
    + intros t a Hin. by apply elem_of_nil in Hin.
    + intros i last Hi. done.
  - intros e x x' Hx Hstep. revert Hx Hstep. apply step_emitter_invariant.
    + apply emit_inv_view.
    + intros j y. apply emit_inv_emitProgress.
    + intros y Hy. exact Hy.
    + apply emit_inv_tick.
Qed.

(** In every reachable state, the deliveries made so far for one id at
    non-terminal statuses are pairwise at least 100 ms apart. *)
Lemma reachable_rate_limited basename st s :
  reachable basename st s → rate_limited (delivered s).
Proof. intros Hr. apply (reachable_emit_inv basename st s Hr). Qed.

(** In every reachable state, every id that was ever delivered, at a terminal
    status or not, still has its timestamp in [lastEmitTime]. *)
Lemma reachable_timestamp_kept basename st s t a :
  reachable basename st s → (t, a) ∈ delivered s →
  ∃ last, lastEmitTime s !! id a = Some last ∧ t ≤ last.
Proof. intros Hr. apply (reachable_emit_inv basename st s Hr). Qed.

(** ** The budget on runs without pause *)

Lemma unsettled_running tk : unsettled tk → running tk.
Proof. unfold unsettled, running. intros [H|[H|H]]; rewrite H; done. Qed.

Lemma filter_alter_length {A} (P : A → Prop) `{!∀ x, Decision (P x)}
    (f : A → A) (i : nat) (l : list A) :
  (∀ x, l !! i = Some x → (P (f x) ↔ P x)) →
  length (filter P (alter f i l)) = length (filter P l).
Proof.
  revert i. induction l as [|a l IH]; intros [|i] Hf; try done.
  - change (alter f 0%nat (a :: l)) with (f a :: l).
    rewrite !filter_cons. specialize (Hf a eq_refl).
    repeat case_decide; simpl; tauto.
  - change (alter f (S i) (a :: l)) with (a :: alter f i l).
    rewrite !filter_cons.
    assert (length (filter P (alter f i l)) = length (filter P l)) as IHi
      by (apply IH; intros x Hx; by apply Hf).
    case_decide; simpl; lia.
Qed.

Lemma filter_alter_drop {A} (P : A → Prop) `{!∀ x, Decision (P x)}
    (f : A → A) (i : nat) (l : list A) (a : A) :
  l !! i = Some a → P a → ¬ P (f a) →
  (length (filter P (alter f i l)) + 1 = length (filter P l))%nat.
Proof.
  revert i. induction l as [|b l IH]; intros [|i] Hi Ha Hfa; try done.
  - injection Hi as ->. change (alter f 0%nat (a :: l)) with (f a :: l).
    rewrite !filter_cons.
    rewrite decide_False, decide_True by done. simpl. lia.
  - change (alter f (S i) (b :: l)) with (b :: alter f i l).
    rewrite !filter_cons. specialize (IH i Hi Ha Hfa).
    case_decide; simpl; lia.
Qed.

Section Budget.

Variable N : Z.

Lemma budget_view x x' :
  queue x' = queue x → heap x' = heap x → tasks x' = tasks x →
  activeCount x' = activeCount x → settings x' = settings x →
  budget_inv N x → budget_inv N x'.
Proof.
  unfold budget_inv, has_status. intros _ -> -> -> ->. done.
Qed.

Lemma budget_emitProgressAt l x : budget_inv N x → budget_inv N (emitProgressAt l x).
Proof. apply budget_view; apply emitProgressAt_frame. Qed.

Lemma budget_emitProgress j x : budget_inv N x → budget_inv N (emitProgress j x).
Proof. apply budget_view; apply emitProgress_frame. Qed.

(** An assignment to a job that does not make it active. *)
Lemma budget_update_job l f x :
  (∀ j, heap x !! l = Some j → status (f j) = active → status j = active) →
  budget_inv N x → budget_inv N (update_job l f x).
Proof.
  intros Hf (Hn & Ha & Hb & Hc). split; [done|]. split; [done|]. split; [done|].
  intros l' Hst. apply Hc. unfold has_status in *. simpl in Hst.
  rewrite status_at_alter in Hst. case_decide as Hd; [|done]. subst l'.
  destruct (heap x !! l) as [j|] eqn:Hj; [|done]. simpl in Hst.
  apply status_at_Some. exists j. split; [done|]. apply Hf; [done | congruence].
Qed.

(** A change to an executor that keeps its job and its hold on the slot. *)
Lemma budget_update_task t f x :
  (∀ tk, tasks x !! t = Some tk →
     tjob (f tk) = tjob tk ∧ (running (f tk) ↔ running tk) ∧
     (unsettled tk → unsettled (f tk))) →
  budget_inv N x → budget_inv N (update_task t f x).
Proof.
  intros Hf (Hn & Ha & Hb & Hc). split; [done|]. split; [|split; [done|]].
  - simpl. rewrite filter_alter_length; [done|]. intros tk Htk. by apply Hf.
  - intros l Hst. destruct (Hc l Hst) as (t' & tk & Htk & Hl & Hu).
    destruct (decide (t = t')) as [->|Hne].
    + exists t', (f tk). simpl. rewrite list_lookup_alter_eq, Htk.
      destruct (Hf tk Htk) as (Hj & _ & Hu'). split; [done|]. split; [congruence|auto].
    + exists t', tk. simpl. by rewrite list_lookup_alter_ne.
Qed.

(** The end of an executor's body, its job being no longer active. *)
Lemma budget_settle t tk x :
  tasks x !! t = Some tk → unsettled tk → ¬ has_status x (tjob tk) active →
  budget_inv N x → budget_inv N (update_task t (with_phase Settled) x).
Proof.
  intros Htk Hun Hna (Hn & Ha & Hb & Hc). split; [done|]. split; [|split; [done|]].
  - simpl. rewrite filter_alter_length; [done|]. intros tk' Htk'.
    assert (tk' = tk) as -> by congruence.
    split; [intros _; by apply unsettled_running | done].
  - intros l Hst. destruct (Hc l Hst) as (t' & tk' & Htk' & Hl & Hu).
    destruct (decide (t = t')) as [->|Hne].
    + exfalso. apply Hna. assert (tk' = tk) as -> by congruence. by rewrite Hl.
    + exists t', tk'. simpl. by rewrite list_lookup_alter_ne.
Qed.

(** The [.finally] callback gives the slot back. *)
Lemma budget_finish t tk x :
  tasks x !! t = Some tk → phase tk = Settled →
  budget_inv N x →
  budget_inv N (set_activeCount (activeCount x - 1)
                  (update_task t (with_phase Finished) x)).
Proof.
  intros Htk Hph (Hn & Ha & Hb & Hc). split; [done|]. split; [|split].
  - simpl. rewrite Ha.
    pose proof (filter_alter_drop running (with_phase Finished) t (tasks x) tk Htk)
      as Hdrop.
    rewrite <- Hdrop; [lia | unfold running; by rewrite Hph | unfold running; simpl; tauto].
  - simpl. lia.
  - intros l Hst. destruct (Hc l Hst) as (t' & tk' & Htk' & Hl & Hu).
    destruct (decide (t = t')) as [->|Hne].
    + exfalso. assert (tk' = tk) as -> by congruence.
      unfold unsettled in Hu. rewrite Hph in Hu. by destruct Hu as [?|[?|?]].
    + exists t', tk'. simpl. by rewrite list_lookup_alter_ne.
Qed.

Lemma budget_queue q x : budget_inv N x → budget_inv N (set_queue q x).
Proof. done. Qed.

Lemma budget_dispatch_one x x' :
  dispatch_one x = Some x' → budget_inv N x → budget_inv N x'.
Proof.
  intros Hd (Hn & Ha & Hb & Hc).
  apply dispatch_one_Some in Hd
    as (next & Hf & Hlt & Hh & Hq & Hac & Hs & Hcl & Ht & _).
  split; [by rewrite Hs|]. split; [|split].
  - rewrite Hac, Ht, Ha, filter_app, length_app.
    rewrite filter_cons_True by done. simpl. lia.
  - rewrite Hac. lia.
  - intros l Hst. unfold has_status in Hst. rewrite Hh, status_at_alter in Hst.
    case_decide as Hd.
    + subst l. exists (length (tasks x)), (mkTask next Starting 0 false).
      rewrite Ht. split; [by apply list_lookup_middle|]. split; [done | by left].
    + destruct (Hc l Hst) as (t & tk & Htk & Hl & Hu).
      exists t, tk. rewrite Ht. split; [by apply lookup_app_l_Some | done].
Qed.

Lemma budget_processQueue_loop fuel x :
  budget_inv N x → budget_inv N (processQueue_loop fuel x).
Proof.
  revert x. induction fuel as [|fuel IH]; intros x Hx; simpl; [done|].
  destruct (dispatch_one x) as [x'|] eqn:Hd; [|done].
  apply IH. by eapply budget_dispatch_one.
Qed.

Lemma budget_abort_controller i x :
  budget_inv N x → budget_inv N (abort_controller i x).
Proof.
  unfold abort_controller. destruct (abortControllers x !! i); [|done].
  intros Hx. apply (budget_view (update_task n with_aborted x)); [done..|].
  apply budget_update_task; [|done]. intros tk _. done.
Qed.

Lemma budget_pruneQueue x : budget_inv N x → budget_inv N (pruneQueue x).
Proof. unfold pruneQueue. by case_match. Qed.

(** A new object that is not active. *)
Lemma budget_push q job x :
  status job ≠ active →
  budget_inv N x → budget_inv N (set_queue q (set_heap (heap x ++ [job]) x)).
Proof.
  intros Hjob (Hn & Ha & Hb & Hc). split; [done|]. split; [done|]. split; [done|].
  intros l Hst. apply Hc. unfold has_status in *. simpl in Hst.
  apply status_at_Some in Hst as (j & Hj & Hs).
  apply lookup_app_Some in Hj as [Hj|[_ Hj]].
  - apply status_at_Some. eauto.
  - apply list_lookup_singleton_Some in Hj as [_ ->]. done.
Qed.

Lemma budget_enqueue job x :
  status job = pending → budget_inv N x → budget_inv N (enqueue job x).2.
Proof.
  intros Hjob Hx. unfold enqueue. cbn [snd].
  apply budget_processQueue_loop, budget_emitProgress, budget_push; [|done].
  by rewrite Hjob.
Qed.

(** The body of an executor ends by its [catch] block. *)
Lemma budget_exec_catch dflt m t tk job x :
  tasks x !! t = Some tk → unsettled tk →
  budget_inv N x →
  budget_inv N (exec_finally t job (exec_catch dflt m (tjob tk) x)).
Proof.
  intros Htk Hun Hx. unfold exec_finally.
  match goal with |- budget_inv N (update_task t _ (set_abortControllers ?a ?y)) =>
    apply (budget_view (update_task t (with_phase Settled) y)); [done..|] end.
  unfold exec_catch. case_bool_decide as Hc.
  - apply (budget_settle t tk); [done..| |done].
    unfold has_status. rewrite Hc. done.
  - apply (budget_settle t tk).
    + by destruct (emitProgressAt_frame (tjob tk)
        (update_job (tjob tk)
           (λ j, with_error (message_or m dflt) (with_status failed j)) x))
        as (_ & _ & _ & _ & _ & _ & _ & -> & _).
    + done.
    + unfold has_status. emit_frame. rewrite E0. simpl.
      rewrite status_at_alter, decide_True by done.
      destruct (heap x !! tjob tk); done.
    + apply budget_emitProgressAt, budget_update_job; [|done]. done.
Qed.

End Budget.

Ltac task_moves :=
  split; [reflexivity|]; split; [split; intros _; discriminate | intros _; auto].

Lemma step_budget basename N e s s' :
  keeps_budget e → budget_inv N s → step basename e s = Some s' → budget_inv N s'.
Proof.
  intros Hnp Hs H.
  destruct e as [p b x stat | b k p n | i | i | i | | | d | t | t hb | t n
                 | t n | t | t m | t | ps]; cbn [step] in H.
  - apply (inj Some) in H. subst s'.
    unfold enqueueUpload, generateId. cbn beta iota zeta.
    apply budget_enqueue; [done|]. by apply (budget_view N s).
  - apply (inj Some) in H. subst s'.
    unfold enqueueDownload, generateId. cbn beta iota zeta.
    apply budget_enqueue; [done|]. by apply (budget_view N s).
  - injection H as <-. unfold cancelTransfer. case_match; [|done].
    apply budget_emitProgressAt, budget_abort_controller, budget_update_job; done.
  - by destruct Hnp.
  - injection H as <-. unfold resumeTransfer. repeat case_match; try done.
    apply budget_processQueue_loop, budget_emitProgressAt, budget_update_job; done.
  - injection H as <-. by apply budget_queue.
  - injection H as <-. by apply (budget_view N s).
  - injection H as <-. by apply (budget_view N s).
  - unfold exec_registered in H. exec_open H tk job Htk Hjob Hph.
    injection H as <-.
    match goal with |- budget_inv N (update_task t ?f (set_abortControllers ?a s)) =>
      apply (budget_view N (update_task t f s)); [done..|] end.
    apply budget_update_task; [|done]. intros tk' Htk'.
    assert (tk' = tk) as -> by congruence.
    unfold running, unsettled. rewrite Hph. simpl.
    destruct (direction job); task_moves.
  - unfold exec_responded in H. exec_open H tk job Htk Hjob Hph.
    destruct hb; injection H as <-.
    + apply budget_update_task; [|done]. intros tk' Htk'.
      assert (tk' = tk) as -> by congruence.
      unfold running, unsettled. rewrite Hph. simpl. task_moves.
    + apply budget_exec_catch; [done| |done]. unfold unsettled. auto.
  - unfold exec_progress in H. exec_open H tk job Htk Hjob Hph.
    case_bool_decide; injection H as <-; [done|].
    apply budget_emitProgressAt, budget_update_job; done.
  - unfold exec_data in H. exec_open H tk job Htk Hjob Hph.
    case_bool_decide; injection H as <-; [done|].
    apply budget_emitProgressAt, budget_update_job; [done|].
    apply budget_update_task; [|done]. intros tk' _. done.
  - unfold exec_done in H. exec_open H tk job Htk Hjob Hph.
    injection H as <-. unfold exec_finally.
    match goal with |- budget_inv N (update_task t _ (set_abortControllers ?a ?y)) =>
      apply (budget_view N (update_task t (with_phase Settled) y)); [done..|] end.
    assert (unsettled tk) as Hun by (unfold unsettled; auto).
    case_bool_decide as Hc.
    + apply (budget_settle N t tk); [done..| |done].
      unfold has_status, status_at. rewrite Hjob. simpl. congruence.
    + apply (budget_settle N t tk).
      * emit_frame. by rewrite E6.
      * done.
      * unfold has_status. emit_frame. rewrite E0. simpl.
        rewrite status_at_alter, decide_True, Hjob by done.
        by destruct (direction job).
      * apply budget_emitProgressAt, budget_update_job; [|done].
        intros j _. by destruct (direction job).
  - unfold exec_failed in H. exec_open H tk job Htk Hjob Hph.
    injection H as <-. by apply budget_exec_catch.
  - unfold exec_completion in H. exec_open H tk job Htk Hjob Hph.
    injection H as <-.
    apply budget_processQueue_loop, budget_pruneQueue.
    by apply (budget_finish N t tk).
  - by destruct Hnp.
Qed.

Lemma run_keeps_budget_invariant basename (I : Engine → Prop) :
  (∀ e s s', keeps_budget e → I s → step basename e s = Some s' → I s') →
  ∀ es s s', Forall (λ e, keeps_budget e) es →
             I s → run basename es s = Some s' → I s'.
Proof.
  intros Hstep es. induction es as [|e es IH]; intros s s' Hes Hs Hrun; simpl in Hrun.
  - by injection Hrun as <-.
  - apply Forall_cons in Hes as [He Hes].
    destruct (step basename e s) as [s1|] eqn:H1; simpl in Hrun; [|done].
    eapply IH; [done| |exact Hrun]. by eapply Hstep.
Qed.

Lemma budget_bounds_active N s :
  NoDup (queue s) → budget_inv N s → Z.of_nat (length (active_jobs s)) ≤ N.
Proof.
  intros Hnd (Hn & Ha & Hb & Hc).
  assert (length (active_jobs s) ≤ length (filter unsettled (tasks s)))%nat as H1.
  { rewrite <- (length_fmap tjob (filter unsettled (tasks s))).
    apply submseteq_length, NoDup_submseteq; [by apply NoDup_filter|].
    intros l Hl. apply list_elem_of_filter in Hl as [Hst _].
    destruct (Hc l Hst) as (t & tk & Htk & <- & Hu).
    apply list_elem_of_fmap. exists tk. split; [done|].
    apply list_elem_of_filter. split; [done|]. by eapply list_elem_of_lookup_2. }
  assert (length (filter unsettled (tasks s)) ≤ length (filter running (tasks s)))%nat
    as H2.
  { rewrite <- (list_filter_filter_l unsettled running) by apply unsettled_running.
    apply length_filter. }
  lia.
Qed.

(** On every run in which no job is paused and the settings are left alone,
    the number of active jobs stays within [concurrentThreads]. *)
Lemma pause_free_budget basename st es s :
  0 ≤ concurrentThreads st →
  Forall (λ e, keeps_budget e) es →
  run basename es (init st) = Some s →
  Z.of_nat (length (active_jobs s)) ≤ concurrentThreads st.
Proof.
  intros Hpos Hes Hrun. apply budget_bounds_active.
  - apply (reachable_queue_wf basename st). by exists es.
  - eapply (run_keeps_budget_invariant basename (budget_inv (concurrentThreads st)));
      [|exact Hes| |exact Hrun].
    + intros e x x'. apply step_budget.
    + split; [done|]. split; [done|]. split; [done|].
      intros l Hl. unfold has_status, status_at in Hl. simpl in Hl. done.
Qed.

(** * The statements of the design document *)

(** ** Enqueueing (C7, C9, C10) *)

(** C10. The object key of an upload job is the prefix immediately followed
    by the base name of the local path when the prefix is a non-empty
    string, and the base name alone when the prefix is empty. *)
Theorem enqueueUpload_key (basename : string → string) (p b x : string)
    (stat : option Z) (s : Engine) :
  ∃ j, heap (enqueueUpload basename p b x stat s).2
         !! (enqueueUpload basename p b x stat s).1 = Some j ∧
       key j = if decide (x = "") then basename p else x +:+ basename p.
Proof.
  unfold enqueueUpload.
  destruct (generateId s) as [jid s1] eqn:Hg.
  match goal with |- context [enqueue ?job s1] =>
    destruct (enqueue_job job s1) as (j & Hj & Hcase) end.
  exists j. split; [exact Hj|].
  assert (key j = if String.eqb x "" then basename p else x +:+ basename p) as ->.
  { destruct Hcase as [->|[_ ->]]; reflexivity. }
  destruct (String.eqb_spec x ""); case_decide; done.
Qed.

(** C9. When [statSync] throws, [enqueueUpload] still returns: the failure
    is swallowed, the job it creates and pushes has [fileSize = 0] and status
    [pending], and the job it returns is that object at the end of the queue,
    still of size 0 (its status being [pending], or [active] if the
    dispatcher promoted it in the same call). *)
Theorem enqueueUpload_stat_failure (basename : string → string) (p b x : string)
    (s : Engine) :
  ∃ job j,
    enqueueUpload basename p b x None s = enqueue job (generateId s).2 ∧
    status job = pending ∧ fileSize job = 0 ∧
    queue (enqueueUpload basename p b x None s).2
      = queue s ++ [(enqueueUpload basename p b x None s).1] ∧
    heap (enqueueUpload basename p b x None s).2
      !! (enqueueUpload basename p b x None s).1 = Some j ∧
    fileSize j = 0 ∧ (status j = pending ∨ status j = active).
Proof.
  unfold enqueueUpload.
  destruct (generateId s) as [jid s1] eqn:Hg. cbn [snd].
  match goal with |- context [enqueue ?job s1] =>
    destruct (enqueue_job job s1) as (j & Hj & Hcase);
    destruct (enqueue_queue job s1) as (Hl & Hq & _);
    exists job, j end.
  split; [done|]. split; [done|]. split; [done|].
  split.
  { rewrite Hq, Hl. by replace (queue s1) with (queue s) by (by inversion Hg). }
  split; [exact Hj|].
  destruct Hcase as [->|[_ ->]]; simpl; auto.
Qed.

(** C7, as the design document states it, fails: the job that [enqueueUpload]
    returns from the initial state is already [active]. *)
Lemma enqueue_returns_pending_counterexample :
  ¬ (∀ st s p b x stat,
       reachable posix_basename st s →
       has_status (enqueueUpload posix_basename p b x stat s).2
                  (enqueueUpload posix_basename p b x stat s).1 pending).
Proof.
  intros H.
  specialize (H default_settings (init default_settings)
                "/tmp/a.bin" "bucket" "" (Some 10) (ex_intro _ [] eq_refl)).
  vm_compute in H. discriminate H.
Qed.

(** C7, amended. In every reachable state, [enqueueUpload] and
    [enqueueDownload] create a job in status [pending] and append it to the
    end of the queue; the dispatcher runs before the call returns, so the job
    handed to the caller is [active] when the active count plus the number of
    pending jobs already queued is below [concurrentThreads], and [pending]
    otherwise. *)
Theorem enqueue_returns_dispatched (basename : string → string)
    (st : TransferSettings) (s : Engine) (p b x k : string) (stat : option Z) (n : Z) :
  reachable basename st s →
  let up := enqueueUpload basename p b x stat s in
  let down := enqueueDownload b k p n s in
  let at_return :=
    if decide (activeCount s + Z.of_nat (length (pending_jobs s))
                 < concurrentThreads (settings s))
    then active else pending in
  (∃ job, fresh_job job ∧ up = enqueue job (generateId s).2) ∧
  (∃ job, fresh_job job ∧ down = enqueue job (generateId s).2) ∧
  queue up.2 = queue s ++ [up.1] ∧ has_status up.2 up.1 at_return ∧
  queue down.2 = queue s ++ [down.1] ∧ has_status down.2 down.1 at_return.
Proof.
  intros Hreach. apply reachable_queue_wf in Hreach as Hwf.
  intros up down at_return. subst up down.
  unfold enqueueUpload, enqueueDownload.
  destruct (generateId s) as [jid s1] eqn:Hg. cbn [snd].
  assert (heap s1 = heap s ∧ queue s1 = queue s ∧ activeCount s1 = activeCount s
          ∧ settings s1 = settings s) as (Hh & Hq & Ha & Hs) by (by inversion Hg).
  assert (queue_wf s1) as Hwf1 by (unfold queue_wf; by rewrite Hh, Hq).
  assert (pending_jobs s1 = pending_jobs s) as Hp
    by (unfold pending_jobs, jobs_in; by rewrite Hh, Hq).
  assert (∀ job, status job = pending →
            queue (enqueue job s1).2 = queue s ++ [(enqueue job s1).1] ∧
            has_status (enqueue job s1).2 (enqueue job s1).1 at_return) as Hboth.
  { intros job Hjob. destruct (enqueue_queue job s1) as (Hl & Hq' & _).
    split; [by rewrite Hq', Hl, Hq|].
    unfold has_status. rewrite (enqueue_dispatch job s1 Hwf1 Hjob).
    by rewrite Hp, Ha, Hs. }
  split; [eexists; split; [|reflexivity]; by repeat split|].
  split; [eexists; split; [|reflexivity]; by repeat split|].
  match goal with |- context [enqueue ?job s1] =>
    destruct (Hboth job eq_refl) as [Hq1 Hs1] end.
  split; [exact Hq1|]. split; [exact Hs1|].
  apply Hboth. reflexivity.
Qed.

Lemma enqueue_returns_dispatched_witness :
  has_status
    (enqueueUpload posix_basename "/tmp/a.bin" "bucket" "" (Some 10)
       (init default_settings)).2 0%nat active.
Proof.
  pose proof (enqueue_returns_dispatched posix_basename default_settings
                (init default_settings) "/tmp/a.bin" "bucket" "" "k" (Some 10) 10
                (ex_intro _ [] eq_refl)) as H.
  exact (proj1 (proj2 (proj2 (proj2 H)))).
Defined.

(** ** The concurrency budget (C1) *)

(** C1. The number of active jobs is meant never to exceed
    [concurrentThreads]. The engine breaks this: a paused job gives its slot
    back twice, once in [pauseTransfer] and once more when its executor ends.
    With two slots, after [pause_then_enqueue] three jobs are active. *)
Theorem active_jobs_exceed_budget :
  ∃ s, run posix_basename pause_then_enqueue (init two_slots) = Some s ∧
       concurrentThreads (settings s) = 2 ∧
       activeCount s = 2 ∧
       length (active_jobs s) = 3%nat.
Proof.
  eexists. split; [vm_compute; reflexivity|].
  repeat split; vm_compute; reflexivity.
Qed.

(** ** Terminal statuses (C2, C5) *)

(** C2. A terminal job is meant to keep its status. [cancelTransfer] has no
    guard on the status of the job it finds: a completed upload that is
    cancelled afterwards becomes [cancelled]. *)
Theorem cancel_overwrites_completed :
  ∃ s, run posix_basename upload_completes (init default_settings) = Some s ∧
       find_job s "transfer-0-1" = Some 0%nat ∧
       has_status s 0 completed ∧
       has_status (cancelTransfer "transfer-0-1" s) 0 cancelled.
Proof.
  eexists. split; [vm_compute; reflexivity|].
  repeat split; vm_compute; reflexivity.
Qed.

(** C5. The error field is meant to be present exactly on failed jobs. A
    failed upload that is cancelled afterwards is [cancelled] and still
    carries the error message of the failure. *)
Theorem cancelled_job_keeps_error :
  ∃ s j, run posix_basename (upload_fails ++ [CancelTransfer "transfer-0-1"])
             (init default_settings) = Some s ∧
         queue s = [0%nat] ∧ heap s !! 0%nat = Some j ∧
         status j = cancelled ∧ error j = Some "socket hang up".
Proof.
  do 2 eexists. split; [vm_compute; reflexivity|].
  split; [vm_compute; reflexivity|]. split; [vm_compute; reflexivity|].
  split; reflexivity.
Qed.

(** ** Bounded history (C3) *)

(** C3. The queue is meant never to hold more than 200 terminal jobs, every
    new terminal job triggering a pruning pass. [cancelTransfer] does not
    prune: after [cancel_backlog] the queue holds 201 cancelled jobs. *)
Theorem cancelled_history_exceeds_ceiling :
  ∃ s, run posix_basename cancel_backlog (init default_settings) = Some s ∧
       length (terminal_jobs s) = 201%nat ∧
       MAX_HISTORY_SIZE = 200%nat.
Proof.
  eexists. split; [vm_compute; reflexivity|].
  split; [vm_compute; reflexivity | reflexivity].
Qed.

(** ** Completion (C4) *)

(** C4. A job that goes from [active] to [completed] is meant to have
    [transferred = fileSize]. The download executor stamps [completedAt] but,
    unlike the upload executor, does not set [transferred]: a download
    announced with 1000 bytes whose body delivers 400 completes with
    [transferred = 400]. *)
Theorem download_completes_short :
  ∃ s s' j, run posix_basename short_download (init default_settings) = Some s ∧
            has_status s 0 active ∧
            exec_done 0 s = Some s' ∧
            heap s' !! 0%nat = Some j ∧
            status j = completed ∧ completedAt j = Some 0 ∧
            transferred j = 400 ∧ fileSize j = 1000.
Proof.
  do 3 eexists. split; [vm_compute; reflexivity|].
  split; [vm_compute; reflexivity|]. split; [vm_compute; reflexivity|].
  split; [vm_compute; reflexivity|]. repeat split.
Qed.

(** ** Progress emissions (C6) *)

(** C6. A terminal emission is meant to clear the rate-limit timestamp of the
    job id. [emitProgress] deletes the entry and then sets it again: after a
    subscribed upload has completed at time 1500, the completed snapshot is
    the last delivery and [lastEmitTime] maps the id to 1500. *)
Theorem terminal_emission_keeps_timestamp :
  ∃ s j, run posix_basename observed_upload (init default_settings) = Some s ∧
         last (delivered s) = Some (1500, j) ∧
         id j = "transfer-1000-1" ∧ status j = completed ∧
         lastEmitTime s !! id j = Some 1500.
Proof.
  do 2 eexists. split; [vm_compute; reflexivity|].
  split; [vm_compute; reflexivity|]. repeat split.
Qed.

(** ** Pause and resume (C8) *)

(** C8. A paused job is meant not to fail unless a fresh dispatch of it
    fails. The abort that [pauseTransfer] triggers makes the executor of that
    same dispatch reject, and its [catch] block, which spares only cancelled
    jobs, marks the paused job [failed]. *)
Theorem paused_job_fails_on_abort :
  ∃ s s', run posix_basename upload_paused (init default_settings) = Some s ∧
          has_status s 0 paused ∧ length (tasks s) = 1%nat ∧
          exec_failed 0 (Some "Upload aborted.") s = Some s' ∧
          has_status s' 0 failed ∧ length (tasks s') = 1%nat.
Proof.
  do 2 eexists. split; [vm_compute; reflexivity|].
  split; [vm_compute; reflexivity|]. split; [vm_compute; reflexivity|].
  split; [vm_compute; reflexivity|]. split; vm_compute; reflexivity.
Qed.

(** * Further properties of the code *)

(** ** The dispatcher *)

Lemma find_pending_none_jobs s : find_pending s = None → pending_jobs s = [].
Proof.
  intros Hf. apply filter_none. intros l Hl. by apply find_pending_None.
Qed.

(** X1. [processQueue] is work conserving: when it returns, either every slot
    of the budget is taken ([activeCount >= concurrentThreads]) or no queued
    job is left pending. *)
Theorem processQueue_work_conserving (s : Engine) :
  concurrentThreads (settings (processQueue s)) ≤ activeCount (processQueue s)
  ∨ pending_jobs (processQueue s) = [].
Proof.
  destruct (processQueue_exit s) as [H|H]; [by left|right].
  by apply find_pending_none_jobs.
Qed.

Lemma find_head_filter {A} (P : A → Prop) `{!∀ x, Decision (P x)} (q : list A) :
  List.find (λ x, bool_decide (P x)) q = head (filter P q).
Proof.
  induction q as [|a q IH]; [done|]. cbn [List.find].
  destruct (decide (P a)) as [Ha|Ha].
  - by rewrite bool_decide_eq_true_2, filter_cons_True.
  - by rewrite bool_decide_eq_false_2, filter_cons_False.
Qed.

Lemma filter_tail {A} `{EqDecision A} (P P' : A → Prop)
    `{!∀ x, Decision (P x), !∀ x, Decision (P' x)} (q : list A) (x : A) (r : list A) :
  (∀ y, P' y ↔ P y ∧ y ≠ x) → NoDup q → filter P q = x :: r → filter P' q = r.
Proof.
  intros HPP'. induction q as [|a q IH]; intros Hnd Hf; [done|].
  apply NoDup_cons in Hnd as [Ha Hnd].
  destruct (decide (P a)) as [HPa|HPa].
  - rewrite filter_cons_True in Hf by done. injection Hf as -> Hf.
    rewrite filter_cons_False by (rewrite HPP'; tauto).
    by rewrite (filter_except_absent P P' x HPP').
  - rewrite filter_cons_False in Hf by done.
    rewrite filter_cons_False by (rewrite HPP'; tauto). by apply IH.
Qed.

(** One iteration of the dispatch loop takes the oldest pending job. *)
Lemma dispatch_one_head s s' :
  NoDup (queue s) → dispatch_one s = Some s' →
  ∃ next r, pending_jobs s = next :: r ∧ pending_jobs s' = r ∧
            has_status s' next active ∧ activeCount s' = activeCount s + 1 ∧
            activeCount s < concurrentThreads (settings s) ∧
            settings s' = settings s ∧ queue s' = queue s.
Proof.
  intros Hnd Hd.
  apply dispatch_one_Some in Hd as (next & Hf & Hlt & Hh & Hq & Hac & Hs & _).
  pose proof Hf as Hfind. apply find_pending_Some in Hf as [Hin Hst].
  unfold find_pending in Hfind. rewrite find_head_filter in Hfind.
  fold (jobs_in pending s) in Hfind. fold (pending_jobs s) in Hfind.
  destruct (pending_jobs s) as [|x r] eqn:Hp; [done|]. injection Hfind as ->.
  exists next, r. split; [done|].
  apply status_at_Some in Hst as (j & Hj & Hjs).
  split; [|split; [|done]].
  - unfold pending_jobs, jobs_in. rewrite Hh, Hq.
    apply (filter_tail (λ l, status_at (heap s) l = Some pending) _ _ next);
      [|done|exact Hp].
    intros l. rewrite status_at_alter. case_decide as Hd.
    + subst l. rewrite Hj. simpl. split; [done|tauto].
    + split; [intros ?; split; [done|congruence] | tauto].
  - unfold has_status. rewrite Hh, status_at_alter, decide_True, Hj by done. done.
Qed.

Lemma processQueue_loop_fifo fuel s :
  NoDup (queue s) → (length (pending_jobs s) ≤ fuel)%nat →
  let k := Z.to_nat (Z.min (Z.of_nat (length (pending_jobs s)))
                           (concurrentThreads (settings s) - activeCount s)) in
  pending_jobs (processQueue_loop fuel s) = drop k (pending_jobs s) ∧
  activeCount (processQueue_loop fuel s) = activeCount s + Z.of_nat k ∧
  ∀ l, l ∈ take k (pending_jobs s) → has_status (processQueue_loop fuel s) l active.
Proof.
  revert s. induction fuel as [|fuel IH]; intros s Hnd Hlen; cbv zeta.
  - destruct (pending_jobs s) eqn:Hp; [|simpl in Hlen; lia].
    cbn [processQueue_loop]. rewrite Hp, drop_nil, take_nil.
    split; [done|]. split; [simpl; lia|].
    intros l Hl. by apply elem_of_nil in Hl.
  - cbn [processQueue_loop]. destruct (dispatch_one s) as [s'|] eqn:Hd.
    + destruct (dispatch_one_head s s' Hnd Hd)
        as (next & r & Hp & Hp' & Hst & Hac & Hlt & Hs & Hq).
      rewrite Hp in Hlen. simpl in Hlen.
      destruct (IH s') as (IH1 & IH2 & IH3); [by rewrite Hq | rewrite Hp'; lia |].
      rewrite Hp', Hs, Hac in IH1, IH2, IH3.
      rewrite Hp.
      replace (Z.to_nat (Z.min (Z.of_nat (length (next :: r)))
                 (concurrentThreads (settings s) - activeCount s)))
        with (S (Z.to_nat (Z.min (Z.of_nat (length r))
                 (concurrentThreads (settings s) - (activeCount s + 1)))))
        by (simpl length; lia).
      cbn [drop take]. split; [done|]. split; [lia|].
      intros l Hl. apply elem_of_cons in Hl as [->|Hl]; [|by apply IH3].
      by apply processQueue_loop_keeps.
    + replace (Z.to_nat (Z.min (Z.of_nat (length (pending_jobs s)))
                 (concurrentThreads (settings s) - activeCount s))) with 0%nat.
      2:{ apply dispatch_one_None in Hd as [Hfull|Hnone]; [lia|].
          apply find_pending_none_jobs in Hnone. rewrite Hnone. simpl. lia. }
      cbn [drop take]. split; [done|]. split; [lia|].
      intros l Hl. by apply elem_of_nil in Hl.
Qed.

(** X2. Dispatch is first in, first out. On a queue without repeated
    entries, [processQueue] promotes exactly the [k] oldest pending jobs,
    [k] being the smaller of the number of pending jobs and of the free slots
    ([concurrentThreads - activeCount], none when that is negative): they
    are active afterwards, the pending jobs left are the younger ones in
    their order, and [activeCount] has grown by [k]. *)
Theorem processQueue_fifo (s : Engine) :
  NoDup (queue s) →
  let k := Z.to_nat (Z.min (Z.of_nat (length (pending_jobs s)))
                           (concurrentThreads (settings s) - activeCount s)) in
  pending_jobs (processQueue s) = drop k (pending_jobs s) ∧
  activeCount (processQueue s) = activeCount s + Z.of_nat k ∧
  ∀ l, l ∈ take k (pending_jobs s) → has_status (processQueue s) l active.
Proof.
  intros Hnd. apply processQueue_loop_fifo; [done | apply pending_jobs_length].
Qed.

Lemma processQueue_fifo_witness :
  pending_jobs (processQueue three_pending) = [2%nat] ∧
  activeCount (processQueue three_pending) = 2.
Proof.
  assert (NoDup (queue three_pending)) as Hnd
    by (apply NoDup_ListNoDup; repeat constructor; simpl; intuition lia).
  pose proof (processQueue_fifo three_pending Hnd) as (H1 & H2 & _).
  split; [exact H1 | exact H2].
Defined.

(** ** History pruning *)

(** X3. After [pruneQueue] at most 200 terminal jobs are queued, and the
    ones that remain are the youngest of those that were there: the oldest
    (by queue position) are evicted first. *)
Theorem pruneQueue_keeps_youngest (s : Engine) :
  terminal_jobs (pruneQueue s)
    = drop (length (terminal_jobs s) - MAX_HISTORY_SIZE) (terminal_jobs s) ∧
  (length (terminal_jobs (pruneQueue s)) ≤ MAX_HISTORY_SIZE)%nat.
Proof. split; [apply pruneQueue_oldest_first | apply pruneQueue_bound]. Qed.


Lemma prune_scan_nil h n : prune_scan h n [] = [].
Proof. by destruct n. Qed.

Lemma pruneQueue_for_scan h toRemove fuel i removed q :
  (i ≤ length q)%nat → (removed ≤ toRemove)%nat → (length q - i ≤ fuel)%nat →
  pruneQueue_for fuel h toRemove (Z.of_nat i) removed q
  = take i q ++ prune_scan h (toRemove - removed) (drop i q).
Proof.
  revert i removed q. induction fuel as [|fuel IH]; intros i removed q Hi Hr Hf.
  - cbn [pruneQueue_for]. rewrite take_ge, drop_ge by lia.
    by rewrite prune_scan_nil, app_nil_r.
  - cbn [pruneQueue_for].
    destruct (Z.ltb_spec (Z.of_nat i) (Z.of_nat (length q))) as [Hlt|Hge]; simpl.
    2:{ rewrite take_ge, drop_ge by lia. by rewrite prune_scan_nil, app_nil_r. }
    destruct (Nat.ltb_spec removed toRemove) as [Hrem|Hrem]; simpl.
    2:{ replace (toRemove - removed)%nat with 0%nat by lia.
        destruct (drop i q) eqn:Hd; cbn [prune_scan]; by rewrite <- Hd, take_drop. }
    rewrite Nat2Z.id.
    destruct (q !! i) as [l|] eqn:Hl.
    2:{ apply lookup_ge_None in Hl. lia. }
    rewrite (drop_S q l i Hl).
    replace (toRemove - removed)%nat with (S (toRemove - S removed)) by lia.
    cbn [prune_scan]. destruct (terminal_at h l) eqn:Ht.
    + replace (Z.of_nat i - 1 + 1) with (Z.of_nat i) by lia.
      rewrite IH; [|rewrite length_delete; [lia | by eexists]..|lia| ].
      * rewrite delete_take_drop.
        rewrite take_app_length' by (rewrite length_take; lia).
        by rewrite drop_app_length' by (rewrite length_take; lia).
      * rewrite length_delete by (by eexists). lia.
    + replace (Z.of_nat i + 1) with (Z.of_nat (S i)) by lia.
      rewrite IH by lia. rewrite (take_S_r q i l Hl), <- app_assoc. simpl.
      by replace (S (toRemove - S removed)) with (toRemove - removed)%nat by lia.
Qed.

(** X5. The [for] loop of [pruneQueue], run index by index with its
    [splice] and its [i--] adjustment, removes the first [toRemove] terminal
    entries and nothing else: no entry is skipped after a removal, the other
    entries keep their order, and the loop is over within [queue.length]
    iterations. *)
Theorem pruneQueue_for_correct (h : list TransferJob) (toRemove extra : nat)
    (q : list nat) :
  let q' := pruneQueue_for (length q + extra) h toRemove 0 0 q in
  q' = prune_scan h toRemove q ∧
  filter (λ l, terminal_at h l) q' = drop toRemove (filter (λ l, terminal_at h l) q) ∧
  filter (λ l, ¬ terminal_at h l) q' = filter (λ l, ¬ terminal_at h l) q.
Proof.
  cbv zeta. change 0 with (Z.of_nat 0).
  rewrite (pruneQueue_for_scan h toRemove (length q + extra) 0 0 q) by lia.
  rewrite Nat.sub_0_r. cbn [take drop app].
  split; [done|]. split; [apply prune_scan_terminal | apply prune_scan_nonterminal].
Qed.

(** ** clearCompleted *)

Lemma clearCompleted_for_filter h i q :
  (i ≤ length q)%nat →
  clearCompleted_for h i q
  = filter (λ l, ¬ terminal_at h l) (take i q) ++ drop i q.
Proof.
  revert q. induction i as [|i IH]; intros q Hi; [done|].
  cbn [clearCompleted_for].
  destruct (q !! i) as [l|] eqn:Hl.
  2:{ apply lookup_ge_None in Hl. lia. }
  rewrite (take_S_r q i l Hl), filter_app.
  destruct (terminal_at h l) eqn:Ht.
  - rewrite IH by (rewrite length_delete; [lia | by eexists]).
    rewrite delete_take_drop.
    rewrite take_app_length' by (rewrite length_take; lia).
    rewrite drop_app_length' by (rewrite length_take; lia).
    rewrite (filter_cons_False _ l []) by (rewrite Ht; simpl; tauto).
    by rewrite filter_nil, app_nil_r.
  - rewrite IH by lia. rewrite (drop_S q l i Hl).
    rewrite (filter_cons_True _ l []) by (rewrite Ht; simpl; tauto).
    by rewrite filter_nil, <- app_assoc.
Qed.

(** X6. [clearCompleted], run index by index from the end of the queue with
    its [splice], leaves exactly the jobs in a non-terminal status, in their
    order: afterwards no terminal job is queued, the pending, active and
    paused jobs are the same as before, and a second call changes nothing. *)
Theorem clearCompleted_correct (s : Engine) :
  queue (clearCompleted s)
    = clearCompleted_for (heap s) (length (queue s)) (queue s) ∧
  terminal_jobs (clearCompleted s) = [] ∧
  filter (λ l, ¬ terminal_at (heap s) l) (queue (clearCompleted s))
    = filter (λ l, ¬ terminal_at (heap s) l) (queue s) ∧
  clearCompleted (clearCompleted s) = clearCompleted s.
Proof.
  assert (∀ q, filter (λ l, ¬ terminal_at (heap s) l)
                 (filter (λ l, ¬ terminal_at (heap s) l) q)
               = filter (λ l, ¬ terminal_at (heap s) l) q) as Hidem
    by (intros q; by apply list_filter_filter_l).
  split; [|split; [|split]].
  - rewrite clearCompleted_for_filter by done.
    by rewrite take_ge, drop_all, app_nil_r.
  - unfold terminal_jobs, clearCompleted. simpl.
    apply filter_none. intros l Hl. apply list_elem_of_filter in Hl as [Hl _].
    tauto.
  - apply Hidem.
  - unfold clearCompleted. simpl. by rewrite Hidem.
Qed.

(** ** Every transition is a sequence of elementary changes *)

Lemma prims_emitProgress job s x : rtc prim s x → rtc prim s (emitProgress job x).
Proof.
  intros Hx. unfold emitProgress. repeat case_match; try done.
  all: eapply rtc_r; [exact Hx | apply prim_emit].
Qed.

Lemma prims_emitProgressAt l s x : rtc prim s x → rtc prim s (emitProgressAt l x).
Proof.
  unfold emitProgressAt. destruct (heap x !! l); [apply prims_emitProgress | done].
Qed.

Lemma prims_update_job l f s x :
  (∀ j, heap x !! l = Some j → job_step j (f j)) →
  rtc prim s x → rtc prim s (update_job l f x).
Proof. intros Hf Hx. eapply rtc_r; [exact Hx | by apply prim_job]. Qed.

Lemma prims_update_task t f s x : rtc prim s x → rtc prim s (update_task t f x).
Proof. intros Hx. eapply rtc_r; [exact Hx | apply prim_tasks]. Qed.

Lemma prims_set_activeCount n s x : rtc prim s x → rtc prim s (set_activeCount n x).
Proof. intros Hx. eapply rtc_r; [exact Hx | apply prim_count]. Qed.

Lemma prims_set_abortControllers m s x :
  rtc prim s x → rtc prim s (set_abortControllers m x).
Proof. intros Hx. eapply rtc_r; [exact Hx | apply prim_controllers]. Qed.

Lemma prims_abort_controller i s x : rtc prim s x → rtc prim s (abort_controller i x).
Proof.
  unfold abort_controller. destruct (abortControllers x !! i); [|done].
  intros Hx. by apply prims_set_abortControllers, prims_update_task.
Qed.

Lemma prims_dispatch_one s x x' :
  dispatch_one x = Some x' → rtc prim s x → rtc prim s x'.
Proof.
  unfold dispatch_one. intros Hd Hx.
  destruct (activeCount x <? concurrentThreads (settings x)); [|done].
  destruct (find_pending x) as [next|] eqn:Hf; [|done]. injection Hd as <-.
  apply find_pending_Some in Hf as [_ Hst].
  unfold launch. eapply rtc_r; [|apply prim_tasks].
  apply prims_emitProgressAt, prims_set_activeCount, prims_update_job; [|done].
  intros j Hj. apply js_promote.
  apply status_at_Some in Hst as (j' & Hj' & <-). congruence.
Qed.

Lemma prims_processQueue_loop fuel s x :
  rtc prim s x → rtc prim s (processQueue_loop fuel x).
Proof.
  revert x. induction fuel as [|fuel IH]; intros x Hx; simpl; [done|].
  destruct (dispatch_one x) as [x'|] eqn:Hd; [|done].
  apply IH. by eapply prims_dispatch_one.
Qed.

Lemma prune_scan_keeps h n q l :
  l ∈ q → l ∈ prune_scan h n q ∨ terminal_at h l.
Proof.
  revert n. induction q as [|a q IH]; intros n Hl; [by apply elem_of_nil in Hl|].
  destruct n as [|n]; [by left|]. cbn [prune_scan].
  apply elem_of_cons in Hl as [->|Hl].
  - destruct (terminal_at h a) eqn:Ht; [right; exact I | left; left].
  - destruct (terminal_at h a).
    + by apply IH.
    + destruct (IH (S n) Hl) as [H|H]; [left; by right | by right].
Qed.

Lemma prims_pruneQueue s x : rtc prim s x → rtc prim s (pruneQueue x).
Proof.
  intros Hx. unfold pruneQueue. case_match; [|done].
  eapply rtc_r; [exact Hx|]. apply prim_queue; [apply prune_scan_sublist|].
  intros l Hl. by apply prune_scan_keeps.
Qed.

Lemma prims_clearCompleted s x : rtc prim s x → rtc prim s (clearCompleted x).
Proof.
  intros Hx. eapply rtc_r; [exact Hx|]. apply prim_queue; [apply sublist_filter|].
  intros l Hl. destruct (terminal_at (heap x) l) eqn:Ht; [right; exact I|].
  left. apply list_elem_of_filter. split; [rewrite Ht; simpl; tauto | done].
Qed.

Lemma prims_exec_catch dflt m l s x :
  dflt ≠ "" → rtc prim s x → rtc prim s (exec_catch dflt m l x).
Proof.
  intros Hd Hx. unfold exec_catch. case_bool_decide as Hst; [done|].
  apply prims_emitProgressAt, prims_update_job; [|done].
  intros j Hj. apply js_fail; [|by apply message_or_nonempty].
  intros Hc. apply Hst, status_at_Some. eauto.
Qed.

Lemma prims_exec_finally t job s x : rtc prim s x → rtc prim s (exec_finally t job x).
Proof. intros Hx. by apply prims_update_task, prims_set_abortControllers. Qed.

Lemma prims_enqueue job s :
  fresh_job job → id job = (generateId s).1 →
  rtc prim s (enqueue job (generateId s).2).2.
Proof.
  intros Hfresh Hid. unfold enqueue. cbn [snd].
  apply prims_processQueue_loop, prims_emitProgress, rtc_once.
  by apply (prim_new s job).
Qed.

(** A transition of the engine is a finite sequence of elementary changes. *)
Lemma step_prims basename e s s' : step basename e s = Some s' → rtc prim s s'.
Proof.
  intros H.
  destruct e as [p b x stat | b k p n | i | i | i | | | d | t | t hb | t n
                 | t n | t | t m | t | ps]; cbn [step] in H.
  - apply (inj Some) in H. subst s'. unfold enqueueUpload.
    rewrite (surjective_pairing (generateId s)).
    by apply prims_enqueue.
  - apply (inj Some) in H. subst s'. unfold enqueueDownload.
    rewrite (surjective_pairing (generateId s)).
    by apply prims_enqueue.
  - injection H as <-. unfold cancelTransfer. case_match; [|done].
    apply prims_emitProgressAt, prims_abort_controller, prims_update_job; [|done].
    intros j _. apply js_cancel.
  - injection H as <-. unfold pauseTransfer. case_match; [|done].
    case_bool_decide as Hst; [|done].
    apply prims_emitProgressAt, prims_set_activeCount, prims_abort_controller,
      prims_update_job; [|done].
    intros j Hj. apply js_pause.
    apply status_at_Some in Hst as (j' & Hj' & <-). congruence.
  - injection H as <-. unfold resumeTransfer. case_match; [|done].
    case_bool_decide as Hst; [|done].
    apply prims_processQueue_loop, prims_emitProgressAt, prims_update_job; [|done].
    intros j Hj. apply js_resume.
    apply status_at_Some in Hst as (j' & Hj' & <-). congruence.
  - injection H as <-. by apply prims_clearCompleted.
  - injection H as <-. apply rtc_once, prim_subscribe.
  - injection H as <-. apply rtc_once, prim_tick.
  - unfold exec_registered in H. exec_open H tk job Htk Hjob Hph.
    injection H as <-. by apply prims_update_task, prims_set_abortControllers.
  - unfold exec_responded in H. exec_open H tk job Htk Hjob Hph.
    destruct hb; injection H as <-.
    + by apply prims_update_task.
    + by apply prims_exec_finally, prims_exec_catch.
  - unfold exec_progress in H. exec_open H tk job Htk Hjob Hph.
    case_bool_decide as Hc; injection H as <-; [done|].
    apply prims_emitProgressAt, prims_update_job; [|done].
    intros j Hj. apply js_progress. congruence.
  - unfold exec_data in H. exec_open H tk job Htk Hjob Hph.
    case_bool_decide as Hc; injection H as <-; [done|].
    apply prims_emitProgressAt, prims_update_job; [|by apply prims_update_task].
    intros j Hj. apply js_progress. simpl in Hj. congruence.
  - unfold exec_done in H. exec_open H tk job Htk Hjob Hph.
    injection H as <-. apply prims_exec_finally.
    case_bool_decide as Hc; [done|].
    apply prims_emitProgressAt, prims_update_job; [|done].
    intros j Hj. assert (j = job) as -> by congruence.
    destruct (direction job) eqn:Hd;
      [by apply js_complete_upload | by apply js_complete_download].
  - unfold exec_failed in H. exec_open H tk job Htk Hjob Hph.
    injection H as <-.
    apply prims_exec_finally, prims_exec_catch; [apply default_message_nonempty | done].
  - unfold exec_completion in H. exec_open H tk job Htk Hjob Hph.
    injection H as <-.
    by apply prims_processQueue_loop, prims_pruneQueue, prims_set_activeCount,
      prims_update_task.
  - injection H as <-. apply rtc_once, prim_settings.
Qed.

(** An invariant of the elementary changes is an invariant of the runs. *)
Lemma run_prims basename (I : Engine → Prop) :
  (∀ x x', I x → prim x x' → I x') →
  ∀ es s s', I s → run basename es s = Some s' → I s'.
Proof.
  intros Hprim. apply run_invariant. intros e x x' Hx Hstep.
  apply step_prims in Hstep. induction Hstep; eauto.
Qed.

(** ** What a run does to one job *)

Lemma prim_job_at x x' l j :
  prim x x' → heap x !! l = Some j →
  ∃ j', heap x' !! l = Some j' ∧ rtc job_step j j'.
Proof.
  intros Hp Hj. destruct Hp; simpl; try (exists j; split; [done | apply rtc_refl]).
  - destruct (decide (l0 = l)) as [->|Hne].
    + exists (f j). rewrite list_lookup_alter_eq, Hj. split; [done|].
      apply rtc_once; auto.
    + exists j. rewrite list_lookup_alter_ne by done. split; [done | apply rtc_refl].
  - exists j. split; [by apply lookup_app_l_Some | apply rtc_refl].
Qed.

Lemma run_job_at basename es s s' l j :
  run basename es s = Some s' → heap s !! l = Some j →
  ∃ j', heap s' !! l = Some j' ∧ rtc job_step j j'.
Proof.
  intros Hrun Hj.
  apply (run_prims basename
           (λ x, ∃ j', heap x !! l = Some j' ∧ rtc job_step j j') ) with es s;
    [|exists j; split; [done | apply rtc_refl]|done].
  intros x x' (j1 & Hj1 & R1) Hp.
  destruct (prim_job_at x x' l j1 Hp Hj1) as (j2 & Hj2 & R2).
  exists j2. split; [done | by etrans].
Qed.

Lemma job_step_identity j j' : job_step j j' → same_identity j j'.
Proof. intros H. destruct H; by repeat split. Qed.

Lemma job_steps_identity j j' : rtc job_step j j' → same_identity j j'.
Proof.
  induction 1 as [|j1 j2 j3 H12 _ IH]; [by repeat split|].
  apply job_step_identity in H12.
  destruct H12 as (?&?&?&?&?&?), IH as (?&?&?&?&?&?).
  repeat split; congruence.
Qed.

Lemma job_steps_cancelled j j' :
  rtc job_step j j' → status j = cancelled → status j' = cancelled.
Proof. induction 1; eauto using job_step_cancelled. Qed.

Lemma job_step_terminal j j' :
  job_step j j' → isTerminal (status j) = true → isTerminal (status j') = true.
Proof.
  intros H Ht. destruct H; simpl; try done.
  all: match goal with E : status _ = _ |- _ => rewrite E in Ht end; done.
Qed.

(** X7. Whatever happens afterwards (further API calls, events of its
    executor, time), a cancelled job stays cancelled. *)
Theorem cancelled_is_final (basename : string → string) (es : list Event)
    (s s' : Engine) (l : nat) :
  run basename es s = Some s' →
  has_status s l cancelled → has_status s' l cancelled.
Proof.
  unfold has_status. intros Hrun Hst.
  apply status_at_Some in Hst as (j & Hj & Hc).
  destruct (run_job_at basename es s s' l j Hrun Hj) as (j' & Hj' & R).
  apply status_at_Some. exists j'. split; [done|]. by eapply job_steps_cancelled.
Qed.

Lemma cancelled_is_final_witness :
  has_status (after [Done 0; Completion 0] cancelled_upload) 0 cancelled.
Proof.
  apply (cancelled_is_final posix_basename [Done 0; Completion 0] cancelled_upload).
  - vm_compute. reflexivity.
  - vm_compute. reflexivity.
Defined.

(** X8. No run changes the identity of a job object: its id, direction,
    local path, bucket, key and file size are those it was created with. *)
Theorem job_identity_is_kept (basename : string → string) (es : list Event)
    (s s' : Engine) (l : nat) (j : TransferJob) :
  run basename es s = Some s' → heap s !! l = Some j →
  ∃ j', heap s' !! l = Some j' ∧ same_identity j j'.
Proof.
  intros Hrun Hj.
  destruct (run_job_at basename es s s' l j Hrun Hj) as (j' & Hj' & R).
  exists j'. split; [done | by apply job_steps_identity].
Qed.

Lemma job_identity_is_kept_witness :
  ∃ j', heap (after [Done 0; Completion 0] cancelled_upload) !! 0%nat = Some j' ∧
        same_identity
          (mkJob "transfer-0-1" upload "/data/a.bin" "bucket" "in/a.bin" 10 0
                 (inject_Z 0) cancelled None (Some 0) None) j'.
Proof.
  apply (job_identity_is_kept posix_basename [Done 0; Completion 0] cancelled_upload).
  - vm_compute. reflexivity.
  - vm_compute. reflexivity.
Defined.

(** X9. The queue never loses a live job: along every run, a queued job is
    still queued unless it is in a terminal status. Only [pruneQueue] and
    [clearCompleted] remove entries, and they remove terminal ones. *)
Theorem live_jobs_stay_queued (basename : string → string) (es : list Event)
    (s s' : Engine) (l : nat) :
  run basename es s = Some s' → l ∈ queue s →
  l ∈ queue s' ∨ terminal_at (heap s') l.
Proof.
  intros Hrun Hl.
  apply (run_prims basename (λ x, l ∈ queue x ∨ terminal_at (heap x) l)) with es s;
    [|by left|done].
  clear. intros x x' Hx Hp.
  assert (∀ h, (∀ j, heap x !! l = Some j →
                  ∃ j', h !! l = Some j' ∧ rtc job_step j j') →
               terminal_at (heap x) l → terminal_at h l) as Hterm.
  { intros h Hh Ht. unfold terminal_at, status_at in *.
    destruct (heap x !! l) as [j|] eqn:Hj; [|done]. simpl in Ht.
    destruct (Hh j eq_refl) as (j' & -> & R). simpl.
    apply Is_true_true. apply Is_true_true in Ht.
    clear -R Ht. induction R; eauto using job_step_terminal. }
  pose proof (λ j, prim_job_at x x' l j Hp) as Hat.
  destruct Hp as [x0 l0 f Hf|x0 ts|x0 n|x0 m|x0 tbl log|x0 st|x0|x0 d
                 |x0 q Hsub Honly|x0 job Hfresh Hid]; simpl in *; try done.
  - destruct Hx as [Hx|Hx]; [by left | right; by apply Hterm].
  - destruct Hx as [Hx|Hx]; [|by right]. by apply Honly.
  - destruct Hx as [Hx|Hx]; [left; set_solver | right; by apply Hterm].
Qed.

Lemma live_jobs_stay_queued_witness :
  0%nat ∈ queue (after [Done 0; Completion 0] cancelled_upload)
  ∨ terminal_at (heap (after [Done 0; Completion 0] cancelled_upload)) 0.
Proof.
  apply (live_jobs_stay_queued posix_basename [Done 0; Completion 0] cancelled_upload).
  - vm_compute. reflexivity.
  - vm_compute. left.
Defined.

(** ** Job ids *)

Lemma nodash_pretty_N_go x s : nodash s → nodash (pretty_N_go x s).
Proof.
  revert s. induction (N.lt_wf_0 x) as [x _ IH]; intros s Hs.
  assert (x = 0 ∨ 0 < x)%N as [->|Hpos] by lia.
  - by rewrite pretty_N_go_0.
  - rewrite pretty_N_go_step by done. apply IH; [by apply N.div_lt|].
    split; [|done]. unfold pretty_N_char. by repeat case_match.
Qed.

Lemma nodash_pretty_Z (n : Z) : 0 ≤ n → nodash (pretty n).
Proof.
  intros Hn. destruct n as [|p|p]; [by split | | lia].
  unfold pretty, pretty_Z, pretty, pretty_positive, pretty, pretty_N.
  case_decide; [done|]. by apply nodash_pretty_N_go.
Qed.

Lemma nodash_app_dash a b : ¬ nodash (a +:+ "-" +:+ b).
Proof. induction a as [|c a IH]; simpl; [intros [? _]; done | tauto]. Qed.

(** What follows the last dash of a string. *)
Lemma after_last_dash a a' b b' :
  nodash b → nodash b' → a +:+ "-" +:+ b = a' +:+ "-" +:+ b' → b = b'.
Proof.
  intros Hb Hb'. revert a'. induction a as [|c a IH]; intros [|c' a'] H.
  - by injection H.
  - injection H as H1 H2. change (b = a' +:+ "-" +:+ b') in H2. rewrite H2 in Hb.
    by destruct (nodash_app_dash a' b').
  - injection H as H1 H2. change (a +:+ "-" +:+ b = b') in H2. rewrite <- H2 in Hb'.
    by destruct (nodash_app_dash a b).
  - injection H as H1 H2. by eapply IH.
Qed.

Lemma generated_id_number (t t' n n' : Z) :
  0 ≤ n → 0 ≤ n' →
  "transfer-" +:+ pretty t +:+ "-" +:+ pretty n
    = "transfer-" +:+ pretty t' +:+ "-" +:+ pretty n' →
  n = n'.
Proof.
  intros Hn Hn' H. apply (inj (String.app "transfer-")) in H.
  apply after_last_dash in H; [|by apply nodash_pretty_Z..].
  by apply (inj pretty) in H.
Qed.

Lemma prim_ids_inv x x' : ids_inv x → prim x x' → ids_inv x'.
Proof.
  intros [Hc Hids] Hp.
  destruct Hp as [x0 l0 f Hf|x0 ts|x0 n|x0 m|x0 tbl log|x0 st|x0|x0 d
                 |x0 q Hsub Honly|x0 job Hfresh Hid]; try done.
  - split; [simpl; by rewrite length_alter|]. simpl. intros l j Hj.
    destruct (decide (l0 = l)) as [->|Hne].
    + rewrite list_lookup_alter_eq in Hj.
      destruct (heap x0 !! l) as [j0|] eqn:Hj0; [|done]. injection Hj as <-.
      destruct (Hids l j0 Hj0) as (t & Ht). exists t. rewrite <- Ht.
      apply job_step_identity. by apply Hf.
    + rewrite list_lookup_alter_ne in Hj by done. by apply Hids.
  - split; [simpl; rewrite length_app; simpl; lia|]. simpl. intros l j Hj.
    apply lookup_app_Some in Hj as [Hj|[Hlen Hj]]; [by apply Hids|].
    apply list_lookup_singleton_Some in Hj as [Hl ->].
    exists (clock x0). rewrite Hid. unfold generateId, Date_now. simpl.
    rewrite Hc. do 4 f_equal. lia.
Qed.

Lemma reachable_ids_inv basename st s : reachable basename st s → ids_inv s.
Proof.
  intros [es Hes]. apply (run_prims basename ids_inv) with es (init st);
    [intros x x'; apply prim_ids_inv | | done].
  split; [done|]. intros l j Hj. done.
Qed.

Lemma heap_ids_unique basename st s l1 l2 j1 j2 :
  reachable basename st s →
  heap s !! l1 = Some j1 → heap s !! l2 = Some j2 → id j1 = id j2 → l1 = l2.
Proof.
  intros Hr H1 H2 Hid. apply reachable_ids_inv in Hr as [_ Hids].
  destruct (Hids l1 j1 H1) as (t1 & E1), (Hids l2 j2 H2) as (t2 & E2).
  rewrite E1, E2 in Hid. apply generated_id_number in Hid; lia.
Qed.

(** X10. Job ids are unique: in every reachable state two distinct job
    objects have distinct ids, whatever the clock showed when they were
    created (the counter in the id tells them apart). *)
Theorem job_ids_are_unique (basename : string → string) (st : TransferSettings)
    (s : Engine) (l1 l2 : nat) (j1 j2 : TransferJob) :
  reachable basename st s → l1 ≠ l2 →
  heap s !! l1 = Some j1 → heap s !! l2 = Some j2 → id j1 ≠ id j2.
Proof.
  intros Hr Hne H1 H2 Hid. apply Hne. by eapply (heap_ids_unique basename st s).
Qed.

Lemma reachable_after es st :
  is_Some (run posix_basename es (init st)) →
  reachable posix_basename st (after es (init st)).
Proof. intros [s Hs]. exists es. unfold after. by rewrite Hs. Qed.

Lemma job_ids_are_unique_witness :
  ∃ j1 j2, heap (after two_uploads (init default_settings)) !! 0%nat = Some j1 ∧
           heap (after two_uploads (init default_settings)) !! 1%nat = Some j2 ∧
           id j1 ≠ id j2.
Proof.
  eexists _, _. split; [vm_compute; reflexivity|]. split; [vm_compute; reflexivity|].
  apply (job_ids_are_unique posix_basename default_settings
           (after two_uploads (init default_settings)) 0 1).
  - apply reachable_after. vm_compute. eexists. reflexivity.
  - lia.
  - vm_compute. reflexivity.
  - vm_compute. reflexivity.
Defined.

(** X11. Looking a queued job up by its own id finds that job: in every
    reachable state, [queue.find(j => j.id === jobId)] with the id of a
    queued job returns this very object, so [cancelTransfer],
    [pauseTransfer] and [resumeTransfer] act on the job that was named. *)
Theorem find_job_by_own_id (basename : string → string) (st : TransferSettings)
    (s : Engine) (l : nat) (j : TransferJob) :
  reachable basename st s → l ∈ queue s → heap s !! l = Some j →
  find_job s (id j) = Some l.
Proof.
  intros Hr Hl Hj. unfold find_job.
  destruct (List.find _ (queue s)) as [l'|] eqn:Hf.
  - apply find_some in Hf as [_ Hp]. apply bool_decide_eq_true in Hp.
    destruct (heap s !! l') as [j'|] eqn:Hj'; [|done]. injection Hp as Hid.
    f_equal. by eapply (heap_ids_unique basename st s).
  - apply list_elem_of_In in Hl. eapply find_none in Hf; [|exact Hl].
    apply bool_decide_eq_false in Hf. by rewrite Hj in Hf.
Qed.

Lemma find_job_by_own_id_witness :
  find_job (after two_uploads (init default_settings)) "transfer-0-2" = Some 1%nat.
Proof.
  apply (find_job_by_own_id posix_basename default_settings
           (after two_uploads (init default_settings)) 1
           (mkJob "transfer-0-2" upload "/data/b.bin" "bucket" "in/b.bin" 10 0
                  (inject_Z 0) active None (Some 0) None)).
  - apply reachable_after. vm_compute. eexists. reflexivity.
  - vm_compute. right. left.
  - vm_compute. reflexivity.
Defined.

(** ** Invariants of the reachable states *)

(** X12. As long as no job is paused and the settings are left alone, the
    number of active jobs never exceeds [concurrentThreads]: the dispatcher
    guard and the release of the slot by the [.finally] callback keep
    [activeCount] equal to the number of executors in flight. *)
Theorem budget_holds_without_pause (basename : string → string)
    (st : TransferSettings) (es : list Event) (s : Engine) :
  0 ≤ concurrentThreads st →
  Forall keeps_budget es →
  run basename es (init st) = Some s →
  Z.of_nat (length (active_jobs s)) ≤ concurrentThreads st.
Proof. apply pause_free_budget. Qed.

Lemma budget_holds_without_pause_witness :
  Z.of_nat (length (active_jobs (after three_on_two_slots (init two_slots)))) ≤ 2.
Proof.
  apply (budget_holds_without_pause posix_basename two_slots three_on_two_slots).
  - simpl. lia.
  - repeat constructor.
  - vm_compute. reflexivity.
Defined.

(** X13. In every reachable state, any two snapshots delivered to the
    subscriber for the same job id, both at a non-terminal status, are at
    least 100 ms apart. *)
Theorem progress_is_rate_limited (basename : string → string)
    (st : TransferSettings) (s : Engine) :
  reachable basename st s → rate_limited (delivered s).
Proof. apply reachable_rate_limited. Qed.

Lemma progress_is_rate_limited_witness :
  rate_limited (delivered (after observed_progress (init default_settings))).
Proof.
  apply (progress_is_rate_limited posix_basename default_settings).
  apply reachable_after. vm_compute. eexists. reflexivity.
Defined.

(** X14. In every reachable state a job in status [failed] carries a
    non-empty error message. *)
Theorem failed_job_has_error (basename : string → string)
    (st : TransferSettings) (s : Engine) (l : nat) (j : TransferJob) :
  reachable basename st s → heap s !! l = Some j → status j = failed →
  ∃ m, error j = Some m ∧ m ≠ "".
Proof.
  intros Hr Hj Hf.
  pose proof (reachable_failed_has_error basename st s Hr) as Hall.
  by eapply Forall_lookup_1 in Hall; [apply Hall|].
Qed.

Lemma failed_job_has_error_witness :
  ∃ m, error (mkJob "transfer-0-1" upload "/data/a.bin" "bucket" "in/a.bin" 10 0
                    (inject_Z 0) failed (Some "socket hang up") (Some 0) None)
         = Some m ∧ m ≠ "".
Proof.
  apply (failed_job_has_error posix_basename default_settings
           (after upload_fails (init default_settings)) 0).
  - apply reachable_after. vm_compute. eexists. reflexivity.
  - vm_compute. reflexivity.
  - reflexivity.
Defined.

(** X15. In every reachable state an active or paused job has its
    [startedAt] stamp, and a completed job has its [completedAt] stamp. *)
Theorem stamps_are_set (basename : string → string)
    (st : TransferSettings) (s : Engine) (l : nat) (j : TransferJob) :
  reachable basename st s → heap s !! l = Some j →
  (status j = active ∨ status j = paused → is_Some (startedAt j)) ∧
  (status j = completed → is_Some (completedAt j)).
Proof.
  intros Hr Hj.
  pose proof (reachable_jobs basename
    (λ j, (status j = active ∨ status j = paused → is_Some (startedAt j)) ∧
          (status j = completed → is_Some (completedAt j))) st s) as Hall.
  eapply Forall_lookup_1 in Hall; [exact Hall| | |exact Hr|exact Hj].
  - intros j0 (Hst & _). rewrite Hst. split; [intros [?|?]; done | done].
  - intros j1 j2 [H1 H2] Hstep.
    destruct Hstep; simpl; (split; [intros [?|?] | intros ?]);
      try done; try (by eexists); try (apply H1; auto); try (by apply H2).
    all: congruence.
Qed.

Lemma stamps_are_set_witness :
  is_Some (startedAt (mkJob "transfer-0-2" upload "/data/b.bin" "bucket" "in/b.bin"
                            10 0 (inject_Z 0) active None (Some 0) None)).
Proof.
  apply (stamps_are_set posix_basename default_settings
           (after two_uploads (init default_settings)) 1).
  - apply reachable_after. vm_compute. eexists. reflexivity.
  - vm_compute. reflexivity.
  - by left.
Defined.

(** X16. A terminal job (completed, failed or cancelled) stays terminal along
    every run: no operation of the engine brings it back to pending, active
    or paused, so it is never dispatched again. *)
Theorem terminal_is_absorbing (basename : string → string) (es : list Event)
    (s s' : Engine) (l : nat) :
  run basename es s = Some s' →
  terminal_at (heap s) l → terminal_at (heap s') l.
Proof.
  intros Hrun Ht. unfold terminal_at, status_at in *.
  destruct (heap s !! l) as [j|] eqn:Hj; [|done]. simpl in Ht.
  destruct (run_job_at basename es s s' l j Hrun Hj) as (j' & -> & R). simpl.
  apply Is_true_true. apply Is_true_true in Ht.
  clear -R Ht. induction R; eauto using job_step_terminal.
Qed.

Lemma terminal_is_absorbing_witness :
  terminal_at (heap (after [ResumeTransfer "transfer-0-1"; PauseTransfer "transfer-0-1";
                             Done 0; Completion 0] cancelled_upload)) 0.
Proof.
  apply (terminal_is_absorbing posix_basename
           [ResumeTransfer "transfer-0-1"; PauseTransfer "transfer-0-1";
            Done 0; Completion 0] cancelled_upload).
  - vm_compute. reflexivity.
  - vm_compute. exact I.
Defined.


Lemma omap_lookup_queue (h : list TransferJob) (q : list nat) :
  (∀ l, l ∈ q → (l < length h)%nat) →
  Forall2 (λ l j, h !! l = Some j) q (omap (λ l, h !! l) q).
Proof.
  induction q as [|l q IH]; intros Hlt; [constructor|].
  cbn [omap list_omap]. destruct (lookup_lt_is_Some_2 h l) as [j Hj].
  { apply Hlt. left. }
  rewrite Hj. constructor; [done|]. apply IH. intros l' Hl'. apply Hlt. by right.
Qed.

(** X18. [getQueue] in a reachable state: the snapshot has one entry per
    queue position, entry [i] being the job object queued at position [i],
    and no two entries have the same id. *)
Theorem getQueue_snapshot (basename : string → string) (st : TransferSettings)
    (s : Engine) :
  reachable basename st s →
  Forall2 (λ l j, heap s !! l = Some j) (queue s) (getQueue s) ∧
  NoDup (id <$> getQueue s).
Proof.
  intros Hr. destruct (reachable_queue_wf basename st s Hr) as [Hnd Hlt].
  pose proof (omap_lookup_queue (heap s) (queue s) Hlt) as HF.
  split; [exact HF|]. unfold getQueue.
  revert HF Hnd. generalize (omap (λ l, heap s !! l) (queue s)) as js.
  generalize (queue s) as q. clear Hlt.
  intros q js HF. induction HF as [|l j q js Hj HF IH]; intros Hnd.
  - constructor.
  - apply NoDup_cons in Hnd as [Hl Hnd]. rewrite fmap_cons.
    apply NoDup_cons. split; [|by apply IH].
    intros Hin. apply list_elem_of_fmap in Hin as (j' & Hid & Hj').
    apply list_elem_of_lookup in Hj' as (i & Hi).
    destruct (Forall2_lookup_r _ _ _ _ _ HF Hi) as (l' & Hl' & Hjl').
    assert (l = l') as <- by (by eapply (heap_ids_unique basename st s)).
    apply Hl. by eapply list_elem_of_lookup_2.
Qed.

Lemma getQueue_snapshot_witness :
  Forall2 (λ l j, heap (after two_uploads (init default_settings)) !! l = Some j)
          (queue (after two_uploads (init default_settings)))
          (getQueue (after two_uploads (init default_settings))) ∧
  NoDup (id <$> getQueue (after two_uploads (init default_settings))).
Proof.
  apply (getQueue_snapshot posix_basename default_settings).
  apply reachable_after. vm_compute. eexists. reflexivity.
Defined.

(** ** The IPC handlers *)








Section UploadFiles.

Variable basename : string → string.
Variables bucket prefix : string.


End UploadFiles.



Section DownloadFiles.

Variable basename : string → string.
Variable join : string → string → string.

Lemma download_target_inr dir item p :
  download_target basename join dir item = inr p →
  p = join dir (basename (item_key item)) ∧ String.prefix dir p = true.
Proof.
  unfold download_target. intros H.
  destruct (_ || _); [done|].
  destruct (String.prefix dir (join dir (basename (item_key item)))) eqn:Hp; [|done].
  simpl in H. injection H as <-. done.
Qed.

Lemma run_download_cons dir item items s :
  run basename (download_event basename join dir <$> item :: items) s
  = run basename (download_event basename join dir <$> items)
        (enqueueDownload (item_bucket item) (item_key item)
           (join dir (basename (item_key item))) (item_size item) s).2.
Proof. reflexivity. Qed.

(** The items that pass the tests are enqueued one after the other; what
    the handler answers is decided by the rest of the list. *)
Lemma map_enqueueDownload_good dir (good rest : list DownloadItem) : ∀ s,
  Forall (λ item, ∃ p, download_target basename join dir item = inr p) good →
  ∃ s1, run basename (download_event basename join dir <$> good) s = Some s1 ∧
        queue s1 = queue s ++ seq (length (heap s)) (length good) ∧
        length (heap s1) = (length (heap s) + length good)%nat ∧
        map_enqueueDownload basename join dir (good ++ rest) s =
          match map_enqueueDownload basename join dir rest s1 with
          | (Resolved jobs, s2) =>
              (Resolved (seq (length (heap s)) (length good) ++ jobs), s2)
          | (Rejected message, s2) => (Rejected message, s2)
          end.
Proof.
  induction good as [|item good IH]; intros s Hgood.
  - exists s. simpl. rewrite app_nil_r, Nat.add_0_r. repeat split; try done.
    destruct (map_enqueueDownload basename join dir rest s) as [[jobs|m] s2];
      reflexivity.
  - apply Forall_cons in Hgood as [[p Hp] Hgood].
    destruct (download_target_inr dir item p Hp) as [-> _].
    rewrite run_download_cons. cbn [app map_enqueueDownload]. rewrite Hp.
    unfold enqueueDownload. cbn [generateId].
    set (x := set_jobIdCounter (jobIdCounter s + 1) s).
    match goal with |- context [enqueue ?j x] => set (job := j) end.
    destruct (enqueue_queue job x) as (Hl0 & Hq & Hlen).
    destruct (enqueue job x) as [l0 s1]. cbn [fst snd] in *.
    change (heap x) with (heap s) in *. change (queue x) with (queue s) in *.
    destruct (IH s1 Hgood) as (s2 & Hrun & Hq2 & Hlen2 & Hmap).
    exists s2. split; [done|]. rewrite Hq2, Hq, Hlen2, Hlen, Hmap, Hlen, <- app_assoc.
    subst l0. split; [done|]. split; [simpl; lia|].
    destruct (map_enqueueDownload basename join dir rest s2) as [[jobs|m] s3];
      reflexivity.
Qed.


End DownloadFiles.

(** X20. [DOWNLOAD_FILES] is not atomic. When the items [good] pass the tests
    of the handler and the next item [bad] does not, the call is rejected
    with the message for [bad], and the downloads of [good] have been
    enqueued all the same: the state is the one reached by calling
    [enqueueDownload] for each item of [good], and the queue has grown by
    one job per item of [good]. *)
Theorem download_files_rejected_partway (basename : string → string)
    (join : string → string → string) (resolve trim : string → string)
    (good : list DownloadItem) (bad : DownloadItem) (rest : list DownloadItem)
    (localDir message : string) (s : Engine) :
  trim localDir ≠ "" →
  Forall (λ item, ∃ p, download_target basename join (resolve localDir) item = inr p)
         good →
  download_target basename join (resolve localDir) bad = inl message →
  ∃ s', DOWNLOAD_FILES basename join resolve trim (good ++ bad :: rest) localDir s
          = (Rejected message, s') ∧
        run basename (download_event basename join (resolve localDir) <$> good) s
          = Some s' ∧
        queue s' = queue s ++ seq (length (heap s)) (length good).
Proof.
  intros Hdir Hgood Hbad. unfold DOWNLOAD_FILES.
  rewrite (proj2 (String.eqb_neq _ _)) by done.
  destruct (map_enqueueDownload_good basename join (resolve localDir) good (bad :: rest)
              s Hgood) as (s1 & Hrun & Hq & _ & Hmap).
  exists s1. rewrite Hmap. cbn [map_enqueueDownload]. rewrite Hbad. done.
Qed.

Lemma download_files_rejected_partway_witness :
  ∃ s', DOWNLOAD_FILES posix_basename posix_join resolve_absolute ascii_trim
          three_items "/home/me" (init default_settings)
          = (Rejected "Invalid object key: in/sub/..", s') ∧
        run posix_basename
            (download_event posix_basename posix_join "/home/me"
               <$> [mkItem "bucket" "in/a.bin" 10]) (init default_settings)
          = Some s' ∧
        queue s' = [0%nat].
Proof.
  apply (download_files_rejected_partway posix_basename posix_join resolve_absolute
           ascii_trim [mkItem "bucket" "in/a.bin" 10] (mkItem "bucket" "in/sub/.." 20)
           [mkItem "bucket" "in/c.bin" 30] "/home/me" "Invalid object key: in/sub/.."
           (init default_settings)).
  - vm_compute. discriminate.
  - repeat constructor. eexists. vm_compute. reflexivity.
  - vm_compute. reflexivity.
Defined.





(** ** The subscriber of the renderer *)

Lemma findIndex_Some {A} (f : A → bool) (l : list A) (i : nat) :
  findIndex f l = Some i → ∃ x, l !! i = Some x ∧ f x = true.
Proof.
  revert i. induction l as [|a l IH]; intros i H; [done|]. cbn [findIndex] in H.
  destruct (f a) eqn:Hfa.
  - injection H as <-. by exists a.
  - destruct (findIndex f l) as [k|]; [|done]. injection H as <-.
    destruct (IH k eq_refl) as (x & Hx & Hfx). by exists x.
Qed.

Lemma findIndex_None {A} (f : A → bool) (l : list A) :
  findIndex f l = None → ∀ x, x ∈ l → f x = false.
Proof.
  induction l as [|a l IH]; intros H x Hx; [by apply elem_of_nil in Hx|].
  cbn [findIndex] in H. destruct (f a) eqn:Hfa; [done|].
  destruct (findIndex f l) as [k|]; [done|].
  apply elem_of_cons in Hx as [->|Hx]; [done | by apply IH].
Qed.

Lemma onTransferProgress_ids job prev :
  NoDup (id <$> prev) → NoDup (id <$> onTransferProgress job prev).
Proof.
  intros Hnd. unfold onTransferProgress.
  destruct (findIndex _ prev) as [idx|] eqn:Hf.
  - apply findIndex_Some in Hf as (x & Hx & Hid). apply String.eqb_eq in Hid.
    rewrite list_fmap_insert, <- Hid, list_insert_id; [done|].
    by rewrite list_lookup_fmap, Hx.
  - rewrite fmap_app. apply NoDup_app. split; [done|]. split; [|apply NoDup_singleton].
    intros i Hi Hi'. apply list_elem_of_singleton in Hi'. subst i.
    apply list_elem_of_fmap in Hi as (x & Hid & Hx).
    pose proof (findIndex_None _ _ Hf x Hx) as Hne. apply String.eqb_neq in Hne. done.
Qed.

Lemma onTransferProgress_elem job prev j :
  NoDup (id <$> prev) →
  j ∈ onTransferProgress job prev ↔ j = job ∨ (j ∈ prev ∧ id j ≠ id job).
Proof.
  intros Hnd. unfold onTransferProgress.
  destruct (findIndex _ prev) as [idx|] eqn:Hf.
  - apply findIndex_Some in Hf as (x & Hx & Hid). apply String.eqb_eq in Hid.
    split.
    + intros (k & Hk)%list_elem_of_lookup.
      apply list_lookup_insert_Some in Hk as [(_ & -> & _)|(Hne & Hk)]; [by left|].
      right. split; [by eapply list_elem_of_lookup_2|].
      intros Hj. apply Hne. apply (NoDup_lookup (id <$> prev) idx k (id job)); [done| |].
      * by rewrite list_lookup_fmap, Hx, <- Hid.
      * by rewrite list_lookup_fmap, Hk, <- Hj.
    + intros [->|[(k & Hk)%list_elem_of_lookup Hne]].
      * apply list_elem_of_lookup. exists idx. apply list_lookup_insert_eq.
        by eapply lookup_lt_Some.
      * apply list_elem_of_lookup. exists k. rewrite list_lookup_insert_ne; [done|].
        intros ->. congruence.
  - rewrite elem_of_app, list_elem_of_singleton. split.
    + intros [Hj| ->]; [|by left]. right. split; [done|].
      pose proof (findIndex_None _ _ Hf j Hj) as Hne. by apply String.eqb_neq in Hne.
    + intros [->|[Hj _]]; [by right | by left].
Qed.

Lemma transfers_after_snoc jobs job :
  transfers_after (jobs ++ [job]) = onTransferProgress job (transfers_after jobs).
Proof. unfold transfers_after. by rewrite foldl_app. Qed.

Lemma transfers_after_ids jobs : NoDup (id <$> transfers_after jobs).
Proof.
  induction jobs as [|job jobs IH] using rev_ind; [constructor|].
  rewrite transfers_after_snoc. by apply onTransferProgress_ids.
Qed.

(** X23. What the renderer shows. After any sequence of progress events, the
    list kept by the subscriber has at most one entry per job id, and a
    snapshot is in the list exactly when it is the most recent one received
    for its id. *)
Theorem renderer_shows_latest (jobs : list TransferJob) :
  NoDup (id <$> transfers_after jobs) ∧
  ∀ j, j ∈ transfers_after jobs ↔
       List.find (λ t, String.eqb (id t) (id j)) (reverse jobs) = Some j.
Proof.
  split; [apply transfers_after_ids|].
  induction jobs as [|job jobs IH] using rev_ind; intros j.
  - simpl. split; [by intros ?%elem_of_nil | done].
  - rewrite transfers_after_snoc, reverse_snoc.
    rewrite onTransferProgress_elem by apply transfers_after_ids.
    cbn [List.find]. destruct (String.eqb (id job) (id j)) eqn:He.
    + apply String.eqb_eq in He. split.
      * intros [->|[_ Hne]]; [done | congruence].
      * intros [= ->]. by left.
    + apply String.eqb_neq in He. rewrite <- IH. split.
      * intros [->|[Hj _]]; [done | done].
      * intros Hj. right. split; [done | congruence].
Qed.

(** ** Bucket regions and regional clients *)

Lemma truthy_Some x : truthy x = true → ∃ v, x = Some v ∧ v ≠ "".
Proof.
  destruct x as [v|]; [|done]. simpl. intros H. exists v. split; [done|].
  intros ->. done.
Qed.

Lemma normalizeRegion_nonempty lc : normalizeRegion lc ≠ "".
Proof.
  unfold normalizeRegion. destruct (truthy lc) eqn:Ht; simpl; [|done].
  destruct (String.eqb _ "EU"); [done|].
  apply truthy_Some in Ht as (v & -> & Hv). done.
Qed.

Lemma createS3Client_region profile r :
  r ≠ "" → createS3Client profile (Some r) = mkClient r (profile_credentials profile).
Proof.
  intros Hr. unfold createS3Client. simpl.
  by rewrite (proj2 (String.eqb_neq r "")).
Qed.

Lemma aws_inv_response bucket resp a :
  aws_inv a → aws_inv (getBucketRegion_response bucket resp a).2.
Proof.
  intros Ha. pose proof Ha as [Hc Hr]. unfold getBucketRegion_response.
  destruct resp as [lc|]; [|done]. split; [done|]. simpl.
  intros b r. rewrite lookup_insert_Some.
  intros [[_ <-]|[_ H]]; [apply normalizeRegion_nonempty | by eapply Hr].
Qed.

Lemma aws_inv_createRegionalS3Client r a :
  aws_inv a → aws_inv (createRegionalS3Client r a).2.
Proof.
  intros Ha. pose proof Ha as [Hc Hr]. unfold createRegionalS3Client.
  destruct (activeProfile a) as [p|] eqn:Hp; simpl; [|done].
  destruct (clientCache a !! r) as [cached|] eqn:Hcache; simpl; [done|].
  split; [|done]. simpl. destruct Hc as [Hs Hall].
  split; [done|]. intros r' c. rewrite lookup_insert_Some.
  intros [[<- <-]|[_ H]]; [done | by apply Hall].
Qed.

Lemma aws_inv_call c a : aws_inv a → aws_inv (aws_call c a).
Proof.
  intros Ha. destruct c as [p|b resp|r]; simpl.
  - destruct Ha as [_ Hr]. split; [|done]. simpl. split; [done|].
    intros r c H. by rewrite lookup_empty in H.
  - by apply aws_inv_response.
  - by apply aws_inv_createRegionalS3Client.
Qed.

Lemma aws_inv_calls cs : ∀ a, aws_inv a → aws_inv (aws_calls cs a).
Proof.
  unfold aws_calls. induction cs as [|c cs IH]; intros a Ha; [done|].
  simpl. apply IH. by apply aws_inv_call.
Qed.

Lemma aws_inv_init : aws_inv aws_init.
Proof. split; [by split|]. intros b r H. simpl in H. by rewrite lookup_empty in H. Qed.

(** X24. The client that an executor gets from [createRegionalS3Client].
    After any sequence of profile switches, answers to region requests and
    client requests, a call with a non-empty region either throws
    ['No active AWS profile.'] and changes nothing (exactly when no profile
    was ever selected), or yields a client for that very region with the
    credentials of the profile that is active now: a client cached for an
    earlier profile is never handed out. *)
Theorem regional_client_coherent (cs : list AwsCall) (region' : string) :
  region' ≠ "" →
  match createRegionalS3Client region' (aws_calls cs aws_init) with
  | (inl message, a') =>
      activeProfile (aws_calls cs aws_init) = None ∧
      message = "No active AWS profile." ∧ a' = aws_calls cs aws_init
  | (inr client, _) =>
      ∃ profile, activeProfile (aws_calls cs aws_init) = Some profile ∧
        client = mkClient region' (profile_credentials profile)
  end.
Proof.
  intros Hne. pose proof (aws_inv_calls cs aws_init aws_inv_init) as [Hc _].
  unfold createRegionalS3Client.
  destruct (activeProfile (aws_calls cs aws_init)) as [p|]; [|done].
  destruct Hc as [_ Hall].
  destruct (clientCache (aws_calls cs aws_init) !! region') as [cached|] eqn:Hcache.
  - exists p. split; [done|].
    rewrite (Hall region' cached Hcache). by apply createS3Client_region.
  - exists p. split; [done|]. by apply createS3Client_region.
Qed.

Lemma regional_client_coherent_witness :
  ∃ profile,
    activeProfile (aws_calls [SetActiveProfile work_profile;
                              CreateRegionalS3Client "eu-west-1";
                              SetActiveProfile home_profile] aws_init) = Some profile ∧
    mkClient "eu-west-1" (Some (mkCredentials "AKIAHOME" "secret-home" None))
      = mkClient "eu-west-1" (profile_credentials profile).
Proof.
  apply (regional_client_coherent
           [SetActiveProfile work_profile; CreateRegionalS3Client "eu-west-1";
            SetActiveProfile home_profile] "eu-west-1").
  discriminate.
Defined.

Lemma regionCache_kept c a b r :
  ¬ answers_for b c →
  regionCache a !! b = Some r → regionCache (aws_call c a) !! b = Some r.
Proof.
  intros Hc Hb. destruct c as [p|b' resp|r']; simpl.
  - done.
  - unfold getBucketRegion_response. destruct resp as [lc|]; [|done]. simpl.
    rewrite lookup_insert_ne; [done|]. intros ->. by apply Hc.
  - unfold createRegionalS3Client.
    destruct (activeProfile a); [|done]. by destruct (clientCache a !! r').
Qed.

(** X25. An entry of the region cache stays until an answer for the same
    bucket replaces it: a switch to another profile, client requests and
    answers for other buckets or without a result leave it in place, and as
    long as it is there [getBucketRegion] answers with it at once, without
    a request. (Lookups that are already under way are not held back: each
    of them sends its own request, and its answer replaces the entry.) *)
Theorem region_cache_entry_stays (cs : list AwsCall) (a : Aws) (bucket r : string) :
  regionCache a !! bucket = Some r →
  Forall (λ c, ¬ answers_for bucket c) cs →
  regionCache (aws_calls cs a) !! bucket = Some r ∧
  getBucketRegion_call bucket (aws_calls cs a) = Answered r.
Proof.
  intros Hb Hcs.
  assert (regionCache (aws_calls cs a) !! bucket = Some r) as Hb'.
  { revert a Hb. unfold aws_calls.
    induction Hcs as [|c cs Hc _ IH]; intros a Hb; [done|].
    simpl. apply IH. by apply regionCache_kept. }
  split; [done|]. unfold getBucketRegion_call. by rewrite Hb'.
Qed.

Lemma region_cache_entry_stays_witness :
  regionCache (aws_calls [SetActiveProfile home_profile; RegionResponse "photos" None;
                          RegionResponse "music" (Some (Some "ap-south-1"))]
                 (aws_calls [SetActiveProfile work_profile;
                             RegionResponse "photos" (Some (Some "EU"))] aws_init))
    !! "photos" = Some "eu-west-1" ∧
  getBucketRegion_call "photos"
    (aws_calls [SetActiveProfile home_profile; RegionResponse "photos" None;
                RegionResponse "music" (Some (Some "ap-south-1"))]
       (aws_calls [SetActiveProfile work_profile;
                   RegionResponse "photos" (Some (Some "EU"))] aws_init))
    = Answered "eu-west-1".
Proof.
  apply (region_cache_entry_stays
           [SetActiveProfile home_profile; RegionResponse "photos" None;
            RegionResponse "music" (Some (Some "ap-south-1"))]
           (aws_calls [SetActiveProfile work_profile;
                       RegionResponse "photos" (Some (Some "EU"))] aws_init)
           "photos" "eu-west-1").
  - vm_compute. reflexivity.
  - repeat constructor; simpl; try tauto. discriminate.
Defined.

Lemma normalizeRegion_cases lc :
  normalizeRegion lc =
    match lc with
    | None => "us-east-1"
    | Some v =>
        if String.eqb v "" then "us-east-1"
        else if bool_decide (v ∈ ["EU"; "Eu"; "eU"; "eu"]) then "eu-west-1"
        else v
    end.
Proof.
  unfold normalizeRegion. destruct lc as [v|]; [|done]. simpl.
  destruct (String.eqb v "") eqn:Hv; [done|]. simpl.
  destruct v as [|c1 [|c2 [|c3 v]]]; try done.
  - cbn [toUpperCase]. rewrite bool_decide_eq_false_2.
    + destruct (String.eqb _ "EU") eqn:He; [|done].
      apply String.eqb_eq in He. congruence.
    + intros Hin.
      repeat (apply elem_of_cons in Hin as [Hin|Hin]; [congruence|]).
      by apply elem_of_nil in Hin.
  - cbn [toUpperCase].
    destruct (String.eqb (String (upper_ascii c1) (String (upper_ascii c2) "")) "EU")
      eqn:He.
    + apply String.eqb_eq in He. injection He as H1 H2.
      assert (c1 = "E"%char ∨ c1 = "e"%char) as Hc1.
      { clear -H1. destruct c1 as [[] [] [] [] [] [] [] []]; try done; auto. }
      assert (c2 = "U"%char ∨ c2 = "u"%char) as Hc2.
      { clear -H2. destruct c2 as [[] [] [] [] [] [] [] []]; try done; auto. }
      destruct Hc1 as [-> | ->], Hc2 as [-> | ->]; done.
    + case_bool_decide as Hin; [|done]. exfalso.
      repeat (apply elem_of_cons in Hin as [Hin|Hin]; [by injection Hin as -> ->|]).
      by apply elem_of_nil in Hin.
  - cbn [toUpperCase]. rewrite bool_decide_eq_false_2.
    + destruct (String.eqb _ "EU") eqn:He; [|done].
      apply String.eqb_eq in He. congruence.
    + intros Hin.
      repeat (apply elem_of_cons in Hin as [Hin|Hin]; [congruence|]).
      by apply elem_of_nil in Hin.
Qed.

(** X26. [getBucketRegion] never throws and never answers the empty string,
    in any state reached by profile switches, answers and client requests.
    Before its request it answers at once from the cache, or ['us-east-1']
    when there is no client. A rejected request gives ['us-east-1'] and
    caches nothing, so that the next call asks again. An answer is
    normalised, cached and returned: ['us-east-1'] for a missing or empty
    constraint, ['eu-west-1'] for the legacy constraint EU in any case of
    its letters, the constraint itself otherwise. *)
Theorem getBucketRegion_answers (cs : list AwsCall) (bucket : string) :
  let a := aws_calls cs aws_init in
  (∀ r, getBucketRegion_call bucket a = Answered r → r ≠ "") ∧
  (s3Client a = None → regionCache a !! bucket = None →
   getBucketRegion_call bucket a = Answered "us-east-1") ∧
  getBucketRegion_response bucket None a = ("us-east-1", a) ∧
  ∀ lc,
    (getBucketRegion_response bucket (Some lc) a).1 = normalizeRegion lc ∧
    regionCache (getBucketRegion_response bucket (Some lc) a).2 !! bucket
      = Some (normalizeRegion lc) ∧
    normalizeRegion lc ≠ "" ∧
    normalizeRegion lc =
      match lc with
      | None => "us-east-1"
      | Some v =>
          if String.eqb v "" then "us-east-1"
          else if bool_decide (v ∈ ["EU"; "Eu"; "eU"; "eu"]) then "eu-west-1"
          else v
      end.
Proof.
  intros a. pose proof (aws_inv_calls cs aws_init aws_inv_init) as [_ Hr]. fold a in Hr.
  split; [|split; [|split]].
  - unfold getBucketRegion_call, getS3Client. intros r.
    destruct (regionCache a !! bucket) as [cached|] eqn:Hb.
    + intros [= <-]. by eapply Hr.
    + destruct (s3Client a); [done|]. by intros [= <-].
  - unfold getBucketRegion_call, getS3Client. by intros -> ->.
  - done.
  - intros lc. split; [done|]. split; [simpl; by rewrite lookup_insert_eq|].
    split; [apply normalizeRegion_nonempty | apply normalizeRegion_cases].
Qed.

(** ** deleteObjects *)

Lemma deleteObjects_for_spec (keys : list string) (fuel : nat) : ∀ i,
  (length keys - i ≤ fuel)%nat →
  concat (deleteObjects_for fuel i keys) = drop i keys ∧
  (deleteObjects_for fuel i keys = [] ↔ (length keys ≤ i)%nat) ∧
  (∀ k b, deleteObjects_for fuel i keys !! k = Some b →
          (1 ≤ length b ≤ 1000)%nat ∧
          ((S k < length (deleteObjects_for fuel i keys))%nat → length b = 1000%nat)) ∧
  ∀ extra, deleteObjects_for (fuel + extra) i keys = deleteObjects_for fuel i keys.
Proof.
  induction fuel as [|fuel IH]; intros i Hfuel.
  - cbn [deleteObjects_for]. rewrite drop_ge by lia.
    split; [done|]. split; [split; [lia | done]|]. split; [done|].
    intros [|extra]; [done|]. cbn [Nat.add deleteObjects_for].
    destruct (Nat.ltb_spec i (length keys)); [lia | done].
  - cbn [Nat.add deleteObjects_for].
    destruct (Nat.ltb_spec i (length keys)) as [Hlt|Hge].
    2:{ rewrite drop_ge by lia. split; [done|]. split; [split; [lia | done]|].
        split; [done | done]. }
    destruct (IH (i + 1000)%nat) as (IH1 & IH2 & IH3 & IH4); [lia|].
    assert (length (slice i (i + 1000) keys) = Nat.min 1000 (length keys - i)) as Hlen.
    { unfold slice. rewrite length_take, length_drop. lia. }
    split; [|split; [|split]].
    + cbn [concat]. rewrite IH1. unfold slice.
      replace (i + 1000 - i)%nat with 1000%nat by lia.
      rewrite <- (take_drop 1000 (drop i keys)) at 2. f_equal.
      rewrite drop_drop. done.
    + split; [done | lia].
    + intros [|k] b Hb; cbn [lookup list_lookup] in Hb.
      * injection Hb as <-. rewrite Hlen. split; [lia|].
        cbn [length]. intros Hk.
        destruct (deleteObjects_for fuel (i + 1000) keys) as [|b' bs] eqn:Hrest.
        -- simpl in Hk. lia.
        -- assert (¬ (length keys ≤ i + 1000)%nat) by (rewrite <- IH2; done). lia.
      * destruct (IH3 k b Hb) as [H1 H2]. split; [done|].
        cbn [length]. intros Hk. apply H2. lia.
    + intros extra. by rewrite IH4.
Qed.

(** X27. The requests of [deleteObjects]. The batches, put end to end, are
    the keys in their order (no key is lost, repeated or moved); every batch
    has between 1 and 1000 keys, and every batch but the last has exactly
    1000; no request is made for an empty list; and the loop that builds
    the batches ends within [length keys] iterations. *)
Theorem deleteObjects_batches_partition (keys : list string) :
  concat (deleteObjects_batches keys) = keys ∧
  (deleteObjects_batches keys = [] ↔ keys = []) ∧
  (∀ k b, deleteObjects_batches keys !! k = Some b →
          (1 ≤ length b ≤ 1000)%nat ∧
          ((S k < length (deleteObjects_batches keys))%nat → length b = 1000%nat)) ∧
  ∀ extra, deleteObjects_for (length keys + extra) 0 keys = deleteObjects_batches keys.
Proof.
  unfold deleteObjects_batches.
  destruct (deleteObjects_for_spec keys (length keys) 0) as (H1 & H2 & H3 & H4); [lia|].
  split; [done|]. split; [|done]. rewrite H2. destruct keys; simpl; split; try done; lia.
Qed.

(** ** Listings *)

Lemma listAllKeys_object_listed keys total obj :
  listAllKeys_object (keys, total) obj
  = if is_listed obj then (keys ++ [default "" (Key obj)], total + default 0 (Size obj))
    else (keys, total).
Proof. reflexivity. Qed.

Lemma listAllKeys_objects (objs : list ListedObject) : ∀ acc,
  foldl listAllKeys_object acc objs
  = (acc.1 ++ ((λ obj, default "" (Key obj)) <$> filter is_listed objs),
     acc.2 + sum_sizes (filter is_listed objs)).
Proof.
  induction objs as [|obj objs IH]; intros [keys total].
  - simpl. rewrite app_nil_r. f_equal. lia.
  - cbn [foldl]. rewrite listAllKeys_object_listed, filter_cons.
    case_decide as Hd.
    + apply Is_true_true in Hd. rewrite Hd, IH. cbn [fst snd].
      rewrite fmap_cons, <- app_assoc. f_equal. simpl. lia.
    + apply Is_true_false in Hd. by rewrite Hd, IH.
Qed.

Lemma getPrefixSize_objects (objs : list ListedObject) : ∀ acc,
  foldl getPrefixSize_object acc objs
  = (acc.1 + sum_sizes objs, acc.2 + Z.of_nat (length objs)).
Proof.
  induction objs as [|obj objs IH]; intros [bytes count].
  - simpl. f_equal; lia.
  - cbn [foldl]. rewrite IH. simpl. f_equal; lia.
Qed.

Lemma sum_sizes_app a b : sum_sizes (a ++ b) = sum_sizes a + sum_sizes b.
Proof. induction a as [|x a IH]; simpl; [done|]. rewrite IH. lia. Qed.

Lemma objects_read_cons resp rest :
  objects_read (resp :: rest)
  = default [] (Contents resp)
    ++ (if truthy (next_token resp) then objects_read rest else []).
Proof.
  unfold objects_read. cbn [pages_read fmap list_fmap concat].
  by destruct (truthy (next_token resp)).
Qed.

Lemma listAllKeys_pages_spec (pages : list ListPage) : ∀ acc,
  listAllKeys_pages pages acc
  = if forallb (λ resp, truthy (next_token resp)) pages then None
    else Some (acc.1 ++ ((λ obj, default "" (Key obj))
                           <$> filter is_listed (objects_read pages)),
               acc.2 + sum_sizes (filter is_listed (objects_read pages))).
Proof.
  induction pages as [|resp rest IH]; intros acc; [done|].
  cbn [listAllKeys_pages forallb]. rewrite objects_read_cons.
  rewrite listAllKeys_objects.
  destruct (truthy (next_token resp)); cbn [andb].
  - rewrite IH. destruct (forallb _ rest); [done|]. cbn [fst snd].
    rewrite filter_app, fmap_app, sum_sizes_app, app_assoc. f_equal. f_equal. lia.
  - by rewrite app_nil_r.
Qed.

Lemma getPrefixSize_pages_spec (pages : list ListPage) : ∀ acc,
  getPrefixSize_pages pages acc
  = if forallb (λ resp, truthy (next_token resp)) pages then None
    else Some (acc.1 + sum_sizes (objects_read pages),
               acc.2 + Z.of_nat (length (objects_read pages))).
Proof.
  induction pages as [|resp rest IH]; intros acc; [done|].
  cbn [getPrefixSize_pages forallb]. rewrite objects_read_cons.
  rewrite getPrefixSize_objects.
  destruct (truthy (next_token resp)); cbn [andb].
  - rewrite IH. destruct (forallb _ rest); [done|]. cbn [fst snd].
    rewrite sum_sizes_app, length_app. f_equal. f_equal; lia.
  - by rewrite app_nil_r.
Qed.

Lemma sum_sizes_listed (objs : list ListedObject) :
  Forall (λ obj, truthy (Key obj) = true) objs →
  sum_sizes (filter is_listed objs) = sum_sizes objs.
Proof.
  induction 1 as [|obj objs Hk _ IH]; [done|].
  rewrite filter_cons. case_decide as Hd.
  - simpl. by rewrite IH.
  - apply Is_true_false in Hd. unfold is_listed in Hd. rewrite Hk in Hd.
    cbn [andb] in Hd. apply negb_false_iff in Hd.
    unfold is_folder_marker in Hd. apply andb_true_iff in Hd as [_ Hz].
    apply Z.eqb_eq in Hz. rewrite IH. simpl. lia.
Qed.

(** X28. [listAllKeys] and [getPrefixSize] on the same responses. Both read
    the pages up to the first one that is not truncated or has no
    continuation token, and stop there. [listAllKeys] reports, in order, the
    keys of the entries read that have a key and are not folder markers, and
    the sum of their sizes; [getPrefixSize] counts every entry read. When
    every entry read has a key, the two byte totals are equal. *)
Theorem listings_agree (pages : list ListPage) (keys : list string) (totalSize : Z) :
  listAllKeys pages = Some (keys, totalSize) →
  keys = (λ obj, default "" (Key obj)) <$> filter is_listed (objects_read pages) ∧
  totalSize = sum_sizes (filter is_listed (objects_read pages)) ∧
  getPrefixSize_pages pages (0, 0)
    = Some (sum_sizes (objects_read pages), Z.of_nat (length (objects_read pages))) ∧
  (Forall (λ obj, truthy (Key obj) = true) (objects_read pages) →
   sum_sizes (objects_read pages) = totalSize).
Proof.
  unfold listAllKeys. rewrite listAllKeys_pages_spec, getPrefixSize_pages_spec.
  destruct (forallb _ pages); [done|]. cbn [fst snd]. intros [= <- <-].
  split; [done|]. split; [lia|]. split; [done|].
  intros Hall. rewrite sum_sizes_listed by done. lia.
Qed.

Lemma listings_agree_witness :
  ["in/a.bin"; "in/b.bin"; "in/sub/c.bin"]
    = (λ obj, default "" (Key obj)) <$> filter is_listed (objects_read three_pages) ∧
  40 = sum_sizes (filter is_listed (objects_read three_pages)) ∧
  getPrefixSize_pages three_pages (0, 0)
    = Some (sum_sizes (objects_read three_pages),
            Z.of_nat (length (objects_read three_pages))) ∧
  (Forall (λ obj, truthy (Key obj) = true) (objects_read three_pages) →
   sum_sizes (objects_read three_pages) = 40).
Proof.
  apply (listings_agree three_pages ["in/a.bin"; "in/b.bin"; "in/sub/c.bin"] 40).
  vm_compute. reflexivity.
Defined.

(** ** The cache of prefix sizes *)

Lemma ensureLoaded_nonempty now c k info :
  store c !! k = Some info → ensureLoaded now c = c.
Proof.
  intros Hk. unfold ensureLoaded. rewrite bool_decide_eq_false_2; [done|].
  intros He. rewrite He in Hk. by rewrite lookup_empty in Hk.
Qed.

Lemma persist_store written c : store (persist written c) = store c.
Proof. by destruct written. Qed.

Lemma cache_call_other call c k info :
  call_key call ≠ k → store c !! k = Some info →
  store (cache_call call c) !! k = Some info.
Proof.
  intros Hne Hk. destruct call as [b p now w|b p n m now w]; simpl in *.
  - unfold getCachedSize. rewrite (ensureLoaded_nonempty now c k info Hk).
    destruct (store c !! cacheKey b p) as [entry|]; [|done].
    destruct (MAX_AGE_MS <? now - lastCalculated entry); [|done].
    simpl. rewrite persist_store. simpl. by rewrite lookup_delete_ne.
  - unfold setCachedSize. rewrite (ensureLoaded_nonempty now c k info Hk).
    simpl. rewrite persist_store. simpl. by rewrite lookup_insert_ne.
Qed.

Lemma cache_calls_other calls : ∀ c k info,
  Forall (λ call, call_key call ≠ k) calls → store c !! k = Some info →
  store (cache_calls calls c) !! k = Some info.
Proof.
  unfold cache_calls. induction calls as [|call calls IH]; intros c k info Hall Hk;
    [done|].
  apply Forall_cons in Hall as [Hne Hall]. simpl. apply IH; [done|].
  by apply cache_call_other.
Qed.

(** X29. What is stored in the size cache is read back until it is more than
    seven days old. After [setCachedSize(bucket, prefix, ...)] at time [t],
    and any calls for other cache keys in between (whether or not the cache
    file could be written), [getCachedSize] at time [t'] for a bucket and
    prefix with the same cache key yields the stored record when
    [t' - t <= MAX_AGE_MS] and [null] otherwise. The record holds the bucket,
    the totals and [t], and ['/'] for an empty prefix: the empty prefix and
    ['/'] share one cache key. *)
Theorem cache_round_trip (bucket prefix bucket' prefix' : string)
    (total count t t' : Z) (written written' : bool) (calls : list CacheCall)
    (c : Cache) :
  cacheKey bucket' prefix' = cacheKey bucket prefix →
  Forall (λ call, call_key call ≠ cacheKey bucket prefix) calls →
  (setCachedSize bucket prefix total count t written c).1
    = mkInfo bucket (if String.eqb prefix "" then "/" else prefix) total count t ∧
  (getCachedSize bucket' prefix' t' written'
     (cache_calls calls (setCachedSize bucket prefix total count t written c).2)).1
    = if decide (t' - t ≤ MAX_AGE_MS)
      then Some (setCachedSize bucket prefix total count t written c).1
      else None.
Proof.
  intros Hkey Hall. split; [done|].
  set (info := (setCachedSize bucket prefix total count t written c).1).
  assert (store (cache_calls calls (setCachedSize bucket prefix total count t written c).2)
            !! cacheKey bucket prefix = Some info) as Hk.
  { apply cache_calls_other; [done|]. unfold setCachedSize. simpl.
    rewrite persist_store. simpl. by rewrite lookup_insert_eq. }
  unfold getCachedSize. rewrite (ensureLoaded_nonempty t' _ _ info Hk), Hkey, Hk.
  change (lastCalculated info) with t.
  destruct (Z.ltb_spec MAX_AGE_MS (t' - t)); case_decide; try done; lia.
Qed.

Lemma cache_round_trip_witness :
  (setCachedSize "photos" "" 4096 3 1000 true (mkCache ∅ None)).1
    = mkInfo "photos" "/" 4096 3 1000 ∧
  (getCachedSize "photos" "/" 86401000 true
     (cache_calls [SetCachedSize "photos" "2024/" 10 1 2000 false;
                   GetCachedSize "other" "" 3000 true]
        (setCachedSize "photos" "" 4096 3 1000 true (mkCache ∅ None)).2)).1
    = if decide (86401000 - 1000 ≤ MAX_AGE_MS)
      then Some (setCachedSize "photos" "" 4096 3 1000 true (mkCache ∅ None)).1
      else None.
Proof.
  apply (cache_round_trip "photos" "" "photos" "/" 4096 3 1000 86401000 true true
           [SetCachedSize "photos" "2024/" 10 1 2000 false;
            GetCachedSize "other" "" 3000 true] (mkCache ∅ None)).
  - reflexivity.
  - repeat constructor; vm_compute; discriminate.
Defined.

(** ** getPresignedUrl *)

Lemma Qle_bool_inject_Z a b : Qle_bool (inject_Z a) (inject_Z b) = (a <=? b).
Proof. unfold Qle_bool, inject_Z. simpl. by rewrite !Z.mul_1_r. Qed.

Lemma Math_max_Z a b :
  Math_max (Finite (inject_Z a)) (Finite (inject_Z b)) = Finite (inject_Z (Z.max a b)).
Proof.
  unfold Math_max. rewrite Qle_bool_inject_Z.
  destruct (Z.leb_spec a b); [rewrite Z.max_r | rewrite Z.max_l]; done || lia.
Qed.

Lemma Math_min_Z a b :
  Math_min (Finite (inject_Z a)) (Finite (inject_Z b)) = Finite (inject_Z (Z.min a b)).
Proof.
  unfold Math_min. rewrite Qle_bool_inject_Z.
  destruct (Z.leb_spec a b); [rewrite Z.min_l | rewrite Z.min_r]; done || lia.
Qed.

(** X30. The expiry that [getPresignedUrl] hands to the signer. For every
    input but NaN it is a whole number of seconds between 60 and 43200 (12
    hours): 3600 when no expiry is given, the input itself when it is a
    whole number in that range, the nearer bound for whatever else,
    infinities included. NaN is not clamped: it is handed to the signer as
    it is. *)
Theorem safeExpiry_clamped (expiresIn : option JsNumber) :
  match expiresIn with
  | Some NaN => safeExpiry expiresIn = NaN
  | Some (Finite q) =>
      safeExpiry expiresIn = Finite (inject_Z (Z.min (Z.max (Qfloor q) 60) 43200))
  | Some Infinity => safeExpiry expiresIn = Finite (inject_Z 43200)
  | Some NegInfinity => safeExpiry expiresIn = Finite (inject_Z 60)
  | None => safeExpiry expiresIn = Finite (inject_Z 3600)
  end ∧
  (expiresIn ≠ Some NaN →
   ∃ n, safeExpiry expiresIn = Finite (inject_Z n) ∧ 60 ≤ n ≤ 43200) ∧
  ∀ n, 60 ≤ n ≤ 43200 → expiresIn = Some (Finite (inject_Z n)) →
       safeExpiry expiresIn = Finite (inject_Z n).
Proof.
  assert (∀ q, safeExpiry (Some (Finite q))
               = Finite (inject_Z (Z.min (Z.max (Qfloor q) 60) 43200))) as Hfin.
  { intros q. unfold safeExpiry.
    change (Math_floor (default (Finite (inject_Z 3600)) (Some (Finite q))))
      with (Finite (inject_Z (Qfloor q))).
    by rewrite Math_max_Z, Math_min_Z. }
  split; [|split].
  - destruct expiresIn as [[q| | |]|]; first [apply Hfin | done].
  - intros Hn. destruct expiresIn as [[q| | |]|]; try done.
    + eexists. split; [apply Hfin | lia].
    + exists 43200. split; [done | lia].
    + exists 60. split; [done | lia].
    + exists 3600. split; [done | lia].
  - intros n Hn ->. rewrite Hfin, Qfloor_Z. do 2 f_equal. lia.
Qed.
